(** * Advent of Code 2017, days 15 and 20: a shallow embedding and its properties

    [day15.py] replays two multiplicative congruential generators and counts
    the rounds in which the low-order bits of the two values agree.
    [day20.py] moves particles under constant acceleration and destroys the
    ones that meet at the same position.

    Python integers are [Z].  The particle system is modelled twice.  In the
    first model a numpy array of three integers is a [vec3] of exact
    integers, and the arithmetic of [Particle.update] is carried out in [Z];
    the properties of the collection (which particles are destroyed, what
    [reset] restores, what the query returns on an empty collection) are
    stated on it, and they do not depend on the values that the arithmetic
    gives.  The module [Np] computes as numpy does, with [int64] arrays that
    wrap around and [float64] arrays that round; the properties of the
    numbers are stated on it, with the range in which the two models agree
    ([update_exact]).  Python objects that are mutated in place
    (the particles) live in a heap addressed by locations, a Python list of
    particles is a [list loc], and [copy.deepcopy] allocates new objects. *)

From Stdlib Require Import ZArith Ascii.
From Stdlib Require SpecFloat.
From stdpp Require Import prelude strings sorting gmap.

(** ** Outcomes of a Python computation *)

(** [ValueError] is what [list.remove] raises when the element is absent,
    [ZeroDivisionError] what [%] raises on a zero divisor.  [OutOfFuel] is no
    Python outcome: it marks a loop of the model that was cut off before the
    loop of the program had finished. *)
Inductive result (A : Type) : Type :=
  | Ok (a : A)
  | ValueError
  | ZeroDivisionError
  | OutOfFuel.
Arguments Ok {A} a.
Arguments ValueError {A}.
Arguments ZeroDivisionError {A}.
Arguments OutOfFuel {A}.

#[global] Instance result_bind : MBind result := λ A B k r,
  match r with
  | Ok a => k a
  | ValueError => ValueError
  | ZeroDivisionError => ZeroDivisionError
  | OutOfFuel => OutOfFuel
  end.

Definition is_ok {A : Type} (r : result A) : Prop :=
  match r with Ok _ => True | _ => False end.

(** ** Three-component integer vectors (the numpy arrays of day 20) *)

Record vec3 : Type := Vec3 { vx : Z; vy : Z; vz : Z }.

#[global] Instance vec3_eq_dec : EqDecision vec3.
Proof. solve_decision. Defined.

Section Vectors.
Local Open Scope Z_scope.

(** [u + v] *)
Definition vadd (u v : vec3) : vec3 :=
  Vec3 (vx u + vx v) (vy u + vy v) (vz u + vz v).

(** [k * v] and [v * k] for an integer [k] *)
Definition vscale (k : Z) (v : vec3) : vec3 :=
  Vec3 (k * vx v) (k * vy v) (k * vz v).

(** [v / 2] in exact integers.  Python's [/] is the true division;
    [Particle.update] applies it to [acc * t * (t + 1)] only, whose
    components are even, so that the quotient is the integer that [Z.div]
    returns (lemma [update_halves]).  numpy computes it in [float64]:
    [Np.true_divide_2]. *)
Definition vhalf (v : vec3) : vec3 :=
  Vec3 (vx v / 2) (vy v / 2) (vz v / 2).

(** [np.abs(v)] *)
Definition vabs (v : vec3) : vec3 :=
  Vec3 (Z.abs (vx v)) (Z.abs (vy v)) (Z.abs (vz v)).

(** [np.sum(v)] *)
Definition vsum (v : vec3) : Z := vx v + vy v + vz v.
End Vectors.

(** ** The heap of particle objects *)

Module Particle.
Local Open Scope Z_scope.

(** The attributes that [Particle.__init__] sets. *)
Record t : Type := mk { id : Z; pos : vec3; vel : vec3; acc : vec3 }.

#[global] Instance eq_dec : EqDecision t.
Proof. solve_decision. Defined.

(** The attribute values that [Particle.update] assigns, in exact
    integers:
  [[
  self.pos = self.pos + t * self.vel + self.acc * t * (t + 1) / 2
  self.vel = self.vel + self.acc * t
  ]]
    These are the values that the program computes in the range of
    [Np.in_range]; [Np.update] is the computation on [int64] and [float64]
    arrays. *)
Definition update (dt : Z) (p : t) : t :=
  {| id := id p;
     pos := vadd (vadd (pos p) (vscale dt (vel p)))
                 (vhalf (vscale (dt + 1) (vscale dt (acc p))));
     vel := vadd (vel p) (vscale dt (acc p));
     acc := acc p |}.

(** [np.sum(np.abs(self.pos))] in exact integers; [Np.manhattan_dist] is
    the computation on the arrays. *)
Definition manhattan_dist (p : t) : Z := vsum (vabs (pos p)).
End Particle.

(** A location names a particle object; two references are the same object
    exactly when the locations are equal. *)
Abbreviation loc := nat (only parsing).
Abbreviation heap := (list Particle.t) (only parsing).

(** The object behind a reference.  Python has no dangling references; the
    default is never read in a heap where the reference is allocated. *)
Definition deref (h : heap) (l : loc) : Particle.t :=
  default (Particle.mk 0 (Vec3 0 0 0) (Vec3 0 0 0) (Vec3 0 0 0)) (h !! l).

(** Allocation of a new object. *)
Definition alloc (p : Particle.t) (h : heap) : heap * loc := (h ++ [p], length h).

(** [particle.update(t)]: the object is changed in place. *)
Definition Particle_update (self : loc) (dt : Z) (h : heap) : heap :=
  alter (Particle.update dt) self h.

(** [particle.manhattan_dist()] *)
Definition Particle_manhattan_dist (self : loc) (h : heap) : Z :=
  Particle.manhattan_dist (deref h self).

(** [copy.deepcopy] of a list of particles.  [memo] maps the objects already
    copied to their copies, so that an object that occurs twice is copied
    once.  The copy of a particle is a new object with equal attributes. *)
Fixpoint memo_get (memo : list (loc * loc)) (x : loc) : option loc :=
  match memo with
  | [] => None
  | (k, v) :: memo' => if decide (k = x) then Some v else memo_get memo' x
  end.

Fixpoint deepcopy_from (memo : list (loc * loc)) (l : list loc) (h : heap)
  : heap * list loc :=
  match l with
  | [] => (h, [])
  | x :: l' =>
      match memo_get memo x with
      | Some y =>
          let '(h', r) := deepcopy_from memo l' h in (h', y :: r)
      | None =>
          let '(h1, y) := alloc (deref h x) h in
          let '(h', r) := deepcopy_from ((x, y) :: memo) l' h1 in
          (h', y :: r)
      end
  end.

Definition deepcopy (l : list loc) (h : heap) : heap * list loc :=
  deepcopy_from [] l h.

(** ** Python list operations on lists of references *)

(** [l.remove(x)]: the first occurrence of [x] goes, [ValueError] when there
    is none. *)
Fixpoint list_remove (x : loc) (l : list loc) : result (list loc) :=
  match l with
  | [] => ValueError
  | y :: l' =>
      if decide (y = x) then Ok l'
      else l'' ← list_remove x l'; Ok (y :: l'')
  end.

(** [for other in colliders: l.remove(other)] *)
Fixpoint remove_each (colliders : list loc) (l : list loc) : result (list loc) :=
  match colliders with
  | [] => Ok l
  | other :: rest => l' ← list_remove other l; remove_each rest l'
  end.

(** ** [class ParticleSystem] *)

Module ParticleSystem.

(** [self.system] and [self._initial] are two list objects that the class
    never aliases ([deepcopy] builds a new list each time), so each field
    holds its list; the particle objects in them are shared through the
    heap. *)
Record t : Type := mk { system : list loc; _initial : list loc; time : Z }.

(** [ParticleSystem(particles)] *)
Definition __init__ (particles : list loc) (h : heap) : heap * t :=
  let '(h', snapshot) := deepcopy particles h in
  (h', {| system := particles; _initial := snapshot; time := 0 |}).

(** The test of [get_colliders]:
    [(other.pos == particle.pos).all() and other.id != particle.id] *)
Definition collides (h : heap) (other particle : loc) : Prop :=
  Particle.pos (deref h other) = Particle.pos (deref h particle)
  ∧ Particle.id (deref h other) ≠ Particle.id (deref h particle).

#[global] Instance collides_dec h other particle :
  Decision (collides h other particle).
Proof. unfold collides. apply _. Defined.

Definition get_colliders (h : heap) (sys : list loc) (particle : loc)
  : list loc :=
  filter (λ other, collides h other particle) sys.

(** One run of [for particle in self.system: ...] inside
    [destroy_colliding].  The list iterator of Python holds an index [i]
    into the list object and stops when [i] is past its current end; the
    body removes elements from that same list while the iterator runs.
    [done] is the flag of the enclosing [while]. *)
Fixpoint scan (fuel : nat) (h : heap) (i : nat) (sys : list loc) (done : bool)
  : result (list loc * bool) :=
  match sys !! i with
  | None => Ok (sys, done)
  | Some particle =>
      match fuel with
      | O => OutOfFuel
      | S fuel' =>
          let colliders := get_colliders h sys particle in
          match colliders with
          | [] => scan fuel' h (S i) sys done
          | _ :: _ =>
              sys1 ← list_remove particle sys;
              sys2 ← remove_each colliders sys1;
              scan fuel' h (S i) sys2 false
          end
      end
  end.

(** [while not done: done = True; for ...].  Next to the final list the
    model returns how many times the body of the [while] ran. *)
Fixpoint rescan (fuel : nat) (h : heap) (sys : list loc)
  : result (list loc * nat) :=
  match fuel with
  | O => OutOfFuel
  | S fuel' =>
      '(sys', done) ← scan (length sys) h 0 sys true;
      if done : bool then Ok (sys', 1)
      else '(sys'', k) ← rescan fuel' h sys'; Ok (sys'', S k)
  end.

Definition destroy_loop (h : heap) (sys : list loc) : result (list loc * nat) :=
  rescan (S (length sys)) h sys.

Definition destroy_colliding (self : t) (h : heap) : result t :=
  '(sys', _) ← destroy_loop h (system self);
  Ok {| system := sys'; _initial := _initial self; time := time self |}.

Definition _update_without_collisions (dt : Z) (self : t) (h : heap) : heap :=
  foldl (λ h' particle, Particle_update particle dt h') h (system self).

(** [for step in range(t)] *)
Fixpoint collision_steps (n : nat) (self : t) (h : heap) : result (heap * t) :=
  match n with
  | O => Ok (h, self)
  | S n' =>
      let h1 := _update_without_collisions 1 self h in
      self1 ← destroy_colliding self h1;
      collision_steps n' self1 h1
  end.

Definition _update_with_collisions (dt : Z) (self : t) (h : heap)
  : result (heap * t) :=
  collision_steps (Z.to_nat dt) self h.

Definition update (dt : Z) (collisions : bool) (self : t) (h : heap)
  : result (heap * t) :=
  if negb collisions then Ok (_update_without_collisions dt self h, self)
  else _update_with_collisions dt self h.

Definition reset (self : t) (h : heap) : heap * t :=
  let '(h', copy) := deepcopy (_initial self) h in
  (h', {| system := copy; _initial := _initial self; time := time self |}).

(** [len(system)] *)
Definition __len__ (self : t) : nat := length (system self).
End ParticleSystem.

(** ** Module-level functions of [day20.py] *)

(** One entry of [initial_conditions]: position, velocity, acceleration.
    The type holds the entries with three vectors of three integers; on an
    entry with another number of vectors [pos, vel, acc = cond] raises
    [ValueError], and that path is not modelled. *)
Abbreviation condition := (vec3 * vec3 * vec3)%type (only parsing).

(** The loop of [create_particle_system], from the running [id]. *)
Fixpoint create_particles (id : Z) (conds : list condition) (h : heap)
  : heap * list loc :=
  match conds with
  | [] => (h, [])
  | (pos, vel, acc) :: conds' =>
      let '(h1, particle) := alloc (Particle.mk id pos vel acc) h in
      let '(h2, particles) := create_particles (id + 1) conds' h1 in
      (h2, particle :: particles)
  end.

Definition create_particle_system (conds : list condition) (h : heap)
  : heap * ParticleSystem.t :=
  let '(h1, particles) := create_particles 0 conds h in
  ParticleSystem.__init__ particles h1.

(** The running minimum of [find_closest_to_origin] starts at
    [float('inf')]. *)
Inductive distance : Type :=
  | Finite (d : Z)
  | Infinity.

(** [particle_dist < dist] *)
Definition closer (particle_dist : Z) (dist : distance) : bool :=
  match dist with
  | Infinity => true
  | Finite d => (particle_dist <? d)%Z
  end.

Fixpoint closest_from (h : heap) (particles : list loc)
    (closest : option loc) (dist : distance) : option loc :=
  match particles with
  | [] => closest
  | particle :: rest =>
      let particle_dist := Particle_manhattan_dist particle h in
      if closer particle_dist dist
      then closest_from h rest (Some particle) (Finite particle_dist)
      else closest_from h rest closest dist
  end.

(** [None] is Python's [None]. *)
Definition find_closest_to_origin (system : ParticleSystem.t) (h : heap)
  : option loc :=
  closest_from h (ParticleSystem.system system) None Infinity.

(** [str(particle)] is the id of the particle; [None] prints as such. *)
Definition reported_id (h : heap) (closest : option loc) : option Z :=
  (λ l, Particle.id (deref h l)) <$> closest.

(** The two answers that [main] prints, for initial conditions of the type
    [condition] and in exact integers.  The reading of the file and the
    parser come before it ([parse_initial_conditions] below). *)
Definition main (conds : list condition) : result (option Z * nat) :=
  let '(h0, particle_system) := create_particle_system conds [] in
  '(h1, s1) ← ParticleSystem.update 1000000 false particle_system h0;
  let part1 := reported_id h1 (find_closest_to_origin s1 h1) in
  let '(h2, s2) := ParticleSystem.reset s1 h1 in
  '(_, s3) ← ParticleSystem.update 1000 true s2 h2;
  Ok (part1, ParticleSystem.__len__ s3).

(** ** [day15.py] *)

Module Generator.
Local Open Scope Z_scope.

Record t : Type :=
  mk { _start : Z; _current : Z; _factor : Z; _divisor : Z }.

(** [Generator(start, factor, divisor=2147483647)] *)
Definition __init__ (start factor divisor : Z) : t :=
  {| _start := start; _current := start;
     _factor := factor; _divisor := divisor |}.

(** [generate] updates [_current] and returns it.  Python's [%] takes the
    sign of the divisor, as [Z.modulo] does, and raises on zero. *)
Definition generate (self : t) : result (Z * t) :=
  if decide (_divisor self = 0) then ZeroDivisionError
  else
    let current := (_current self * _factor self) mod _divisor self in
    Ok (current,
        {| _start := _start self; _current := current;
           _factor := _factor self; _divisor := _divisor self |}).

Definition reset (self : t) : t :=
  {| _start := _start self; _current := _start self;
     _factor := _factor self; _divisor := _divisor self |}.
End Generator.

(** A Python [str] is the list of its characters. *)
Abbreviation str := (list ascii) (only parsing).

Section Strings.
Local Open Scope Z_scope.
Local Open Scope char_scope.

(** Binary digits of a positive number, least significant first. *)
Fixpoint digits_lsb (p : positive) : str :=
  match p with
  | xH => ["1"]
  | xO q => "0" :: digits_lsb q
  | xI q => "1" :: digits_lsb q
  end.

(** [bin(n)]: ['0b101'], ['0b0'], ['-0b101']. *)
Definition bin (n : Z) : str :=
  match n with
  | Z0 => ["0"; "b"; "0"]
  | Zpos p => "0" :: "b" :: reverse (digits_lsb p)
  | Zneg p => "-" :: "0" :: "b" :: reverse (digits_lsb p)
  end.

(** The slice [s[start:]]: a negative [start] counts from the end, and
    both ends are clamped to the string. *)
Definition slice_from (start : Z) (s : str) : str :=
  let n := Z.of_nat (length s) in
  let k := if decide (start < 0) then Z.max 0 (start + n) else Z.min start n in
  drop (Z.to_nat k) s.

(** [s.zfill(width)]: a new string, padded with zeros after the sign. *)
Definition zfill (width : Z) (s : str) : str :=
  let zeros := replicate (Z.to_nat (width - Z.of_nat (length s))) "0" in
  match s with
  | c :: s' =>
      if decide (c = "+" ∨ c = "-") then c :: zeros ++ s' else zeros ++ s
  | [] => zeros
  end.

(** [lower_bits(n, bits=16)].  The string that [zfill] returns is dropped
    by the source ([binary.zfill(bits)] is a statement of its own): [binary]
    is sliced as [bin] gave it. *)
Definition lower_bits (n : Z) (bits : Z) : str :=
  let binary := slice_from 2 (bin n) in
  let _ := if decide (Z.of_nat (length binary) < bits)
           then zfill bits binary else binary in
  slice_from (- bits) binary.

(** The loop of [score]: [n] rounds still to run. *)
Fixpoint score_loop (n : nat) (gen_a gen_b : Generator.t) (score : Z)
  : result (Z * Generator.t * Generator.t) :=
  match n with
  | O => Ok (score, gen_a, gen_b)
  | S n' =>
      '(a, gen_a') ← Generator.generate gen_a;
      '(b, gen_b') ← Generator.generate gen_b;
      if decide (lower_bits a 16 = lower_bits b 16)
      then score_loop n' gen_a' gen_b' (score + 1)
      else score_loop n' gen_a' gen_b' score
  end.

(** [score(gen_a, gen_b, pairs)], for two distinct generator objects; the
    generators come back as the calls left them.  [score_at] is the
    function on references, where one object can be passed twice. *)
Definition score (gen_a gen_b : Generator.t) (pairs : Z)
  : result (Z * Generator.t * Generator.t) :=
  score_loop (Z.to_nat pairs) gen_a gen_b 0.

(** The generators of [main] for the two starting values of the input. *)
Definition main_generators (start_a start_b : Z) : Generator.t * Generator.t :=
  (Generator.__init__ start_a 16807 2147483647,
   Generator.__init__ start_b 48271 2147483647).
End Strings.

(** ** Vocabulary of the properties *)

Definition pos_of (h : heap) (l : loc) : vec3 := Particle.pos (deref h l).
Definition id_of (h : heap) (l : loc) : Z := Particle.id (deref h l).

(** The collection is unique by id. *)
Definition unique_ids (h : heap) (sys : list loc) : Prop :=
  NoDup (id_of h <$> sys).

(** Every reference of the list is an object of the heap. *)
Definition allocated (h : heap) (sys : list loc) : Prop :=
  Forall (λ l, l < length h) sys.

(** The ids grow along the storage order. *)
Definition ascending_ids (h : heap) (sys : list loc) : Prop :=
  StronglySorted Z.lt (id_of h <$> sys).

(** The particle values of the live collection and of the snapshot. *)
Definition live (s : ParticleSystem.t) (h : heap) : list Particle.t :=
  deref h <$> ParticleSystem.system s.

Definition snapshot (s : ParticleSystem.t) (h : heap) : list Particle.t :=
  deref h <$> ParticleSystem._initial s.

(** What is seen of a state once an operation has returned: the values of
    the live collection. *)
Definition observe (r : result (heap * ParticleSystem.t))
  : result (list Particle.t) :=
  '(h, s) ← r; Ok (live s h).

(** The operations that a caller interleaves on a system. *)
Inductive operation : Type :=
  | Update (dt : Z) (collisions : bool)
  | DestroyColliding.

Definition perform (o : operation) (s : ParticleSystem.t) (h : heap)
  : result (heap * ParticleSystem.t) :=
  match o with
  | Update dt collisions => ParticleSystem.update dt collisions s h
  | DestroyColliding => s' ← ParticleSystem.destroy_colliding s h; Ok (h, s')
  end.

Fixpoint perform_all (ops : list operation) (s : ParticleSystem.t) (h : heap)
  : result (heap * ParticleSystem.t) :=
  match ops with
  | [] => Ok (h, s)
  | o :: ops' => '(h', s') ← perform o s h; perform_all ops' s' h'
  end.

(** ** The behaviour that the specification words describe *)

(** The unit step of the specification:
    [velocity += acceleration; position += velocity]. *)
Definition unit_step (p : Particle.t) : Particle.t :=
  let velocity := vadd (Particle.vel p) (Particle.acc p) in
  {| Particle.id := Particle.id p;
     Particle.pos := vadd (Particle.pos p) velocity;
     Particle.vel := velocity;
     Particle.acc := Particle.acc p |}.

#[global] Instance vec3_countable : Countable vec3.
Proof.
  apply (inj_countable' (λ v, (vx v, vy v, vz v))
                        (λ t, Vec3 t.1.1 t.1.2 t.2)).
  by intros [].
Defined.

(** The one-pass resolution of the specification: a mapping from the position
    key to the particles at that position, then every particle of a group of
    two or more is left out. *)
Definition position_groups (h : heap) (sys : list loc) : gmap vec3 (list loc) :=
  foldr (λ l groups,
           <[pos_of h l := l :: default [] (groups !! pos_of h l)]> groups)
        ∅ sys.

Definition group_size (h : heap) (sys : list loc) (l : loc) : nat :=
  length (default [] (position_groups h sys !! pos_of h l)).

Definition one_pass_survivors (h : heap) (sys : list loc) : list loc :=
  filter (λ l, group_size h sys l < 2) sys.

(** The count of the specification: the rounds in which the lowest 16 bits
    of the two generated values are equal. *)
Definition low16 (n : Z) : Z := Z.land n 65535.

Fixpoint matching_rounds (n : nat) (gen_a gen_b : Generator.t) : result Z :=
  match n with
  | O => Ok 0%Z
  | S n' =>
      '(a, gen_a') ← Generator.generate gen_a;
      '(b, gen_b') ← Generator.generate gen_b;
      k ← matching_rounds n' gen_a' gen_b';
      Ok (if decide (low16 a = low16 b) then (k + 1)%Z else k)
  end.

(** ** The effect of the operations on particle values *)

(** The particles of [vals] at the position of [v]. *)
Definition crowd (vals : list Particle.t) (v : Particle.t) : list Particle.t :=
  filter (λ v', Particle.pos v' = Particle.pos v) vals.

Definition surviving_values (vals : list Particle.t) : list Particle.t :=
  filter (λ v, length (crowd vals v) < 2) vals.

Fixpoint collision_steps_values (n : nat) (vals : list Particle.t)
  : list Particle.t :=
  match n with
  | O => vals
  | S n' =>
      collision_steps_values n' (surviving_values (Particle.update 1 <$> vals))
  end.

Definition effect (o : operation) (vals : list Particle.t) : list Particle.t :=
  match o with
  | Update dt false => Particle.update dt <$> vals
  | Update dt true => collision_steps_values (Z.to_nat dt) vals
  | DestroyColliding => surviving_values vals
  end.

Definition effects (ops : list operation) (vals : list Particle.t)
  : list Particle.t :=
  foldl (λ vs o, effect o vs) vals ops.

(** The reference scenario of the specification. *)
Definition scenario_1 : list condition :=
  [ (Vec3 3 0 0, Vec3 2 0 0, Vec3 (-1) 0 0);
    (Vec3 4 0 0, Vec3 0 0 0, Vec3 (-2) 0 0) ]%Z.

(** The id that part 1 reports after [steps] steps without collisions. *)
Definition closest_after (steps : Z) (conds : list condition)
  : result (option Z) :=
  let '(h0, particle_system) := create_particle_system conds [] in
  '(h1, s1) ← ParticleSystem.update steps false particle_system h0;
  Ok (reported_id h1 (find_closest_to_origin s1 h1)).

(** ** The steps of [destroy_colliding] *)

(** One execution of the body of the [if colliders:] branch, at a particle
    of the list that has colliders: the particle and its colliders go. *)
Definition struck (h : heap) (sys sys' : list loc) : Prop :=
  ∃ particle,
    particle ∈ sys
    ∧ ParticleSystem.get_colliders h sys particle ≠ []
    ∧ (sys1 ← list_remove particle sys;
       remove_each (ParticleSystem.get_colliders h sys particle) sys1) = Ok sys'.

(** No particle stored at index [i] or later has a collider. *)
Definition quiet_from (h : heap) (i : nat) (sys : list loc) : Prop :=
  ∀ j particle, i ≤ j → sys !! j = Some particle →
    ParticleSystem.get_colliders h sys particle = [].

(** No other particle of the collection is at the position of [l]. *)
Definition alone (h : heap) (sys : list loc) (l : loc) : Prop :=
  ∀ l', l' ∈ sys → l' ≠ l → pos_of h l' ≠ pos_of h l.

(** No two particles of the collection share a position. *)
Definition distinct_positions (h : heap) (sys : list loc) : Prop :=
  ∀ i j a b, i ≠ j → sys !! i = Some a → sys !! j = Some b →
    pos_of h a ≠ pos_of h b.

(** ** States that the class reaches *)

(** The references of both lists are objects of the heap, the live
    collection and the snapshot are unique by id, and no object is in both
    lists. *)
Record well_formed (h : heap) (s : ParticleSystem.t) : Prop := {
  wf_system : allocated h (ParticleSystem.system s);
  wf_initial : allocated h (ParticleSystem._initial s);
  wf_system_ids : unique_ids h (ParticleSystem.system s);
  wf_initial_ids : unique_ids h (ParticleSystem._initial s);
  wf_apart : ∀ l, l ∈ ParticleSystem.system s → l ∉ ParticleSystem._initial s
}.

(** ** Vocabulary of the further properties *)


(** The value of a string of binary digits, as [int(s, 2)] reads it, and
    the value of the digits when the least significant comes first. *)
Definition bit_of (c : ascii) : Z := if decide (c = "1"%char) then 1%Z else 0%Z.

Definition binary_value (s : str) : Z :=
  foldl (λ acc c, 2 * acc + bit_of c)%Z 0%Z s.

Definition digits_value (s : str) : Z :=
  foldr (λ c acc, bit_of c + 2 * acc)%Z 0%Z s.

Definition is_binary (s : str) : Prop :=
  Forall (λ c, c = "0"%char ∨ c = "1"%char) s.

(** [n] calls of [generate], one after the other: the values in the order
    in which they were generated, and the generator as the calls left it. *)
Fixpoint generated (n : nat) (self : Generator.t)
  : result (list Z * Generator.t) :=
  match n with
  | O => Ok ([], self)
  | S n' =>
      '(v, self1) ← Generator.generate self;
      '(vs, self2) ← generated n' self1;
      Ok (v :: vs, self2)
  end.

(** The two values of a round give equal strings in [score]: their lowest 16
    bits are equal, and both or neither are below [2^15]. *)
Definition strings_agree (a b : Z) : Prop :=
  low16 a = low16 b ∧ ((a < 32768)%Z ↔ (b < 32768)%Z).

#[global] Instance strings_agree_dec a b : Decision (strings_agree a b).
Proof. unfold strings_agree. apply _. Defined.

(** ** [parse_initial_conditions] *)

(** [s.index(c)] for a character [c]: the first position of [c], or
    [ValueError]. *)
Fixpoint str_find (c : ascii) (s : str) : option nat :=
  match s with
  | [] => None
  | x :: s' => if decide (x = c) then Some 0 else S <$> str_find c s'
  end.

Definition str_index (c : ascii) (s : str) : result nat :=
  match str_find c s with
  | Some i => Ok i
  | None => ValueError
  end.

(** The slice [s[i:j]] for two positions that are not negative. *)
Definition slice (i j : nat) (s : str) : str := take (j - i) (drop i s).

(** The first piece of a split grows by one character. *)
Definition push_char (c : ascii) (pieces : list str) : list str :=
  match pieces with
  | [] => [[c]]
  | w :: ws => (c :: w) :: ws
  end.

(** [s.split(sep)] for a separator of one character. *)
Fixpoint split_char (sep : ascii) (s : str) : list str :=
  match s with
  | [] => [[]]
  | c :: s' =>
      if decide (c = sep) then [] :: split_char sep s'
      else push_char c (split_char sep s')
  end.

(** [s.split(', ')]: the string is cut at the occurrences of the two
    characters, found from left to right. *)
Fixpoint split_comma_space (s : str) : list str :=
  match s with
  | [] => [[]]
  | c :: s' =>
      match s' with
      | c' :: s'' =>
          if decide (c = ","%char ∧ c' = " "%char)
          then [] :: split_comma_space s''
          else push_char c (split_comma_space s')
      | [] => push_char c (split_comma_space s')
      end
  end.

(** A list comprehension whose element expression can raise: the elements
    are computed from left to right, and the first exception ends it. *)
Fixpoint map_result {A B : Type} (f : A → result B) (l : list A)
  : result (list B) :=
  match l with
  | [] => Ok []
  | x :: l' => y ← f x; ys ← map_result f l'; Ok (y :: ys)
  end.

Section Parse.
(** [int] of Python, applied to a string: it is a builtin of the language
    and no code of the repository, and the functions below are modelled for
    whatever it returns. *)
Context (int : str → result Z).

(** [[int(i) for i in cond[cond.index('<') + 1:cond.index('>')].split(',')]] *)
Definition parse_vector (cond : str) : result (list Z) :=
  i ← str_index "<"%char cond;
  j ← str_index ">"%char cond;
  map_result int (split_char ","%char (slice (S i) j cond)).

(** The body of the outer loop, for one line. *)
Definition parse_state (state : str) : result (list (list Z)) :=
  map_result parse_vector (split_comma_space state).

Definition parse_initial_conditions (states : list str)
  : result (list (list (list Z))) :=
  map_result parse_state states.
End Parse.

(** Texts in the format that the parser reads: [label<t1,t2,...>] for a
    vector, and the vectors of a line joined by [", "]. *)
Fixpoint join_with (sep : str) (pieces : list str) : str :=
  match pieces with
  | [] => []
  | [w] => w
  | w :: ws => w ++ sep ++ join_with sep ws
  end.

(** No comma of the string is followed by a space: [split(', ')] finds
    nothing to cut. *)
Fixpoint comma_space_free (s : str) : Prop :=
  match s with
  | [] => True
  | c :: s' => ¬ (c = ","%char ∧ head s' = Some " "%char) ∧ comma_space_free s'
  end.

#[global] Instance comma_space_free_dec s : Decision (comma_space_free s).
Proof.
  induction s as [|c s IH]; simpl; [apply _|].
  apply and_dec; [apply _ | exact IH].
Defined.

Definition render_vector (v : str * list str) : str :=
  v.1 ++ "<"%char :: join_with [","%char] v.2 ++ [">"%char].

Definition render_state (vs : list (str * list str)) : str :=
  join_with [","%char; " "%char] (render_vector <$> vs).

(** A reader of plain decimal numerals with an optional minus sign, which
    stands for [int] in the examples.  [int] returns these numbers on these
    numerals; it also reads a plus sign, blanks around the numeral and
    underscores between digits, which this reader refuses with
    [ValueError]. *)
Definition digit_of (c : ascii) : option Z :=
  let n := Z.of_nat (nat_of_ascii c) in
  if decide (48 ≤ n ≤ 57)%Z then Some (n - 48)%Z else None.

Fixpoint read_digits (acc : Z) (s : str) : result Z :=
  match s with
  | [] => Ok acc
  | c :: s' =>
      match digit_of c with
      | Some d => read_digits (10 * acc + d) s'
      | None => ValueError
      end
  end.

Definition read_decimal (s : str) : result Z :=
  match s with
  | [] => ValueError
  | c :: s' =>
      if decide (c = "-"%char)
      then match s' with
           | [] => ValueError
           | _ => n ← read_digits 0 s'; Ok (- n)%Z
           end
      else read_digits 0 s
  end.

Definition decimal_value (text : str) : Z :=
  match read_decimal text with
  | Ok z => z
  | _ => 0%Z
  end.

(** The two lines of the reference scenario, as labels and numerals. *)
Definition scenario_1_text : list (list (str * list str)) :=
  let s := String.list_ascii_of_string in
  [ [ (s "p=", [s "3"; s "0"; s "0"]); (s "v=", [s "2"; s "0"; s "0"]);
      (s "a=", [s "-1"; s "0"; s "0"]) ];
    [ (s "p=", [s "4"; s "0"; s "0"]); (s "v=", [s "0"; s "0"; s "0"]);
      (s "a=", [s "-2"; s "0"; s "0"]) ] ].

(** ** The numbers of numpy *)

(** The vectors of the particles are numpy arrays, and the definitions above
    compute on them in exact integers.  The module [Np] computes as numpy
    does: [np.array] of Python integers is an [int64] array (the default
    integer of numpy on Linux and macOS, and everywhere from numpy 2 on),
    whose sums and products wrap around without an exception, and the
    division [/ 2] of [Particle.update] gives a [float64] array, whose sums
    are rounded to the nearest [float64].  The module says where the exact
    integers are what the program computes, and what the program computes
    where they are not. *)
Module Np.
Local Open Scope Z_scope.

(** The value that an [int64] keeps of an integer result: its low 64 bits,
    read as a signed number. *)
Definition wrap (z : Z) : Z := (z + 2 ^ 63) mod 2 ^ 64 - 2 ^ 63.

Definition int64 (z : Z) : Prop := - 2 ^ 63 ≤ z < 2 ^ 63.

(** A [float64].  The program adds integers and halves of integers, so that
    every finite value that it reaches is half an integer: [Fin n] is the
    number [n / 2].  The sign of a zero is not kept: no operation of the
    program tells [0.0] from [-0.0]. *)
Inductive f64 : Type :=
  | Fin (twice : Z)
  | Inf (negative : bool)
  | NaN.

#[global] Instance f64_eq_dec : EqDecision f64.
Proof. solve_decision. Defined.

(** [n / 2^k] rounded to the nearest integer, a tie to the even one. *)
Definition nearest_even (n k : Z) : Z :=
  let q := n / 2 ^ k in
  let r := n mod 2 ^ k in
  if decide (2 * r < 2 ^ k) then q
  else if decide (2 ^ k < 2 * r) then q + 1
  else if Z.even q then q else q + 1.

(** A magnitude rounded to 53 significant bits. *)
Definition round_magnitude (n : Z) : Z :=
  let k := Z.log2 n + 1 - 53 in
  if decide (k ≤ 0) then n else nearest_even n k * 2 ^ k.

(** The [float64] nearest to the number [n / 2]: a finite [float64] has 53
    significant bits and is below [2^1024], and a result that rounds to
    [2^1024] or more is an infinity. *)
Definition round (n : Z) : f64 :=
  let m := round_magnitude (Z.abs n) in
  if decide (2 ^ 1025 ≤ m) then Inf (bool_decide (n < 0))
  else Fin (Z.sgn n * m).

(** The conversion of an [int64] to [float64]. *)
Definition of_int (z : Z) : f64 := round (2 * z).

(** [a + b]: the exact sum, rounded. *)
Definition add (a b : f64) : f64 :=
  match a, b with
  | Fin m, Fin n => round (m + n)
  | NaN, _ | _, NaN => NaN
  | Inf s, Inf s' => if decide (s = s') then Inf s else NaN
  | Inf s, Fin _ | Fin _, Inf s => Inf s
  end.

(** [z / 2] for an [int64] [z]: the true division converts [z] to
    [float64] and halves it, which is exact on a [float64] that is an
    integer. *)
Definition int_half (z : Z) : f64 :=
  match of_int z with
  | Fin n => Fin (n / 2)
  | a => a
  end.

Definition abs (a : f64) : f64 :=
  match a with
  | Fin n => Fin (Z.abs n)
  | Inf _ => Inf false
  | NaN => NaN
  end.

(** [a < b] and [a == b]: a NaN compares false with everything. *)
Definition ltb (a b : f64) : bool :=
  match a, b with
  | Fin m, Fin n => m <? n
  | Fin _, Inf s => negb s
  | Inf s, Fin _ => s
  | Inf s, Inf s' => s && negb s'
  | _, _ => false
  end.

Definition eqb (a b : f64) : bool :=
  match a, b with
  | Fin m, Fin n => m =? n
  | Inf s, Inf s' => bool_decide (s = s')
  | _, _ => false
  end.

(** The same [float64] in the binary64 format of IEEE 754 as the Standard
    Library specifies it (53 bits of precision, exponents below 1024), for
    the comparison of the operations above with the operations of the
    standard ([float64_is_binary64]). *)
Definition to_spec (a : f64) : SpecFloat.spec_float :=
  match a with
  | Fin n => SpecFloat.binary_normalize 53 1024 n (-1) false
  | Inf s => SpecFloat.S754_infinity s
  | NaN => SpecFloat.S754_nan
  end.

Record fvec3 : Type := FVec3 { fx : f64; fy : f64; fz : f64 }.

#[global] Instance fvec3_eq_dec : EqDecision fvec3.
Proof. solve_decision. Defined.

(** An array of three numbers: [np.array] of three Python integers of the
    [int64] range is an [int64] array, and the components of an [Int64]
    array are in that range. *)
Inductive array : Type :=
  | Int64 (v : vec3)
  | Float64 (v : fvec3).

#[global] Instance array_eq_dec : EqDecision array.
Proof. solve_decision. Defined.

Definition wrap3 (v : vec3) : vec3 :=
  Vec3 (wrap (vx v)) (wrap (vy v)) (wrap (vz v)).

Definition to_float (a : array) : fvec3 :=
  match a with
  | Int64 v => FVec3 (of_int (vx v)) (of_int (vy v)) (of_int (vz v))
  | Float64 v => v
  end.

(** [a + b]: two [int64] arrays give an [int64] array; with a [float64]
    array the other one is converted. *)
Definition array_add (a b : array) : array :=
  match a, b with
  | Int64 u, Int64 v => Int64 (wrap3 (vadd u v))
  | _, _ =>
      let u := to_float a in
      let v := to_float b in
      Float64 (FVec3 (add (fx u) (fx v)) (add (fy u) (fy v)) (add (fz u) (fz v)))
  end.

(** [k * a] and [a * k] for an [int64] array [a] and a Python integer [k]
    of the [int64] range. *)
Definition int_mul (k : Z) (v : vec3) : vec3 := wrap3 (vscale k v).

(** [a / 2] for an [int64] array [a]. *)
Definition true_divide_2 (v : vec3) : fvec3 :=
  FVec3 (int_half (vx v)) (int_half (vy v)) (int_half (vz v)).

(** [(a == b).all()] *)
Definition array_equal (a b : array) : bool :=
  match a, b with
  | Int64 u, Int64 v => bool_decide (u = v)
  | _, _ =>
      let u := to_float a in
      let v := to_float b in
      eqb (fx u) (fx v) && eqb (fy u) (fy v) && eqb (fz u) (fz v)
  end.

(** A particle as [create_particle_system] builds it and as the updates
    leave it: the velocity and the acceleration are [int64] arrays; the
    position is one until the first update and a [float64] array after. *)
Record particle : Type :=
  mk { id : Z; pos : array; vel : vec3; acc : vec3 }.

(** [Particle.update], on the values of the attributes:
  [[
  self.pos = self.pos + t * self.vel + self.acc * t * (t + 1) / 2
  self.vel = self.vel + self.acc * t
  ]]
    for a [t] such that [t] and [t + 1] are of the [int64] range.  What
    numpy does with a larger Python integer depends on its version, and is
    not modelled: [None]. *)
Definition update (t : Z) (p : particle) : option particle :=
  if decide (int64 t ∧ int64 (t + 1)) then
    Some {| id := id p;
            pos := array_add
                     (array_add (pos p) (Int64 (int_mul t (vel p))))
                     (Float64 (true_divide_2
                                 (int_mul (t + 1) (int_mul t (acc p)))));
            vel := wrap3 (vadd (vel p) (int_mul t (acc p)));
            acc := acc p |}
  else None.

(** [n] calls [update(1)] in sequence. *)
Fixpoint updates (n : nat) (p : particle) : option particle :=
  match n with
  | O => Some p
  | S n' => p' ← updates n' p; update 1 p'
  end.

(** Two particles with equal vectors, as [==] of numpy compares them. *)
Definition equal (p q : particle) : bool :=
  bool_decide (id p = id q)
  && array_equal (pos p) (pos q)
  && bool_decide (vel p = vel q)
  && bool_decide (acc p = acc q).

(** A numpy scalar: [np.int64] or [np.float64]; [float('inf')] of Python
    compares as the [float64] infinity. *)
Inductive number : Type :=
  | Int (z : Z)
  | Float (a : f64).

(** [np.sum(np.abs(self.pos))].  The absolute value and the sum of an
    [int64] array wrap around.  The sum of a [float64] array is rounded
    after each addition; the order of the two additions is numpy's, and no
    statement below depends on it. *)
Definition manhattan_dist (p : particle) : number :=
  match pos p with
  | Int64 v =>
      Int (wrap (wrap (Z.abs (vx v)) + wrap (Z.abs (vy v)) + wrap (Z.abs (vz v))))
  | Float64 v => Float (add (add (abs (fx v)) (abs (fy v))) (abs (fz v)))
  end.

Definition to_f64 (n : number) : f64 :=
  match n with
  | Int z => of_int z
  | Float a => a
  end.

(** [a < b]: two [int64] are compared as integers; with a [float64] the
    other one is converted. *)
Definition less (a b : number) : bool :=
  match a, b with
  | Int m, Int n => m <? n
  | _, _ => ltb (to_f64 a) (to_f64 b)
  end.

(** The heap of particle objects, as above. *)
Definition deref (h : list particle) (l : loc) : particle :=
  default (mk 0 (Int64 (Vec3 0 0 0)) (Vec3 0 0 0) (Vec3 0 0 0)) (h !! l).

(** [for particle in self.system: particle.update(t)] *)
Fixpoint _update_without_collisions (t : Z) (system : list loc)
    (h : list particle) : option (list particle) :=
  match system with
  | [] => Some h
  | particle :: rest =>
      p' ← update t (deref h particle);
      _update_without_collisions t rest (<[particle := p']> h)
  end.

(** The loop of [find_closest_to_origin]. *)
Fixpoint closest_from (h : list particle) (particles : list loc)
    (closest : option loc) (dist : number) : option loc :=
  match particles with
  | [] => closest
  | particle :: rest =>
      let particle_dist := manhattan_dist (deref h particle) in
      if less particle_dist dist
      then closest_from h rest (Some particle) particle_dist
      else closest_from h rest closest dist
  end.

Definition find_closest_to_origin (system : list loc) (h : list particle)
  : option loc :=
  closest_from h system None (Float (Inf false)).

(** The particles that [create_particle_system] builds from conditions
    whose components are of the [int64] range, in the order of the list:
    the object number [i] has the id [i]. *)
Definition particles_of (conds : list condition) : list particle :=
  imap (λ i (c : condition), mk (Z.of_nat i) (Int64 c.1.1) c.1.2 c.2) conds.

(** The id that part 1 reports after [steps] steps without collisions. *)
Definition closest_after (steps : Z) (conds : list condition)
  : option (option Z) :=
  let system := seq 0 (length conds) in
  h ← _update_without_collisions steps system (particles_of conds);
  Some ((λ l, id (deref h l)) <$> find_closest_to_origin system h).

(** A [float64] array whose components are the integers of [v]. *)
Definition float_array (v : vec3) : array :=
  Float64 (FVec3 (Fin (2 * vx v)) (Fin (2 * vy v)) (Fin (2 * vz v))).

(** The array holds the integers of [v]: as [int64], or as [float64]. *)
Definition exact_array (a : array) (v : vec3) : Prop :=
  a = Int64 v ∨ a = float_array v.

(** The particle [p] of the program has the values of the particle [P] of
    the exact arithmetic. *)
Definition exact (p : particle) (P : Particle.t) : Prop :=
  id p = Particle.id P
  ∧ exact_array (pos p) (Particle.pos P)
  ∧ vel p = Particle.vel P
  ∧ acc p = Particle.acc P.

(** The particle of the program with the values of [P], after an update:
    the position is a [float64] array. *)
Definition floated (P : Particle.t) : particle :=
  mk (Particle.id P) (float_array (Particle.pos P))
     (Particle.vel P) (Particle.acc P).

(** The range in which [update(t)] is exact: with the absolute values of a
    component of the position, the velocity and the acceleration, no
    intermediate result exceeds [2^51] in magnitude. *)
Definition magnitude (t x v a : Z) : Z :=
  Z.abs x + (Z.abs t + 1) * Z.abs v + (Z.abs t + 1) * (Z.abs t + 1) * Z.abs a.

Definition in_range (t : Z) (P : Particle.t) : Prop :=
  Z.abs t ≤ 2 ^ 51
  ∧ magnitude t (vx (Particle.pos P)) (vx (Particle.vel P)) (vx (Particle.acc P))
    ≤ 2 ^ 51
  ∧ magnitude t (vy (Particle.pos P)) (vy (Particle.vel P)) (vy (Particle.acc P))
    ≤ 2 ^ 51
  ∧ magnitude t (vz (Particle.pos P)) (vz (Particle.vel P)) (vz (Particle.acc P))
    ≤ 2 ^ 51.

(** The Manhattan distance of a position as a number, doubled.  A position
    with an infinity or a NaN has none, and 0 stands for it. *)
Definition twice_distance (a : array) : Z :=
  match a with
  | Int64 v => 2 * (Z.abs (vx v) + Z.abs (vy v) + Z.abs (vz v))
  | Float64 (FVec3 (Fin x) (Fin y) (Fin z)) => Z.abs x + Z.abs y + Z.abs z
  | Float64 _ => 0
  end.

(** The positions on which the computed distance is the distance: an
    [int64] array whose distance is below [2^63], or a finite [float64]
    array whose distance is below [2^52].  The arrays of a collection are
    of one kind: [int64] before the first update and [float64] after. *)
Definition tame (int_arrays : bool) (a : array) : Prop :=
  match a with
  | Int64 v =>
      int_arrays = true
      ∧ Z.abs (vx v) + Z.abs (vy v) + Z.abs (vz v) < 2 ^ 63
  | Float64 (FVec3 (Fin x) (Fin y) (Fin z)) =>
      int_arrays = false ∧ Z.abs x + Z.abs y + Z.abs z < 2 ^ 53
  | Float64 _ => False
  end.

#[global] Instance tame_dec int_arrays a : Decision (tame int_arrays a).
Proof. destruct a as [v|[[x| |] [y| |] [z| |]]]; simpl; apply _. Defined.
End Np.

(** ** Generator objects *)

(** [score] receives two references to generator objects, and [generate]
    changes the object behind a reference.  The store holds the objects;
    one object passed twice is one location. *)
Definition generate_at (self : loc) (store : list Generator.t)
  : result (Z * list Generator.t) :=
  '(v, g) ← Generator.generate (default (Generator.mk 0 0 0 0) (store !! self));
  Ok (v, <[self := g]> store).

(** The loop of [score] on the objects: [n] rounds still to run. *)
Fixpoint score_loop_at (n : nat) (gen_a gen_b : loc)
    (store : list Generator.t) (score : Z) : result (Z * list Generator.t) :=
  match n with
  | O => Ok (score, store)
  | S n' =>
      '(a, store1) ← generate_at gen_a store;
      '(b, store2) ← generate_at gen_b store1;
      if decide (lower_bits a 16 = lower_bits b 16)
      then score_loop_at n' gen_a gen_b store2 (score + 1)%Z
      else score_loop_at n' gen_a gen_b store2 score
  end.

(** [score(gen_a, gen_b, pairs)] *)
Definition score_at (gen_a gen_b : loc) (pairs : Z) (store : list Generator.t)
  : result (Z * list Generator.t) :=
  score_loop_at (Z.to_nat pairs) gen_a gen_b store 0.

(** * Properties *)

(** ** [Particle.update] *)

Section ParticleUpdate.
Local Open Scope Z_scope.

Lemma consecutive_product_even (dt x : Z) :
  ∃ k, (dt + 1) * (dt * x) = 2 * k.
Proof.
  destruct (Z.Even_or_Odd dt) as [[m ->]|[m ->]].
  - exists ((2 * m + 1) * (m * x)). lia.
  - exists ((m + 1) * ((2 * m + 1) * x)). lia.
Qed.

Lemma half_exact (dt x : Z) :
  2 * ((dt + 1) * (dt * x) / 2) = (dt + 1) * (dt * x).
Proof.
  destruct (consecutive_product_even dt x) as [k ->].
  rewrite (Z.mul_comm 2 k), Z.div_mul by done. lia.
Qed.

(** The division of [Particle.update] never rounds. *)
Lemma update_halves (dt : Z) (v : vec3) :
  vscale 2 (vhalf (vscale (dt + 1) (vscale dt v))) = vscale (dt + 1) (vscale dt v).
Proof. destruct v; unfold vscale, vhalf; cbn. by rewrite !half_exact. Qed.

Lemma half_next (dt x : Z) :
  (dt + 1 + 1) * ((dt + 1) * x) / 2 = (dt + 1) * (dt * x) / 2 + (dt + 1) * x.
Proof.
  replace ((dt + 1 + 1) * ((dt + 1) * x))
    with ((dt + 1) * (dt * x) + (dt + 1) * x * 2) by lia.
  by rewrite Z.div_add.
Qed.

Lemma updated_0 (p : Particle.t) : Particle.update 0 p = p.
Proof.
  destruct p as [i [] [] []]; unfold Particle.update, vadd, vscale, vhalf; cbn.
  rewrite !Z.mul_0_l, !Z.mul_0_r. cbn. by rewrite !Z.add_0_r.
Qed.

Lemma updated_1 (p : Particle.t) : Particle.update 1 p = unit_step p.
Proof.
  destruct p as [i [] [] []].
  unfold Particle.update, unit_step, vadd, vscale, vhalf; cbn [Particle.id Particle.pos Particle.vel Particle.acc vx vy vz].
  rewrite !Z.mul_1_l, !(Z.mul_comm (1 + 1)), !Z.div_mul by done.
  by rewrite !Z.add_assoc.
Qed.

Lemma updated_succ (dt : Z) (p : Particle.t) :
  Particle.update (dt + 1) p = Particle.update 1 (Particle.update dt p).
Proof.
  rewrite updated_1. destruct p as [i [] [] []].
  unfold Particle.update, unit_step, vadd, vscale, vhalf; cbn [Particle.id Particle.pos Particle.vel Particle.acc vx vy vz].
  rewrite !half_next. f_equal; f_equal; lia.
Qed.

Lemma updated_iter (n : nat) (p : Particle.t) :
  Particle.update (Z.of_nat n) p = Nat.iter n (Particle.update 1) p.
Proof.
  induction n as [|n IH]; [apply updated_0|].
  rewrite Nat2Z.inj_succ, <- Z.add_1_r, updated_succ, IH. done.
Qed.

Lemma iter_ext {A : Type} (f g : A → A) (n : nat) (a : A) :
  (∀ x, f x = g x) → Nat.iter n f a = Nat.iter n g a.
Proof.
  intros Hfg. induction n as [|n IH]; [done|].
  change (f (Nat.iter n f a) = g (Nat.iter n g a)). by rewrite IH.
Qed.

Lemma Particle_update_iter (self : loc) (n : nat) (h : heap) :
  Particle_update self (Z.of_nat n) h = Nat.iter n (Particle_update self 1) h.
Proof.
  unfold Particle_update. induction n as [|n IH].
  - apply list_alter_id, updated_0.
  - change (Nat.iter (S n) ?f h) with (f (Nat.iter n f h)).
    rewrite <- IH, list_alter_alter_eq.
    apply list_alter_ext; [|done]. intros x _. cbn.
    rewrite Nat2Z.inj_succ, <- Z.add_1_r. apply updated_succ.
Qed.

End ParticleUpdate.

(** ** [find_closest_to_origin] *)

Section Closest.
Local Open Scope Z_scope.
Implicit Types (h : heap) (sys : list loc) (l : loc).

Abbreviation dist_of h l := (Particle_manhattan_dist l h).

(** The loop from a running minimum that some earlier particle set. *)
Lemma StronglySorted_lookup_lt {A : Type} (R : relation A) (l : list A) i j x y :
  StronglySorted R l → (i < j)%nat → l !! i = Some x → l !! j = Some y → R x y.
Proof.
  intros Hsorted. revert i j.
  induction Hsorted as [|a l _ IH Hall]; intros i j Hij Hi Hj; [done|].
  destruct j as [|j]; [lia|]. destruct i as [|i].
  - cbn in Hi, Hj. simplify_eq.
    by eapply (proj1 (Forall_lookup _ _) Hall).
  - apply (IH i j); [lia|done|done].
Qed.

Lemma StronglySorted_sublist {A : Type} (R : relation A) (k l : list A) :
  k `sublist_of` l → StronglySorted R l → StronglySorted R k.
Proof.
  induction 1 as [|x k l Hsub IH|x k l Hsub IH]; [done|..];
    rewrite ?StronglySorted_cons; intros [Hall Hsorted]; [|by apply IH].
  split; [|by apply IH]. rewrite Forall_forall in Hall |- *.
  intros y Hy. apply Hall. by eapply elem_of_sublist.
Qed.

Lemma closest_from_running h sys best :
  ∃ l, closest_from h sys (Some best) (Finite (dist_of h best)) = Some l
    ∧ (l = best ∨ l ∈ sys)
    ∧ dist_of h l ≤ dist_of h best
    ∧ (∀ l', l' ∈ sys → dist_of h l ≤ dist_of h l')
    ∧ (l = best
       ∨ dist_of h l < dist_of h best
         ∧ ∃ i, sys !! i = Some l
            ∧ ∀ j l', (j < i)%nat → sys !! j = Some l' →
                dist_of h l < dist_of h l').
Proof.
  revert best. induction sys as [|x sys IH]; intros best.
  - exists best. cbn. split_and!; auto; [lia|]. by intros l' ?%elem_of_nil.
  - cbn [closest_from closer].
    destruct (Z.ltb_spec (dist_of h x) (dist_of h best)) as [Hlt|Hge].
    + destruct (IH x) as (l & -> & Hin & Hle & Hmin & Hfirst).
      exists l. split_and!; [done| |lia| |].
      * right. destruct Hin as [->|?]; [left|right]; done.
      * intros l' [->|?]%elem_of_cons; auto.
      * right. split; [lia|].
        destruct Hfirst as [->|(? & i & Hi & Hbefore)].
        -- exists 0%nat. split; [done|]. intros j l' ?; lia.
        -- exists (S i). split; [done|].
           intros [|j] l' ? Hj; [cbn in Hj; simplify_eq; lia|].
           apply (Hbefore j); [lia|done].
    + destruct (IH best) as (l & -> & Hin & Hle & Hmin & Hfirst).
      exists l. split_and!; [done| |done| |].
      * destruct Hin as [->|?]; [by left|right; by right].
      * intros l' [->|?]%elem_of_cons; [lia|auto].
      * destruct Hfirst as [->|(? & i & Hi & Hbefore)]; [by left|right].
        split; [done|]. exists (S i). split; [done|].
        intros [|j] l' ? Hj; [cbn in Hj; simplify_eq; lia|].
        apply (Hbefore j); [lia|done].
Qed.

(** On a collection that is not empty the query returns the first particle,
    in storage order, of minimal distance. *)
Lemma closest_first_minimum h sys x :
  ∃ l i, closest_from h (x :: sys) None Infinity = Some l
    ∧ (x :: sys) !! i = Some l
    ∧ (∀ l', l' ∈ x :: sys → dist_of h l ≤ dist_of h l')
    ∧ (∀ j l', (j < i)%nat → (x :: sys) !! j = Some l' →
         dist_of h l < dist_of h l').
Proof.
  cbn [closest_from closer].
  destruct (closest_from_running h sys x) as (l & -> & Hin & Hle & Hmin & Hfirst).
  destruct Hfirst as [->|(Hlt & i & Hi & Hbefore)].
  - exists x, 0%nat. split_and!; [done|done| |intros; lia].
    intros l' [->|?]%elem_of_cons; [lia|auto].
  - exists l, (S i). split_and!; [done|done| |].
    + intros l' [->|?]%elem_of_cons; [lia|auto].
    + intros [|j] l' ? Hj; [cbn in Hj; simplify_eq; lia|].
      apply (Hbefore j); [lia|done].
Qed.

(** C9. [find_closest_to_origin] returns [None] exactly when the collection
    is empty: on an empty collection it signals that there is no particle,
    whatever the heap holds, and it never does so when a particle is
    left. *)
Theorem find_closest_none_on_empty (s : ParticleSystem.t) (h : heap) :
  find_closest_to_origin s h = None ↔ ParticleSystem.system s = [].
Proof.
  unfold find_closest_to_origin. split; [|by intros ->].
  destruct (ParticleSystem.system s) as [|x sys]; [done|].
  destruct (closest_first_minimum h sys x) as (l & ? & -> & _). done.
Qed.

(** The witness: two particles meet and annihilate each other; the query on
    what is left returns [None]. *)
Lemma find_closest_none_on_empty_witness :
  let h := [Particle.mk 0 (Vec3 1 2 3) (Vec3 0 0 0) (Vec3 0 0 0);
            Particle.mk 1 (Vec3 1 2 3) (Vec3 1 0 0) (Vec3 0 0 0)] in
  ∃ s, ParticleSystem.destroy_colliding (ParticleSystem.mk [0; 1]%nat [] 0) h
       = Ok s
    ∧ ParticleSystem.system s = []
    ∧ find_closest_to_origin s h = None.
Proof.
  intros h. eexists. split; [vm_compute; reflexivity|]. split; [reflexivity|].
  apply find_closest_none_on_empty. reflexivity.
Defined.
End Closest.

(** ** Scenario 1 of the specification *)

Section Scenario.
Local Open Scope Z_scope.

Lemma scenario_1_created :
  let p0 := Particle.mk 0 (Vec3 3 0 0) (Vec3 2 0 0) (Vec3 (-1) 0 0) in
  let p1 := Particle.mk 1 (Vec3 4 0 0) (Vec3 0 0 0) (Vec3 (-2) 0 0) in
  create_particle_system scenario_1 []
  = ([p0; p1; p0; p1], ParticleSystem.mk [0; 1]%nat [2; 3]%nat 0).
Proof. reflexivity. Qed.

(** What [main] prints on scenario 1: id 0, and two survivors. *)
Example main_scenario_1 : main scenario_1 = Ok (Some 0, 2%nat).
Proof. vm_compute. reflexivity. Qed.

(** C3 as the specification states it fails: after the 1,000,000 steps of
    the reference run the query does not report id 1, in the exact integers
    and as the program computes on its arrays. *)
Lemma scenario_1_does_not_report_id_1 :
  closest_after 1000000 scenario_1 ≠ Ok (Some 1)
  ∧ Np.closest_after 1000000 scenario_1 ≠ Some (Some 1).
Proof. split; vm_compute; discriminate. Qed.

End Scenario.

(** ** [score] of day 15 *)

Section Score.
Local Open Scope Z_scope.

(** The string that [lower_bits] returns for a number below [2^15] is
    shorter than 16 characters: nothing pads it. *)
Example lower_bits_1 : lower_bits 1 16 = ["1"%char].
Proof. reflexivity. Qed.

Example lower_bits_65537 :
  lower_bits 65537 16 = replicate 15 "0"%char ++ ["1"%char].
Proof. reflexivity. Qed.

(** The example of the puzzle text: one match in the first five rounds. *)
Example score_puzzle_example :
  let '(gen_a, gen_b) := main_generators 65 8921 in
  (∃ gen_a' gen_b', score gen_a gen_b 5 = Ok (1, gen_a', gen_b'))
  ∧ matching_rounds 5 gen_a gen_b = Ok 1.
Proof. split; [do 2 eexists|]; vm_compute; reflexivity. Qed.

(** C4, where the code departs from it. With the starting values
    1407677000 and 1602015417 the first round generates 1 and 65537, whose
    lowest 16 bits are equal, and [score] counts no match in that round:
    [lower_bits] returns the unpadded string ["1"] for the first value and
    sixteen characters for the second. *)
Theorem score_misses_short_value :
  let '(gen_a, gen_b) := main_generators 1407677000 1602015417 in
  (∃ gen_a' gen_b',
      Generator.generate gen_a = Ok (1, gen_a')
      ∧ Generator.generate gen_b = Ok (65537, gen_b')
      ∧ score gen_a gen_b 1 = Ok (0, gen_a', gen_b'))
  ∧ low16 1 = low16 65537
  ∧ lower_bits 1 16 ≠ lower_bits 65537 16
  ∧ matching_rounds 1 gen_a gen_b = Ok 1.
Proof.
  split_and!; [do 2 eexists; split_and!; vm_compute; reflexivity
              |reflexivity|discriminate|vm_compute; reflexivity].
Qed.
End Score.

(** ** Lists of references *)

Section ListFacts.
Context {A : Type}.
Implicit Types (l k : list A).

Lemma filter_ext_elem (P Q : A → Prop)
    `{!∀ x, Decision (P x), !∀ x, Decision (Q x)} l :
  (∀ x, x ∈ l → P x ↔ Q x) → filter P l = filter Q l.
Proof.
  induction l as [|a l IH]; intros HPQ; [done|].
  rewrite !filter_cons, IH by (intros; apply HPQ; by right).
  apply decide_ext, HPQ. by left.
Qed.

Lemma filter_all (P : A → Prop) `{!∀ x, Decision (P x)} l :
  (∀ x, x ∈ l → P x) → filter P l = l.
Proof.
  induction l as [|a l IH]; intros HP; [done|].
  rewrite filter_cons, decide_True by (apply HP; by left).
  f_equal. apply IH. intros; apply HP; by right.
Qed.

Lemma filter_none (P : A → Prop) `{!∀ x, Decision (P x)} l :
  (∀ x, x ∈ l → ¬ P x) → filter P l = [].
Proof.
  induction l as [|a l IH]; intros HP; [done|].
  rewrite filter_cons, decide_False by (apply HP; by left).
  apply IH. intros; apply HP; by right.
Qed.

(** A sublist of a list without repetition is what membership selects. *)
Lemma sublist_filter_elem `{!EqDecision A} k l :
  k `sublist_of` l → NoDup l → k = filter (λ x, x ∈ k) l.
Proof.
  induction 1 as [|x k l Hsub IH|x k l Hsub IH]; intros Hnd; [done| |].
  - apply NoDup_cons in Hnd as [Hx Hnd].
    rewrite filter_cons, decide_True by by left. f_equal.
    rewrite (IH Hnd) at 1. apply filter_ext_elem.
    intros y Hy. rewrite elem_of_cons. split; [by right|].
    intros [->|?]; done.
  - apply NoDup_cons in Hnd as [Hx Hnd].
    rewrite filter_cons, decide_False; [by apply IH|].
    intros Hin. apply Hx. by eapply elem_of_sublist.
Qed.

Lemma two_elements l (a b : A) : a ∈ l → b ∈ l → a ≠ b → 2 ≤ length l.
Proof.
  destruct l as [|x [|y l]]; cbn; [by intros ?%elem_of_nil| |lia].
  intros ->%list_elem_of_singleton ->%list_elem_of_singleton. done.
Qed.

Lemma at_most_one l (a : A) :
  NoDup l → (∀ x, x ∈ l → x = a) → length l < 2.
Proof.
  destruct l as [|x [|y l]]; cbn; [lia|lia|].
  intros Hnd Hall. apply NoDup_cons in Hnd as [Hx _].
  destruct Hx. rewrite (Hall x), (Hall y); [by left|right; by left|by left].
Qed.

Lemma foldl_permutation {B : Type} (f : B → A → B) l k :
  (∀ b x y, f (f b x) y = f (f b y) x) →
  l ≡ₚ k → ∀ b, foldl f b l = foldl f b k.
Proof.
  intros Hf. induction 1 as [|x l k _ IH|x y l|l k m _ IH1 _ IH2]; intros b; cbn.
  - done.
  - apply IH.
  - by rewrite Hf.
  - by rewrite IH1.
Qed.
End ListFacts.

Section Remove.
Implicit Types (l cs : list loc) (x : loc).

Lemma list_remove_elem x l :
  x ∈ l →
  ∃ l1 l2, l = l1 ++ x :: l2 ∧ (x ∉ l1) ∧ list_remove x l = Ok (l1 ++ l2).
Proof.
  induction l as [|y l IH]; [by intros ?%elem_of_nil|].
  intros Hin. cbn. destruct (decide (y = x)) as [->|Hne].
  - exists [], l. split_and!; [done|apply not_elem_of_nil|done].
  - apply elem_of_cons in Hin as [->|Hin]; [done|].
    destruct (IH Hin) as (l1 & l2 & -> & Hx & ->).
    exists (y :: l1), l2. split_and!; [done| |done].
    rewrite elem_of_cons. intros [?|?]; [congruence|done].
Qed.

Lemma list_remove_Ok x l l' :
  list_remove x l = Ok l' → l ≡ₚ x :: l' ∧ l' `sublist_of` l.
Proof.
  revert l'. induction l as [|y l IH]; intros l'; cbn; [done|].
  destruct (decide (y = x)) as [->|Hne].
  - intros [= <-]. split; [done|]. by apply sublist_cons.
  - destruct (list_remove x l) as [l''| | |] eqn:Hrem; cbn; try done.
    intros [= <-]. destruct (IH l'' eq_refl) as [Hperm Hsub]. split.
    + by rewrite Hperm, Permutation_swap.
    + by apply sublist_skip.
Qed.

(** Removing, one after the other, elements that the list holds never
    raises. *)
Lemma remove_each_submseteq cs l :
  cs ⊆+ l →
  ∃ l', remove_each cs l = Ok l' ∧ l ≡ₚ cs ++ l' ∧ l' `sublist_of` l.
Proof.
  revert l. induction cs as [|c cs IH]; intros l Hsub; cbn.
  - by exists l.
  - assert (c ∈ l) as Hc by (eapply elem_of_submseteq; [by left|done]).
    destruct (list_remove_elem c l Hc) as (l1 & l2 & -> & _ & ->). cbn.
    destruct (IH (l1 ++ l2)) as (l' & -> & Hperm & Hsubl).
    { apply (submseteq_app_inv_l _ _ [c]). cbn.
      by rewrite Hsub, Permutation_middle. }
    exists l'. split_and!; [done| |].
    + by rewrite <- Permutation_middle, Hperm.
    + etrans; [done|]. apply sublist_app; [done|]. by apply sublist_cons.
Qed.
End Remove.

(** ** [destroy_colliding]: it returns, and what a pass does *)

Section Destroy.
Context (h : heap).
Implicit Types (sys : list loc) (l p : loc).

Lemma collides_irrefl p : ¬ ParticleSystem.collides h p p.
Proof. by intros [_ ?]. Qed.

Lemma elem_of_get_colliders sys p x :
  x ∈ ParticleSystem.get_colliders h sys p
  ↔ ParticleSystem.collides h x p ∧ x ∈ sys.
Proof. unfold ParticleSystem.get_colliders. by rewrite list_elem_of_filter. Qed.

(** The body of the branch never raises: the colliders were read from the
    list, and the particle is none of them. *)
Lemma strike_total sys p :
  p ∈ sys →
  ∃ sys',
    (sys1 ← list_remove p sys;
     remove_each (ParticleSystem.get_colliders h sys p) sys1) = Ok sys'.
Proof.
  intros Hp. destruct (list_remove_elem p sys Hp) as (l1 & l2 & -> & _ & ->).
  cbn. destruct (remove_each_submseteq
    (ParticleSystem.get_colliders h (l1 ++ p :: l2) p) (l1 ++ l2)) as (l' & -> & _).
  - unfold ParticleSystem.get_colliders.
    rewrite filter_app, filter_cons, decide_False by apply collides_irrefl.
    rewrite <- filter_app. apply sublist_submseteq, sublist_filter.
  - by exists l'.
Qed.

Lemma strike_Ok sys p sys' :
  (sys1 ← list_remove p sys;
   remove_each (ParticleSystem.get_colliders h sys p) sys1) = Ok sys' →
  sys ≡ₚ p :: ParticleSystem.get_colliders h sys p ++ sys'
  ∧ sys' `sublist_of` sys.
Proof.
  destruct (list_remove p sys) as [sys1| | |] eqn:Hrem; cbn; try done.
  apply list_remove_Ok in Hrem as [Hperm Hsub]. intros Heach.
  assert (ParticleSystem.get_colliders h sys p ⊆+ sys1) as Hcs.
  { apply (submseteq_app_inv_l _ _ [p]). cbn. rewrite <- Hperm.
    apply submseteq_cons_l. exists sys1. split; [done|].
    unfold ParticleSystem.get_colliders. rewrite Hperm, filter_cons,
      decide_False by apply collides_irrefl.
    apply sublist_submseteq, sublist_filter. }
  destruct (remove_each_submseteq _ _ Hcs) as (l' & Hl' & Hperm' & Hsub').
  rewrite Hl' in Heach. injection Heach as <-. split.
  - etrans; [apply Hperm|]. by apply Permutation_skip.
  - by etrans.
Qed.

Lemma struck_sublist sys sys' : struck h sys sys' → sys' `sublist_of` sys.
Proof. intros (p & _ & _ & Hs). by apply strike_Ok in Hs as [_ ?]. Qed.

Lemma struck_length sys sys' :
  struck h sys sys' → length sys' + 2 ≤ length sys.
Proof.
  intros (p & _ & Hne & Hs). apply strike_Ok in Hs as [Hperm _].
  rewrite Hperm. cbn. rewrite length_app.
  destruct (ParticleSystem.get_colliders h sys p); [done|cbn; lia].
Qed.

Lemma strikes_sublist sys sys' :
  rtc (struck h) sys sys' → sys' `sublist_of` sys.
Proof.
  induction 1 as [|???? IH]; [done|]. etrans; [done|]. by apply struck_sublist.
Qed.

Lemma scan_done_false fuel i sys sys' done' :
  ParticleSystem.scan fuel h i sys false = Ok (sys', done') → done' = false.
Proof.
  revert i sys. induction fuel as [|fuel IH]; intros i sys; cbn;
    destruct (sys !! i) as [p|]; try done; try by intros [= _ <-].
  destruct (ParticleSystem.get_colliders h sys p) as [|c cs]; [apply IH|].
  destruct (list_remove p sys) as [sys1| | |]; cbn -[remove_each]; try done.
  destruct (remove_each (c :: cs) sys1) as [sys2| | |]; cbn; try done. apply IH.
Qed.

(** A run of the [for] loop returns when the fuel covers the indices that
    are left; it is a sequence of strikes; the flag stays [True] only when
    the run went through the list without finding a collider. *)
Lemma scan_spec fuel i sys done :
  length sys ≤ fuel + i →
  ∃ sys' done',
    ParticleSystem.scan fuel h i sys done = Ok (sys', done')
    ∧ rtc (struck h) sys sys'
    ∧ (done' = true → done = true ∧ sys' = sys ∧ quiet_from h i sys)
    ∧ (done' = false → done = false ∨ length sys' + 2 ≤ length sys).
Proof.
  revert i sys done. induction fuel as [|fuel IH]; intros i sys done Hfuel.
  - exists sys, done. assert (sys !! i = None) as Hi by (apply lookup_ge_None; lia).
    cbn. rewrite Hi. split_and!; [done|done| |auto].
    intros ->. split_and!; [done|done|]. intros j p ? Hj.
    apply lookup_lt_Some in Hj. lia.
  - cbn. destruct (sys !! i) as [p|] eqn:Hi.
    2:{ exists sys, done. split_and!; [done|done| |auto].
        intros ->. split_and!; [done|done|]. intros j p ? Hj.
        apply lookup_ge_None in Hi. apply lookup_lt_Some in Hj. lia. }
    destruct (ParticleSystem.get_colliders h sys p) as [|c cs] eqn:Hcs.
    + destruct (IH (S i) sys done) as (sys' & done' & Hscan & Hrtc & Htrue & Hfalse);
        [lia|].
      exists sys', done'. split_and!; [done|done| |done].
      intros Hd. destruct (Htrue Hd) as (-> & -> & Hquiet).
      split_and!; [done|done|]. intros j q Hj Hq.
      destruct (decide (j = i)) as [->|]; [congruence|]. apply (Hquiet j); [lia|done].
    + assert (p ∈ sys) as Hp by (by eapply list_elem_of_lookup_2).
      destruct (strike_total sys p Hp) as (sys2 & Hstrike).
      assert (struck h sys sys2) as Hstruck.
      { exists p. split_and!; [done|by rewrite Hcs|done]. }
      rewrite Hcs in Hstrike.
      destruct (list_remove p sys) as [sys1| | |]; cbn -[remove_each] in Hstrike |- *;
        try done.
      rewrite Hstrike. cbn.
      pose proof (struck_length _ _ Hstruck).
      destruct (IH (S i) sys2 false) as (sys' & done' & Hscan & Hrtc & _ & _);
        [lia|].
      exists sys', done'. pose proof (scan_done_false _ _ _ _ _ Hscan) as ->.
      split_and!; [done|by eapply rtc_l|done|].
      intros _. right. apply strikes_sublist, sublist_length in Hrtc. lia.
Qed.

(** The [while] loop returns when the fuel covers half of the list, after
    at most that many runs plus one; what it returns is quiet. *)
Lemma rescan_spec fuel sys :
  length sys < 2 * fuel →
  ∃ sys' k,
    ParticleSystem.rescan fuel h sys = Ok (sys', k)
    ∧ rtc (struck h) sys sys'
    ∧ quiet_from h 0 sys'
    ∧ 1 ≤ k ∧ 2 * (k - 1) + length sys' ≤ length sys.
Proof.
  revert sys. induction fuel as [|fuel IH]; intros sys Hfuel; [lia|].
  cbn. destruct (scan_spec (length sys) 0 sys true)
    as (sys1 & done & -> & Hrtc & Htrue & Hfalse); [lia|].
  cbn. destruct done.
  - destruct Htrue as (_ & -> & Hquiet); [done|].
    exists sys, 1. split_and!; [done|done|done|lia|lia].
  - destruct Hfalse as [?|Hlen]; [done|done|].
    destruct (IH sys1) as (sys' & k & -> & Hrtc' & Hquiet & Hk & Hlen'); [lia|].
    exists sys', (S k). cbn. split_and!; [done|by etrans|done|lia|lia].
Qed.

Lemma rescan_fuel_mono fuel fuel' sys r :
  fuel ≤ fuel' → ParticleSystem.rescan fuel h sys = Ok r →
  ParticleSystem.rescan fuel' h sys = Ok r.
Proof.
  revert fuel' sys r. induction fuel as [|fuel IH]; intros fuel' sys r Hle; [done|].
  destruct fuel' as [|fuel']; [lia|]. cbn.
  destruct (ParticleSystem.scan _ h 0 sys true) as [[sys1 []]| | |]; cbn; try done.
  destruct (ParticleSystem.rescan fuel h sys1) as [[sys2 k]| | |] eqn:Hre; cbn; try done.
  rewrite (IH fuel' sys1 (sys2, k)); [done|lia|done].
Qed.

Lemma destroy_loop_spec sys :
  ∃ sys' k,
    ParticleSystem.destroy_loop h sys = Ok (sys', k)
    ∧ rtc (struck h) sys sys'
    ∧ quiet_from h 0 sys'
    ∧ 1 ≤ k ∧ 2 * (k - 1) + length sys' ≤ length sys.
Proof. apply rescan_spec. lia. Qed.
End Destroy.

(** ** [destroy_colliding]: which particles go *)

Section Survivors.
Context (h : heap).
Implicit Types (sys : list loc) (l p : loc).

(** The mapping of the one-pass resolution holds, at each position, the
    particles of the collection at that position. *)
Lemma position_groups_lookup sys (v : vec3) :
  default [] (position_groups h sys !! v) = filter (λ l, pos_of h l = v) sys.
Proof.
  induction sys as [|x sys IH]; [done|].
  cbn [position_groups foldr]. fold (position_groups h sys).
  rewrite filter_cons. destruct (decide (pos_of h x = v)) as [<-|Hne].
  - by rewrite lookup_insert_eq, IH.
  - by rewrite lookup_insert_ne.
Qed.

Lemma group_size_filter sys l :
  group_size h sys l = length (filter (λ l', pos_of h l' = pos_of h l) sys).
Proof. unfold group_size. by rewrite position_groups_lookup. Qed.

Lemma unique_ids_NoDup sys : unique_ids h sys → NoDup sys.
Proof. apply NoDup_fmap_1. Qed.

Lemma unique_ids_inj sys a b :
  unique_ids h sys → a ∈ sys → b ∈ sys → id_of h a = id_of h b → a = b.
Proof.
  intros Hnd [i Hi]%list_elem_of_lookup [j Hj]%list_elem_of_lookup Hid.
  assert (i = j) as ->; [|congruence].
  eapply NoDup_lookup; [exact Hnd| |]; rewrite list_lookup_fmap.
  - by rewrite Hi.
  - by rewrite Hj, Hid.
Qed.

Lemma unique_ids_sublist sys sys' :
  sys' `sublist_of` sys → unique_ids h sys → unique_ids h sys'.
Proof. intros Hsub Hnd. eapply sublist_NoDup; [done|]. by apply fmap_sublist. Qed.

Lemma unique_ids_strikes sys sys' :
  rtc (struck h) sys sys' → unique_ids h sys → unique_ids h sys'.
Proof. intros Hrtc. apply unique_ids_sublist. by apply (strikes_sublist h). Qed.

(** In a collection that is unique by id the colliders of a particle are
    the other particles at its position. *)
Lemma collides_unique sys x p :
  unique_ids h sys → x ∈ sys → p ∈ sys →
  ParticleSystem.collides h x p ↔ pos_of h x = pos_of h p ∧ x ≠ p.
Proof.
  intros Hnd Hx Hp. unfold ParticleSystem.collides, pos_of. split.
  - intros [? Hid]. split; [done|]. by intros ->.
  - intros [? Hne]. split; [done|]. intros Hid. apply Hne.
    by eapply unique_ids_inj.
Qed.

Lemma alone_group_size sys l :
  unique_ids h sys → l ∈ sys → alone h sys l ↔ group_size h sys l < 2.
Proof.
  intros Hnd Hl. rewrite group_size_filter. split.
  - intros Halone. apply (at_most_one _ l).
    + by apply NoDup_filter, unique_ids_NoDup.
    + intros x [Hpos Hx]%list_elem_of_filter.
      destruct (decide (x = l)) as [|Hne]; [done|]. by destruct (Halone x Hx Hne).
  - intros Hlt l' Hl' Hne Hpos.
    assert (2 ≤ length (filter (λ l', pos_of h l' = pos_of h l) sys)); [|lia].
    apply (two_elements _ l' l); [| |done]; by apply list_elem_of_filter.
Qed.

(** A strike in a collection that is unique by id takes out the whole
    group at the position of the particle, and that group has two members
    or more. *)
Lemma struck_unique sys sys' :
  unique_ids h sys → struck h sys sys' →
  ∃ p, p ∈ sys ∧ ¬ alone h sys p
    ∧ sys' = filter (λ x, pos_of h x ≠ pos_of h p) sys.
Proof.
  intros Hnd (p & Hp & Hcs & Hstrike). exists p.
  apply strike_Ok in Hstrike as [Hperm Hsub]. split_and!; [done| |].
  - intros Halone.
    destruct (ParticleSystem.get_colliders h sys p) as [|c cs] eqn:Hc; [done|].
    assert (c ∈ ParticleSystem.get_colliders h sys p) as Hin by (rewrite Hc; by left).
    apply elem_of_get_colliders in Hin as [Hcol Hcin].
    apply (collides_unique sys) in Hcol as [Hpos Hne]; [|done..].
    by destruct (Halone c Hcin Hne).
  - pose proof (unique_ids_NoDup _ Hnd) as Hnd'.
    rewrite (sublist_filter_elem sys' sys Hsub Hnd').
    apply filter_ext_elem. intros x Hx.
    assert (NoDup (p :: ParticleSystem.get_colliders h sys p ++ sys')) as Hnd''
      by by rewrite <- Hperm.
    apply NoDup_cons in Hnd'' as [Hp' Hnd''].
    apply NoDup_app in Hnd'' as (_ & Hdisj & _).
    rewrite elem_of_app in Hp'. split.
    + intros Hx' Hpos. destruct (decide (x = p)) as [->|Hne]; [tauto|].
      apply (Hdisj x); [|done]. apply elem_of_get_colliders. split; [|done].
      by apply (collides_unique sys).
    + intros Hpos. rewrite Hperm in Hx.
      apply elem_of_cons in Hx as [->|Hx]; [done|].
      apply elem_of_app in Hx as [Hx|Hx]; [|done].
      apply elem_of_get_colliders in Hx as [[? _] _]. done.
Qed.

(** Taking out a whole group of two or more leaves the survivors of the
    one-pass resolution as they were. *)
Lemma one_pass_survivors_struck sys sys' :
  unique_ids h sys → struck h sys sys' →
  one_pass_survivors h sys' = one_pass_survivors h sys.
Proof.
  intros Hnd Hstruck.
  destruct (struck_unique _ _ Hnd Hstruck) as (p & Hp & Hcrowd & ->).
  unfold one_pass_survivors. rewrite list_filter_filter.
  apply filter_ext_elem. intros x Hx. rewrite !group_size_filter.
  assert (pos_of h x ≠ pos_of h p →
          filter (λ l', pos_of h l' = pos_of h x)
                 (filter (λ x0, pos_of h x0 ≠ pos_of h p) sys)
          = filter (λ l', pos_of h l' = pos_of h x) sys) as Hsame.
  { intros Hpos. apply list_filter_filter_l. intros y. congruence. }
  split.
  - intros [Hlt Hpos]. by rewrite <- Hsame.
  - intros Hlt. assert (pos_of h x ≠ pos_of h p) as Hpos.
    { intros Hpos. apply Hcrowd. apply alone_group_size; [done..|].
      rewrite group_size_filter, <- Hpos. done. }
    split; [|done]. by rewrite Hsame.
Qed.

Lemma one_pass_survivors_strikes sys sys' :
  unique_ids h sys → rtc (struck h) sys sys' →
  one_pass_survivors h sys' = one_pass_survivors h sys.
Proof.
  intros Hnd Hrtc. induction Hrtc as [|sys sys1 sys' Hstruck _ IH]; [done|].
  rewrite IH; [by apply one_pass_survivors_struck|].
  eapply unique_ids_sublist; [by apply (struck_sublist h)|done].
Qed.

(** A quiet collection is its own set of survivors. *)
Lemma one_pass_survivors_quiet sys :
  unique_ids h sys → quiet_from h 0 sys → one_pass_survivors h sys = sys.
Proof.
  intros Hnd Hquiet. apply filter_all. intros x Hx.
  apply alone_group_size; [done..|]. intros l' Hl' Hne Hpos.
  apply list_elem_of_lookup in Hx as [j Hj].
  assert (l' ∈ ParticleSystem.get_colliders h sys x) as Hin.
  { apply elem_of_get_colliders. split; [|done].
    apply (collides_unique sys); [done|done|by eapply list_elem_of_lookup_2|done]. }
  rewrite (Hquiet j x) in Hin; [by apply elem_of_nil in Hin|lia|done].
Qed.

(** On a collection that is unique by id the loop returns the survivors of
    the one-pass resolution, in their storage order. *)
Lemma destroy_loop_unique sys :
  unique_ids h sys →
  ∃ k, ParticleSystem.destroy_loop h sys = Ok (one_pass_survivors h sys, k).
Proof.
  intros Hnd.
  destruct (destroy_loop_spec h sys) as (sys' & k & Hloop & Hrtc & Hquiet & _).
  exists k. rewrite Hloop. do 2 f_equal.
  rewrite <- (one_pass_survivors_strikes sys sys') by done.
  symmetry. apply one_pass_survivors_quiet; [|done]. by eapply unique_ids_strikes.
Qed.

Lemma elem_of_one_pass_survivors sys l :
  unique_ids h sys →
  l ∈ one_pass_survivors h sys ↔ l ∈ sys ∧ alone h sys l.
Proof.
  intros Hnd. unfold one_pass_survivors. rewrite list_elem_of_filter.
  split.
  - intros [Hlt Hl]. split; [done|]. by apply alone_group_size.
  - intros [Hl Ha]. split; [|done]. by apply alone_group_size.
Qed.
End Survivors.

(** ** [destroy_colliding]: the claims *)

Section DestroyClaims.
Context (h : heap).
Implicit Types (sys : list loc) (l p : loc).

Lemma struck_alone sys sys' l :
  struck h sys sys' → l ∈ sys → alone h sys l → l ∈ sys'.
Proof.
  intros (p & Hp & Hcs & Hstrike) Hl Halone.
  apply strike_Ok in Hstrike as [Hperm _].
  rewrite Hperm in Hl. apply elem_of_cons in Hl as [->|Hl].
  - destruct (ParticleSystem.get_colliders h sys p) as [|c cs] eqn:Hc; [done|].
    assert (c ∈ ParticleSystem.get_colliders h sys p) as Hin by (rewrite Hc; by left).
    apply elem_of_get_colliders in Hin as [[Hpos Hid] Hcin].
    destruct (Halone c Hcin); [by intros ->|done].
  - apply elem_of_app in Hl as [Hl|Hl]; [|done].
    apply elem_of_get_colliders in Hl as [[Hpos Hid] _].
    destruct (Halone p Hp); [by intros ->|done].
Qed.

Lemma alone_sublist sys sys' l :
  sys' `sublist_of` sys → alone h sys l → alone h sys' l.
Proof. intros Hsub Halone l' Hl'. apply Halone. by eapply elem_of_sublist. Qed.

Lemma strikes_alone sys sys' l :
  rtc (struck h) sys sys' → l ∈ sys → alone h sys l → l ∈ sys'.
Proof.
  induction 1 as [|sys sys1 sys' Hstruck _ IH]; [done|]. intros Hl Halone.
  apply IH; [by eapply struck_alone|].
  eapply alone_sublist; [by apply (struck_sublist h)|done].
Qed.

Lemma strikes_quiet sys sys' :
  rtc (struck h) sys sys' → quiet_from h 0 sys → sys' = sys.
Proof.
  destruct 1 as [|sys sys1 sys' (p & Hp & Hcs & _) _]; [done|]. intros Hquiet.
  apply list_elem_of_lookup in Hp as [j Hj]. destruct Hcs.
  apply (Hquiet j); [lia|done].
Qed.

Lemma distinct_positions_quiet sys :
  distinct_positions h sys → quiet_from h 0 sys.
Proof.
  intros Hdist j p _ Hj. apply filter_none.
  intros x [i Hi]%list_elem_of_lookup [Hpos Hid].
  destruct (decide (i = j)) as [->|Hne]; [|by destruct (Hdist i j x p)].
  rewrite Hj in Hi. by simplify_eq.
Qed.

Lemma destroy_colliding_loop (s : ParticleSystem.t) sys' k :
  ParticleSystem.destroy_loop h (ParticleSystem.system s) = Ok (sys', k) →
  ParticleSystem.destroy_colliding s h
  = Ok (ParticleSystem.mk sys' (ParticleSystem._initial s) (ParticleSystem.time s)).
Proof. unfold ParticleSystem.destroy_colliding. by intros ->. Qed.

(** C10. [destroy_colliding] returns on every collection, and never
    raises.  A run of its [for] loop either leaves the flag [done] set,
    the list as it was and no particle with a collider, or takes at least
    two particles out; so the body of the [while] runs at most half the
    size of the collection plus one times, and that much fuel is enough
    for the model. *)
Theorem destroy_colliding_terminates sys :
  (∃ sys' k,
      ParticleSystem.destroy_loop h sys = Ok (sys', k)
      ∧ ParticleSystem.rescan (length sys / 2 + 1) h sys = Ok (sys', k)
      ∧ 1 ≤ k ≤ length sys / 2 + 1)
  ∧ (∃ sys1 done,
      ParticleSystem.scan (length sys) h 0 sys true = Ok (sys1, done)
      ∧ (done = true → sys1 = sys ∧ quiet_from h 0 sys)
      ∧ (done = false → length sys1 + 2 ≤ length sys))
  ∧ (∀ initial time,
      is_ok (ParticleSystem.destroy_colliding
               (ParticleSystem.mk sys initial time) h)).
Proof.
  pose proof (Nat.div_mod_eq (length sys) 2) as Hdiv.
  pose proof (Nat.mod_upper_bound (length sys) 2) as Hmod.
  destruct (rescan_spec h (length sys / 2 + 1) sys)
    as (sys' & k & Hre & _ & _ & Hk & Hlen); [lia|].
  assert (ParticleSystem.destroy_loop h sys = Ok (sys', k)) as Hloop.
  { eapply rescan_fuel_mono; [|done]. lia. }
  split_and!.
  - exists sys', k. split_and!; [done|done|lia|lia].
  - destruct (scan_spec h (length sys) 0 sys true)
      as (sys1 & done & Hscan & _ & Htrue & Hfalse); [lia|].
    exists sys1, done. split_and!; [done| |].
    + intros Hd. by destruct (Htrue Hd) as (_ & ? & ?).
    + intros Hd. by destruct (Hfalse Hd).
  - intros initial time.
    by rewrite (destroy_colliding_loop (ParticleSystem.mk sys initial time) sys' k).
Qed.

(** C6. [destroy_colliding] keeps every particle whose position no other
    particle of the collection has, and when no two particles share a
    position it returns the collection as it was, after one run of the
    loop. *)
Theorem destroy_colliding_no_false_collisions sys :
  ∃ sys' k,
    ParticleSystem.destroy_loop h sys = Ok (sys', k)
    ∧ (∀ l, l ∈ sys → alone h sys l → l ∈ sys')
    ∧ (distinct_positions h sys → sys' = sys ∧ k = 1)
    ∧ (∀ s, ParticleSystem.system s = sys → distinct_positions h sys →
         ParticleSystem.destroy_colliding s h = Ok s).
Proof.
  destruct (destroy_loop_spec h sys) as (sys' & k & Hloop & Hrtc & Hquiet & Hk & Hlen).
  assert (distinct_positions h sys → sys' = sys ∧ k = 1) as Hsame.
  { intros Hdist.
    pose proof (strikes_quiet _ _ Hrtc (distinct_positions_quiet _ Hdist)) as ->.
    split; [done|lia]. }
  exists sys', k. split_and!; [done| |done|].
  - intros l. by apply strikes_alone.
  - intros [sys0 initial time]. cbn [ParticleSystem.system]. intros -> Hdist.
    destruct (Hsame Hdist) as [-> ->].
    by rewrite (destroy_colliding_loop (ParticleSystem.mk sys initial time) sys 1).
Qed.

(** C2. On a collection that is unique by id [destroy_colliding] removes
    the particles that share their position with another particle of the
    collection, all of them, and no other: what the rescanning loop leaves
    is the list of survivors of the one-pass grouping by position key, in
    the same order, hence the same multiset. *)
Theorem destroy_colliding_removes_groups sys :
  unique_ids h sys →
  (∃ k, ParticleSystem.destroy_loop h sys = Ok (one_pass_survivors h sys, k))
  ∧ (∀ initial time,
       ParticleSystem.destroy_colliding (ParticleSystem.mk sys initial time) h
       = Ok (ParticleSystem.mk (one_pass_survivors h sys) initial time))
  ∧ (∀ l, l ∈ one_pass_survivors h sys
          ↔ l ∈ sys ∧ ¬ ∃ l', l' ∈ sys ∧ l' ≠ l ∧ pos_of h l' = pos_of h l)
  ∧ (∀ l, group_size h sys l
          = length (filter (λ l', pos_of h l' = pos_of h l) sys)).
Proof.
  intros Hnd. destruct (destroy_loop_unique h sys Hnd) as [k Hloop].
  split_and!.
  - by exists k.
  - intros initial time.
    by apply (destroy_colliding_loop (ParticleSystem.mk sys initial time) _ k).
  - intros l. rewrite elem_of_one_pass_survivors by done. unfold alone.
    split; intros [Hl Halone]; (split; [done|]).
    + intros (l' & Hl' & Hne & Hpos). by destruct (Halone l' Hl' Hne).
    + intros l' Hl' Hne Hpos. apply Halone. by exists l'.
  - apply group_size_filter.
Qed.
End DestroyClaims.

(** Three particles at one position and one elsewhere: the three go. *)
Lemma destroy_colliding_removes_groups_witness :
  let at_ (i x : Z) := Particle.mk i (Vec3 x 0 0) (Vec3 0 0 0) (Vec3 0 0 0) in
  let h := [at_ 0 7; at_ 1 7; at_ 2 5; at_ 3 7]%Z in
  unique_ids h [0; 1; 2; 3]
  ∧ ∃ k, ParticleSystem.destroy_loop h [0; 1; 2; 3] = Ok ([2], k).
Proof.
  intros at_ h. assert (unique_ids h [0; 1; 2; 3]) as Hnd.
  { refine (bool_decide_unpack _ _). vm_compute. exact I. }
  split; [exact Hnd|].
  exact (proj1 (destroy_colliding_removes_groups h [0; 1; 2; 3] Hnd)).
Defined.

(** Particles at three distinct positions: nothing goes. *)
Lemma destroy_colliding_no_false_collisions_witness :
  let at_ (i x : Z) := Particle.mk i (Vec3 x 0 0) (Vec3 0 0 0) (Vec3 0 0 0) in
  let h := [at_ 0 7; at_ 1 8; at_ 2 5]%Z in
  ∃ sys' k, ParticleSystem.destroy_loop h [0; 1; 2] = Ok (sys', k)
    ∧ (∀ l, l ∈ [0; 1; 2] → alone h [0; 1; 2] l → l ∈ sys').
Proof.
  intros at_ h.
  destruct (destroy_colliding_no_false_collisions h [0; 1; 2])
    as (sys' & k & Hloop & Hkeep & _).
  by exists sys', k.
Defined.

(** ** The storage order *)

Section StorageOrder.
Implicit Types (h : heap) (sys : list loc) (l : loc).

Lemma id_of_Particle_update h x dt l :
  id_of (Particle_update x dt h) l = id_of h l.
Proof.
  unfold id_of, deref, Particle_update. rewrite list_lookup_alter.
  destruct (decide (x = l)) as [->|]; [|done]. by destruct (h !! l).
Qed.

Lemma id_of_update_all h dt sys l :
  id_of (foldl (λ h' particle, Particle_update particle dt h') h sys) l
  = id_of h l.
Proof.
  revert h. induction sys as [|x sys IH]; intros h; [done|].
  cbn. by rewrite IH, id_of_Particle_update.
Qed.

Lemma unique_ids_update h dt (s : ParticleSystem.t) sys :
  unique_ids h sys →
  unique_ids (ParticleSystem._update_without_collisions dt s h) sys.
Proof.
  unfold unique_ids, ParticleSystem._update_without_collisions.
  intros Hnd. erewrite list_fmap_ext; [exact Hnd|].
  intros ? l _. apply id_of_update_all.
Qed.

Lemma unique_ids_perm h sys sys' :
  sys ≡ₚ sys' → unique_ids h sys → unique_ids h sys'.
Proof. unfold unique_ids. by intros ->. Qed.

Lemma Particle_update_comm dt h x y :
  Particle_update y dt (Particle_update x dt h)
  = Particle_update x dt (Particle_update y dt h).
Proof.
  unfold Particle_update. destruct (decide (y = x)) as [->|]; [done|].
  by apply list_alter_alter_ne.
Qed.

(** The particles are moved one by one; the heap that results does not
    depend on the order. *)
Lemma update_all_perm dt h sys sys' initial initial' time time' :
  sys ≡ₚ sys' →
  ParticleSystem._update_without_collisions dt
    (ParticleSystem.mk sys initial time) h
  = ParticleSystem._update_without_collisions dt
      (ParticleSystem.mk sys' initial' time') h.
Proof.
  intros Hperm. unfold ParticleSystem._update_without_collisions. cbn.
  apply foldl_permutation; [|done]. intros. apply Particle_update_comm.
Qed.

Lemma group_size_perm h sys sys' l :
  sys ≡ₚ sys' → group_size h sys l = group_size h sys' l.
Proof. intros Hperm. rewrite !group_size_filter. by rewrite Hperm. Qed.

Lemma one_pass_survivors_perm h sys sys' :
  sys ≡ₚ sys' → one_pass_survivors h sys ≡ₚ one_pass_survivors h sys'.
Proof.
  intros Hperm. unfold one_pass_survivors.
  etrans; [by apply filter_Permutation|].
  erewrite filter_ext_elem; [done|].
  intros l _. by rewrite (group_size_perm h sys sys').
Qed.

Lemma one_pass_survivors_unique h sys :
  unique_ids h sys → unique_ids h (one_pass_survivors h sys).
Proof. apply unique_ids_sublist, sublist_filter. Qed.

(** Collision-aware steps from two storage orders of one collection. *)
Lemma collision_steps_perm n h sys sys' initial time :
  unique_ids h sys → sys ≡ₚ sys' →
  ∃ h1 s1 s1',
    ParticleSystem.collision_steps n (ParticleSystem.mk sys initial time) h
    = Ok (h1, s1)
    ∧ ParticleSystem.collision_steps n (ParticleSystem.mk sys' initial time) h
      = Ok (h1, s1')
    ∧ ParticleSystem.system s1 ≡ₚ ParticleSystem.system s1'
    ∧ unique_ids h1 (ParticleSystem.system s1).
Proof.
  revert h sys sys'. induction n as [|n IH]; intros h sys sys' Hnd Hperm.
  - eexists _, _, _. cbn. split_and!; done.
  - cbn [ParticleSystem.collision_steps].
    rewrite <- (update_all_perm 1 h sys sys' initial initial time time Hperm).
    set (h1 := ParticleSystem._update_without_collisions 1 _ h).
    assert (unique_ids h1 sys) as Hnd1 by by apply unique_ids_update.
    assert (unique_ids h1 sys') as Hnd1' by by eapply unique_ids_perm.
    destruct (destroy_loop_unique h1 sys Hnd1) as [k Hk].
    destruct (destroy_loop_unique h1 sys' Hnd1') as [k' Hk'].
    rewrite (destroy_colliding_loop h1 (ParticleSystem.mk sys initial time) _ k Hk).
    rewrite (destroy_colliding_loop h1 (ParticleSystem.mk sys' initial time) _ k' Hk').
    cbn. apply IH.
    + by apply one_pass_survivors_unique.
    + by apply one_pass_survivors_perm.
Qed.

(** C5. For a collection that is unique by id and any permutation of its
    storage order, [destroy_colliding] leaves the same particles: the two
    lists of survivors are permutations of each other, with the same set
    of ids and the same length; and so do collision-aware update steps,
    which leave the same heap as well. *)
Theorem survivors_independent_of_storage_order h sys sys' :
  unique_ids h sys → sys ≡ₚ sys' →
  (∃ r r' k k',
      ParticleSystem.destroy_loop h sys = Ok (r, k)
      ∧ ParticleSystem.destroy_loop h sys' = Ok (r', k')
      ∧ r ≡ₚ r'
      ∧ list_to_set (id_of h <$> r) =@{gset Z} list_to_set (id_of h <$> r')
      ∧ length r = length r')
  ∧ (∀ dt initial time,
      ∃ h1 s1 s1',
        ParticleSystem.update dt true (ParticleSystem.mk sys initial time) h
        = Ok (h1, s1)
        ∧ ParticleSystem.update dt true (ParticleSystem.mk sys' initial time) h
          = Ok (h1, s1')
        ∧ ParticleSystem.system s1 ≡ₚ ParticleSystem.system s1'
        ∧ list_to_set (id_of h1 <$> ParticleSystem.system s1)
          =@{gset Z} list_to_set (id_of h1 <$> ParticleSystem.system s1')
        ∧ ParticleSystem.__len__ s1 = ParticleSystem.__len__ s1').
Proof.
  intros Hnd Hperm. split.
  - destruct (destroy_loop_unique h sys Hnd) as [k Hk].
    destruct (destroy_loop_unique h sys') as [k' Hk']; [by eapply unique_ids_perm|].
    pose proof (one_pass_survivors_perm h sys sys' Hperm) as Hsurv.
    eexists _, _, k, k'. split_and!; [done|done|done| |].
    + by rewrite Hsurv.
    + by rewrite Hsurv.
  - intros dt initial time. cbn [ParticleSystem.update negb].
    unfold ParticleSystem._update_with_collisions.
    destruct (collision_steps_perm (Z.to_nat dt) h sys sys' initial time Hnd Hperm)
      as (h1 & s1 & s1' & Hs & Hs' & Hp & _).
    exists h1, s1, s1'. split_and!; [done|done|done| |].
    + by rewrite Hp.
    + unfold ParticleSystem.__len__. by rewrite Hp.
Qed.
End StorageOrder.

(** Three particles at one position, stored in two orders. *)
Lemma survivors_independent_of_storage_order_witness :
  let at_ (i x : Z) := Particle.mk i (Vec3 x 0 0) (Vec3 0 0 0) (Vec3 0 0 0) in
  let h := [at_ 0 7; at_ 1 7; at_ 2 5; at_ 3 7]%Z in
  unique_ids h [0; 1; 2; 3] ∧ [0; 1; 2; 3] ≡ₚ [3; 2; 0; 1]
  ∧ ∃ r r' k k',
      ParticleSystem.destroy_loop h [0; 1; 2; 3] = Ok (r, k)
      ∧ ParticleSystem.destroy_loop h [3; 2; 0; 1] = Ok (r', k')
      ∧ r ≡ₚ r'.
Proof.
  intros at_ h.
  assert (unique_ids h [0; 1; 2; 3]) as Hnd.
  { refine (bool_decide_unpack _ _). vm_compute. exact I. }
  assert ([0; 1; 2; 3] ≡ₚ [3; 2; 0; 1]) as Hperm.
  { refine (bool_decide_unpack _ _). vm_compute. exact I. }
  split; [exact Hnd|]. split; [exact Hperm|].
  destruct (survivors_independent_of_storage_order h _ _ Hnd Hperm)
    as [(r & r' & k & k' & Hr & Hr' & Hp & _) _].
  by exists r, r', k, k'.
Defined.

(** ** The heap: allocation, copies and updates *)

Section Heap.
Implicit Types (h k : heap) (sys : list loc) (l : loc).

Lemma filter_fmap {A B : Type} (f : A → B) (P : B → Prop)
    `{!∀ y, Decision (P y)} (l : list A) :
  filter P (f <$> l) = f <$> filter (λ x, P (f x)) l.
Proof.
  induction l as [|a l IH]; [done|].
  rewrite fmap_cons, !filter_cons, IH. by destruct (decide (P (f a))).
Qed.

Lemma deref_app_l h k l : l < length h → deref (h ++ k) l = deref h l.
Proof. intros Hl. unfold deref. by rewrite lookup_app_l. Qed.

Lemma deref_grown h k sys :
  allocated h sys → deref (h ++ k) <$> sys = deref h <$> sys.
Proof.
  intros Hall. apply list_fmap_ext. intros i l Hl.
  apply deref_app_l. by eapply (proj1 (Forall_lookup _ _) Hall).
Qed.

Lemma allocated_grown h k sys : allocated h sys → allocated (h ++ k) sys.
Proof.
  intros Hall. eapply Forall_impl; [done|]. intros l Hl. simpl in Hl |- *.
  rewrite length_app. lia.
Qed.

Lemma allocated_sublist h sys sys' :
  sys' `sublist_of` sys → allocated h sys → allocated h sys'.
Proof.
  unfold allocated. rewrite !Forall_forall. intros Hsub Hall l Hl.
  apply Hall. by eapply elem_of_sublist.
Qed.

Lemma unique_ids_values h h' sys sys' :
  deref h' <$> sys' = deref h <$> sys →
  unique_ids h sys → unique_ids h' sys'.
Proof.
  unfold unique_ids. intros Hvals.
  change (id_of h') with (Particle.id ∘ deref h').
  change (id_of h) with (Particle.id ∘ deref h).
  by rewrite !list_fmap_compose, Hvals.
Qed.

(** The copies read back as the values that were copied. *)
Lemma deref_copies h k :
  deref (h ++ k) <$> seq (length h) (length k) = k.
Proof.
  apply list_eq. intros i. rewrite list_lookup_fmap.
  destruct (decide (i < length k)) as [Hi|Hi].
  - rewrite lookup_seq_lt by done. cbn. unfold deref.
    rewrite lookup_app_r by lia.
    replace (length h + i - length h) with i by lia.
    by destruct (lookup_lt_is_Some_2 k i Hi) as [x ->].
  - rewrite (lookup_ge_None_2 k) by lia.
    by rewrite (lookup_ge_None_2 (seq _ _)) by (rewrite length_seq; lia).
Qed.

(** [deepcopy] of a list of distinct objects of the heap appends a copy of
    each, in order. *)
Lemma deepcopy_from_distinct memo sys h :
  NoDup sys → allocated h sys →
  (∀ l, l ∈ sys → memo_get memo l = None) →
  deepcopy_from memo sys h
  = (h ++ (deref h <$> sys), seq (length h) (length sys)).
Proof.
  revert memo h. induction sys as [|x sys IH]; intros memo h Hnd Hall Hmemo.
  - cbn. by rewrite app_nil_r.
  - apply NoDup_cons in Hnd as [Hx Hnd]. apply Forall_cons in Hall as [Hxh Hall].
    cbn [deepcopy_from alloc]. rewrite Hmemo by by left.
    rewrite (IH ((x, length h) :: memo) (h ++ [deref h x])); [|done|..].
    + rewrite (deref_grown h _ sys Hall), <- app_assoc, length_app. cbn.
      by rewrite Nat.add_1_r.
    + by apply allocated_grown.
    + intros l Hl. cbn. destruct (decide (x = l)) as [->|]; [done|].
      apply Hmemo. by right.
Qed.

Lemma deepcopy_distinct sys h :
  NoDup sys → allocated h sys →
  deepcopy sys h = (h ++ (deref h <$> sys), seq (length h) (length sys)).
Proof. intros. by apply deepcopy_from_distinct. Qed.

Lemma deref_Particle_update h x dt l :
  x < length h →
  deref (Particle_update x dt h) l
  = if decide (x = l) then Particle.update dt (deref h l) else deref h l.
Proof.
  intros Hx. unfold deref, Particle_update. rewrite list_lookup_alter.
  destruct (decide (x = l)) as [->|]; [|done].
  by destruct (lookup_lt_is_Some_2 h l Hx) as [p ->].
Qed.

Lemma length_update_all h dt sys :
  length (foldl (λ h' particle, Particle_update particle dt h') h sys)
  = length h.
Proof.
  revert h. induction sys as [|x sys IH]; intros h; [done|].
  cbn. rewrite IH. apply length_alter.
Qed.

(** Each particle of a list of distinct objects is moved once, and no
    other object changes. *)
Lemma deref_update_all h dt sys l :
  NoDup sys → allocated h sys →
  deref (foldl (λ h' particle, Particle_update particle dt h') h sys) l
  = if decide (l ∈ sys) then Particle.update dt (deref h l) else deref h l.
Proof.
  revert h. induction sys as [|x sys IH]; intros h Hnd Hall.
  - cbn. destruct (decide (l ∈ [])) as [Hl|]; [by apply elem_of_nil in Hl|done].
  - apply NoDup_cons in Hnd as [Hx Hnd]. apply Forall_cons in Hall as [Hxh Hall].
    cbn [foldl]. rewrite IH; [|done|].
    2:{ eapply Forall_impl; [done|]. intros y Hy. cbn.
        unfold Particle_update. by rewrite length_alter. }
    rewrite deref_Particle_update by done.
    destruct (decide (x = l)) as [->|Hne].
    + rewrite decide_False by done. rewrite decide_True by by left. done.
    + destruct (decide (l ∈ sys)) as [Hl|Hl].
      * rewrite decide_True by by right. done.
      * rewrite decide_False; [done|]. rewrite elem_of_cons.
        intros [?|?]; [congruence|done].
Qed.
End Heap.

(** ** The operations on well-formed states *)

Section Operations.
Implicit Types (h : heap) (s : ParticleSystem.t) (vals : list Particle.t).

Lemma well_formed_NoDup h s :
  well_formed h s → NoDup (ParticleSystem.system s).
Proof. intros Hwf. eapply unique_ids_NoDup, Hwf. Qed.

(** The survivors of the one-pass resolution, as values. *)
Lemma live_survivors h sys :
  deref h <$> one_pass_survivors h sys = surviving_values (deref h <$> sys).
Proof.
  unfold surviving_values, one_pass_survivors. rewrite filter_fmap. f_equal.
  apply filter_ext_elem. intros l _. rewrite group_size_filter.
  unfold crowd. by rewrite filter_fmap, length_fmap.
Qed.

(** [_update_without_collisions] moves the live particles and nothing
    else. *)
Lemma update_without_collisions_spec dt h s :
  well_formed h s →
  let h' := ParticleSystem._update_without_collisions dt s h in
  well_formed h' s
  ∧ live s h' = Particle.update dt <$> live s h
  ∧ snapshot s h' = snapshot s h.
Proof.
  intros Hwf h'. pose proof (well_formed_NoDup h s Hwf) as Hnd.
  destruct Hwf as [Hsys Hini Hids Hiids Hapart].
  assert (length h' = length h) as Hlen by apply length_update_all.
  assert (live s h' = Particle.update dt <$> live s h) as Hlive.
  { unfold live. rewrite <- list_fmap_compose. apply list_fmap_ext.
    intros i l Hl. unfold h', ParticleSystem._update_without_collisions.
    rewrite deref_update_all by done.
    rewrite decide_True by by eapply list_elem_of_lookup_2. done. }
  assert (snapshot s h' = snapshot s h) as Hsnap.
  { unfold snapshot. apply list_fmap_ext.
    intros i l Hl. unfold h', ParticleSystem._update_without_collisions.
    rewrite deref_update_all by done.
    rewrite decide_False; [done|]. intros Hin. apply (Hapart l Hin).
    by eapply list_elem_of_lookup_2. }
  split_and!; [|done|done]. split.
  - unfold allocated. by rewrite Hlen.
  - unfold allocated. by rewrite Hlen.
  - by apply unique_ids_update.
  - by apply (unique_ids_values h h' _ _ Hsnap).
  - done.
Qed.

(** [destroy_colliding] keeps the survivors and leaves the heap alone. *)
Lemma destroy_colliding_spec h s :
  well_formed h s →
  ∃ s', ParticleSystem.destroy_colliding s h = Ok s'
    ∧ well_formed h s'
    ∧ live s' h = surviving_values (live s h)
    ∧ ParticleSystem._initial s' = ParticleSystem._initial s.
Proof.
  intros [Hsys Hini Hids Hiids Hapart].
  destruct (destroy_loop_unique h _ Hids) as [k Hk].
  eexists. split; [exact (destroy_colliding_loop h s _ k Hk)|].
  assert (one_pass_survivors h (ParticleSystem.system s)
          `sublist_of` ParticleSystem.system s) as Hsub by apply sublist_filter.
  split_and!; [split; cbn| |done].
  - by eapply allocated_sublist.
  - done.
  - by eapply unique_ids_sublist.
  - done.
  - intros l Hl. apply Hapart. by eapply elem_of_sublist.
  - apply live_survivors.
Qed.

Lemma collision_steps_spec n h s :
  well_formed h s →
  ∃ h' s', ParticleSystem.collision_steps n s h = Ok (h', s')
    ∧ well_formed h' s'
    ∧ live s' h' = collision_steps_values n (live s h)
    ∧ snapshot s' h' = snapshot s h
    ∧ ParticleSystem._initial s' = ParticleSystem._initial s.
Proof.
  revert h s. induction n as [|n IH]; intros h s Hwf.
  - by exists h, s.
  - cbn [ParticleSystem.collision_steps collision_steps_values].
    destruct (update_without_collisions_spec 1 h s Hwf) as (Hwf1 & Hlive1 & Hsnap1).
    set (h1 := ParticleSystem._update_without_collisions 1 s h) in *.
    destruct (destroy_colliding_spec h1 s Hwf1) as (s1 & -> & Hwf2 & Hlive2 & Hini2).
    cbn. destruct (IH h1 s1 Hwf2) as (h' & s' & -> & Hwf' & Hlive' & Hsnap' & Hini').
    exists h', s'. split_and!; [done|done| | |congruence].
    + by rewrite Hlive', Hlive2, Hlive1.
    + rewrite Hsnap'. unfold snapshot. by rewrite Hini2.
Qed.

(** Every operation returns, and what it leaves is the effect of the
    operation on the values of the live collection; the snapshot keeps its
    values. *)
Lemma perform_spec o h s :
  well_formed h s →
  ∃ h' s', perform o s h = Ok (h', s')
    ∧ well_formed h' s'
    ∧ live s' h' = effect o (live s h)
    ∧ snapshot s' h' = snapshot s h
    ∧ ParticleSystem._initial s' = ParticleSystem._initial s.
Proof.
  intros Hwf. destruct o as [dt [|]|]; cbn [perform effect ParticleSystem.update negb].
  - by apply collision_steps_spec.
  - destruct (update_without_collisions_spec dt h s Hwf) as (? & ? & ?).
    by eexists _, _.
  - destruct (destroy_colliding_spec h s Hwf) as (s' & -> & ? & ? & Hini).
    exists h, s'. split_and!; [done|done|done| |done].
    unfold snapshot. by rewrite Hini.
Qed.

Lemma perform_all_spec ops h s :
  well_formed h s →
  ∃ h' s', perform_all ops s h = Ok (h', s')
    ∧ well_formed h' s'
    ∧ live s' h' = effects ops (live s h)
    ∧ snapshot s' h' = snapshot s h
    ∧ ParticleSystem._initial s' = ParticleSystem._initial s.
Proof.
  revert h s. induction ops as [|o ops IH]; intros h s Hwf.
  - by exists h, s.
  - cbn [perform_all effects foldl].
    destruct (perform_spec o h s Hwf) as (h1 & s1 & -> & Hwf1 & Hlive1 & Hsnap1 & Hini1).
    cbn. destruct (IH h1 s1 Hwf1) as (h' & s' & -> & Hwf' & Hlive' & Hsnap' & Hini').
    exists h', s'. split_and!; [done|done| | |congruence].
    + by rewrite Hlive', Hlive1.
    + by rewrite Hsnap', Hsnap1.
Qed.

(** The constructor: the live collection is the list that was passed, the
    snapshot holds copies of its values. *)
Lemma init_spec particles h :
  allocated h particles → unique_ids h particles →
  ∃ h' s, ParticleSystem.__init__ particles h = (h', s)
    ∧ well_formed h' s
    ∧ live s h' = deref h <$> particles
    ∧ snapshot s h' = deref h <$> particles.
Proof.
  intros Hall Hids. pose proof (unique_ids_NoDup h _ Hids) as Hnd.
  unfold ParticleSystem.__init__. rewrite deepcopy_distinct by done.
  eexists _, _. split; [done|].
  assert (live (ParticleSystem.mk particles
                  (seq (length h) (length particles)) 0)
               (h ++ (deref h <$> particles)) = deref h <$> particles) as Hlive
    by by apply deref_grown.
  assert (snapshot (ParticleSystem.mk particles
                  (seq (length h) (length particles)) 0)
               (h ++ (deref h <$> particles)) = deref h <$> particles) as Hsnap.
  { pose proof (deref_copies h (deref h <$> particles)) as Hcopies.
    by rewrite length_fmap in Hcopies. }
  split_and!; [split; cbn| |]; [| | | | |done|done].
  - by apply allocated_grown.
  - apply Forall_seq. intros j ?. rewrite length_app, length_fmap. lia.
  - by apply (unique_ids_values h _ _ _ Hlive).
  - by apply (unique_ids_values h _ _ _ Hsnap).
  - intros l Hl Hin. apply elem_of_seq in Hin.
    apply (proj1 (Forall_forall _ _) Hall) in Hl. lia.
Qed.

(** [reset]: the live collection becomes a list of new copies of the
    snapshot. *)
Lemma reset_spec h s :
  well_formed h s →
  ∃ h' s', ParticleSystem.reset s h = (h', s')
    ∧ well_formed h' s'
    ∧ live s' h' = snapshot s h
    ∧ snapshot s' h' = snapshot s h
    ∧ ParticleSystem._initial s' = ParticleSystem._initial s.
Proof.
  intros [Hsys Hini Hids Hiids Hapart].
  pose proof (unique_ids_NoDup h _ Hiids) as Hnd.
  unfold ParticleSystem.reset. rewrite deepcopy_distinct by done.
  eexists _, _. split; [done|]. cbn [ParticleSystem._initial].
  set (s' := ParticleSystem.mk _ _ _).
  set (h' := h ++ _).
  assert (live s' h' = snapshot s h) as Hlive.
  { pose proof (deref_copies h (deref h <$> ParticleSystem._initial s)) as Hcopies.
    by rewrite length_fmap in Hcopies. }
  assert (snapshot s' h' = snapshot s h) as Hsnap by by apply deref_grown.
  split_and!; [split; cbn| | |]; [| | | | |done|done|done].
  - apply Forall_seq. intros j ?. unfold h'. rewrite length_app, length_fmap. lia.
  - by apply allocated_grown.
  - by apply (unique_ids_values h h' _ _ Hlive).
  - by apply (unique_ids_values h h' _ _ Hsnap).
  - intros l Hl Hin. apply elem_of_seq in Hl.
    apply (proj1 (Forall_forall _ _) Hini) in Hin. lia.
Qed.
End Operations.

(** ** [reset] *)

Section Reset.
Implicit Types (h : heap) (s : ParticleSystem.t).

Lemma observe_perform_all ops h s :
  well_formed h s →
  observe (perform_all ops s h) = Ok (effects ops (live s h)).
Proof.
  intros Hwf.
  destruct (perform_all_spec ops h s Hwf) as (h' & s' & -> & _ & Hlive & _).
  cbn. by f_equal.
Qed.

(** C8. Take a system built by the constructor from a list of objects of
    the heap that is unique by id, and any sequence of [update] and
    [destroy_colliding] operations.  The operations return and leave the
    values of the snapshot as they were at construction; after [reset]
    the live collection has, particle by particle, the ids and the
    position, velocity and acceleration vectors of the collection at
    construction time, in new objects; and any sequence of operations run
    after the reset leaves the values that it leaves when run on the newly
    constructed system. *)
Theorem reset_restores_construction (particles : list loc) h ops :
  allocated h particles → unique_ids h particles →
  ∃ h0 s0 h1 s1 h2 s2,
    ParticleSystem.__init__ particles h = (h0, s0)
    ∧ live s0 h0 = deref h <$> particles
    ∧ perform_all ops s0 h0 = Ok (h1, s1)
    ∧ snapshot s1 h1 = live s0 h0
    ∧ ParticleSystem.reset s1 h1 = (h2, s2)
    ∧ live s2 h2 = live s0 h0
    ∧ snapshot s2 h2 = live s0 h0
    ∧ (∀ l, l ∈ ParticleSystem.system s2 → length h1 ≤ l)
    ∧ (∀ ops',
         is_ok (perform_all ops' s2 h2)
         ∧ observe (perform_all ops' s2 h2) = observe (perform_all ops' s0 h0)
         ∧ ∀ h3 s3, perform_all ops' s2 h2 = Ok (h3, s3) →
             snapshot s3 h3 = live s0 h0).
Proof.
  intros Hall Hids.
  destruct (init_spec particles h Hall Hids) as (h0 & s0 & Hinit & Hwf0 & Hlive0 & Hsnap0).
  destruct (perform_all_spec ops h0 s0 Hwf0)
    as (h1 & s1 & Hops & Hwf1 & Hlive1 & Hsnap1 & Hini1).
  destruct (reset_spec h1 s1 Hwf1) as (h2 & s2 & Hreset & Hwf2 & Hlive2 & Hsnap2 & Hini2).
  exists h0, s0, h1, s1, h2, s2.
  assert (snapshot s1 h1 = live s0 h0) as Hsnap by congruence.
  split_and!; [done|done|done|done|done|congruence|congruence| |].
  - intros l. unfold ParticleSystem.reset in Hreset.
    rewrite deepcopy_distinct in Hreset;
      [|eapply unique_ids_NoDup, Hwf1|apply Hwf1].
    injection Hreset as <- <-. cbn. rewrite elem_of_seq. lia.
  - intros ops'.
    destruct (perform_all_spec ops' h2 s2 Hwf2)
      as (h3 & s3 & Hops' & Hwf3 & Hlive3 & Hsnap3 & Hini3).
    split_and!.
    + by rewrite Hops'.
    + rewrite !observe_perform_all by done. f_equal. congruence.
    + intros h3' s3'. rewrite Hops'. intros [= <- <-]. congruence.
Qed.
End Reset.

(** The witness: the system of scenario 1 with a collision-aware update, a
    plain update and a call of [destroy_colliding] before the reset. *)
Lemma reset_restores_construction_witness :
  let h := [Particle.mk 0 (Vec3 3 0 0) (Vec3 2 0 0) (Vec3 (-1) 0 0);
            Particle.mk 1 (Vec3 4 0 0) (Vec3 0 0 0) (Vec3 (-2) 0 0)]%Z in
  let ops := [Update 2 true; Update 5 false; DestroyColliding] in
  allocated h [0; 1] ∧ unique_ids h [0; 1]
  ∧ ∃ h0 s0 h1 s1 h2 s2,
      ParticleSystem.__init__ [0; 1] h = (h0, s0)
      ∧ perform_all ops s0 h0 = Ok (h1, s1)
      ∧ ParticleSystem.reset s1 h1 = (h2, s2)
      ∧ live s2 h2 = live s0 h0.
Proof.
  intros h ops.
  assert (allocated h [0; 1]) as Hall.
  { refine (bool_decide_unpack _ _). vm_compute. exact I. }
  assert (unique_ids h [0; 1]) as Hids.
  { refine (bool_decide_unpack _ _). vm_compute. exact I. }
  split; [exact Hall|]. split; [exact Hids|].
  destruct (reset_restores_construction [0; 1] h ops Hall Hids)
    as (h0 & s0 & h1 & s1 & h2 & s2 & Hinit & _ & Hops & _ & Hreset & Hlive & _).
  by exists h0, s0, h1, s1, h2, s2.
Defined.

(** ** Systems built by [create_particle_system] *)

Section Created.
Implicit Types (h : heap) (s : ParticleSystem.t) (conds : list condition).

(** The particle that [create_particle_system] builds from the condition at
    index [i], when the ids start at [id]. *)
Abbreviation particle_at id :=
  (λ (i : nat) (c : condition),
     Particle.mk (id + Z.of_nat i) c.1.1 c.1.2 c.2).

Lemma create_particles_spec id conds h :
  create_particles id conds h
  = (h ++ imap (particle_at id) conds, seq (length h) (length conds)).
Proof.
  revert id h. induction conds as [|[[p v] a] conds IH]; intros id h.
  - cbn. by rewrite app_nil_r.
  - cbn [create_particles alloc]. rewrite IH, <- app_assoc, length_app.
    cbn [length]. rewrite Nat.add_1_r. do 2 f_equal. cbn. f_equal.
    + f_equal. lia.
    + apply imap_ext. intros i [[p' v'] a'] _. cbn. f_equal. lia.
Qed.

Lemma ids_of_live h s :
  id_of h <$> ParticleSystem.system s = Particle.id <$> live s h.
Proof. unfold live. by rewrite <- list_fmap_compose. Qed.

Lemma ids_of_created conds :
  Particle.id <$> imap (particle_at 0) conds
  = Z.of_nat <$> seq 0 (length conds).
Proof.
  apply list_eq. intros i.
  rewrite !list_lookup_fmap, list_lookup_imap.
  destruct (conds !! i) as [c|] eqn:Hi.
  - rewrite lookup_seq_lt by by eapply lookup_lt_Some. done.
  - rewrite (lookup_ge_None_2 (seq _ _)); [done|].
    rewrite length_seq. by apply lookup_ge_None.
Qed.

Lemma ascending_seq j n : StronglySorted Z.lt (Z.of_nat <$> seq j n).
Proof.
  revert j. induction n as [|n IH]; intros j; cbn; [constructor|].
  apply StronglySorted_cons. split; [|apply IH].
  apply Forall_fmap, Forall_seq. intros i ?. cbn. lia.
Qed.

(** The constructor of the program builds a well-formed state whose ids
    ascend from 0 along the storage order. *)
Lemma create_particle_system_spec conds h :
  ∃ h' s, create_particle_system conds h = (h', s)
    ∧ well_formed h' s
    ∧ ascending_ids h' (ParticleSystem.system s)
    ∧ live s h' = imap (particle_at 0) conds
    ∧ snapshot s h' = imap (particle_at 0) conds.
Proof.
  unfold create_particle_system. rewrite create_particles_spec.
  set (k := imap (particle_at 0) conds).
  assert (length k = length conds) as Hlen by apply length_imap.
  assert (deref (h ++ k) <$> seq (length h) (length conds) = k) as Hvals.
  { rewrite <- Hlen. apply deref_copies. }
  destruct (init_spec (seq (length h) (length conds)) (h ++ k))
    as (h' & s & Hinit & Hwf & Hlive & Hsnap).
  - apply Forall_seq. intros j ?. rewrite length_app. lia.
  - unfold unique_ids. change (id_of (h ++ k)) with (Particle.id ∘ deref (h ++ k)).
    rewrite list_fmap_compose, Hvals. unfold k. rewrite ids_of_created.
    apply NoDup_fmap_2; [apply _|apply NoDup_seq].
  - exists h', s. split_and!; [done|done| |congruence|congruence].
    unfold ascending_ids. rewrite ids_of_live, Hlive, Hvals. unfold k.
    rewrite ids_of_created. apply ascending_seq.
Qed.

Lemma ids_of_updated dt (vals : list Particle.t) :
  Particle.id <$> (Particle.update dt <$> vals) = Particle.id <$> vals.
Proof. rewrite <- list_fmap_compose. by apply list_fmap_ext. Qed.

Lemma ids_of_survivors (vals : list Particle.t) :
  Particle.id <$> surviving_values vals `sublist_of` Particle.id <$> vals.
Proof. apply fmap_sublist, sublist_filter. Qed.

Lemma ids_of_collision_steps n (vals : list Particle.t) :
  Particle.id <$> collision_steps_values n vals `sublist_of` Particle.id <$> vals.
Proof.
  revert vals. induction n as [|n IH]; intros vals; [done|]. cbn.
  etrans; [apply IH|]. etrans; [apply ids_of_survivors|].
  by rewrite ids_of_updated.
Qed.

Lemma ids_of_effect o (vals : list Particle.t) :
  Particle.id <$> effect o vals `sublist_of` Particle.id <$> vals.
Proof.
  destruct o as [dt [|]|]; cbn.
  - apply ids_of_collision_steps.
  - by rewrite ids_of_updated.
  - apply ids_of_survivors.
Qed.

Lemma ids_of_effects ops (vals : list Particle.t) :
  Particle.id <$> effects ops vals `sublist_of` Particle.id <$> vals.
Proof.
  revert vals. induction ops as [|o ops IH]; intros vals; [done|]. cbn.
  etrans; [apply IH|]. apply ids_of_effect.
Qed.

(** The operations keep a state well formed and its ids ascending. *)
Lemma perform_all_ascending ops h s :
  well_formed h s → ascending_ids h (ParticleSystem.system s) →
  ∃ h' s', perform_all ops s h = Ok (h', s')
    ∧ well_formed h' s'
    ∧ ascending_ids h' (ParticleSystem.system s').
Proof.
  intros Hwf Hasc.
  destruct (perform_all_spec ops h s Hwf) as (h' & s' & Hops & Hwf' & Hlive & _).
  exists h', s'. split_and!; [done|done|].
  unfold ascending_ids in *. rewrite ids_of_live in Hasc |- *. rewrite Hlive.
  eapply StronglySorted_sublist; [apply ids_of_effects|done].
Qed.

(** In a system that [create_particle_system] built, after any operations,
    the closest particle that is reported has the least id among the
    particles of minimal distance. *)
Lemma closest_in_created_system conds ops :
  ∃ h0 s0 h s,
    create_particle_system conds [] = (h0, s0)
    ∧ perform_all ops s0 h0 = Ok (h, s)
    ∧ well_formed h s
    ∧ match find_closest_to_origin s h with
      | None => ParticleSystem.system s = []
      | Some l =>
          l ∈ ParticleSystem.system s
          ∧ ∀ l', l' ∈ ParticleSystem.system s →
              (Particle_manhattan_dist l h < Particle_manhattan_dist l' h
               ∨ Particle_manhattan_dist l h = Particle_manhattan_dist l' h
                 ∧ id_of h l ≤ id_of h l')%Z
      end.
Proof.
  destruct (create_particle_system_spec conds []) as (h0 & s0 & Hc & Hwf0 & Hasc0 & _).
  destruct (perform_all_ascending ops h0 s0 Hwf0 Hasc0) as (h & s & Hops & Hwf & Hasc).
  exists h0, s0, h, s. split_and!; [done|done|done|].
  unfold find_closest_to_origin.
  destruct (ParticleSystem.system s) as [|x sys] eqn:Hsys; [done|].
  destruct (closest_first_minimum h sys x) as (l & i & -> & Hi & Hmin & Hfirst).
  split; [by eapply list_elem_of_lookup_2|].
  intros l' Hl'. pose proof (Hmin l' Hl') as Hle.
  destruct (decide (Particle_manhattan_dist l h = Particle_manhattan_dist l' h))
    as [Heq|Hne]; [right|left; lia].
  split; [done|]. apply list_elem_of_lookup in Hl' as [j Hj].
  destruct (Nat.lt_trichotomy j i) as [Hlt|[->|Hgt]].
  - specialize (Hfirst j l' Hlt Hj). lia.
  - rewrite Hi in Hj. by simplify_eq.
  - assert (id_of h l < id_of h l')%Z; [|lia].
    apply (StronglySorted_lookup_lt _ _ i j _ _ Hasc Hgt);
      rewrite list_lookup_fmap; [by rewrite Hi|by rewrite Hj].
Qed.
End Created.

(** * Further properties of the code *)

(** ** The closed form composes, in exact integers *)

Section Composition.
Local Open Scope Z_scope.
Implicit Types (h : heap) (s : ParticleSystem.t).

Lemma half_sum (a b x : Z) :
  (a + b + 1) * ((a + b) * x) / 2
  = (b + 1) * (b * x) / 2 + a * (b * x) + (a + 1) * (a * x) / 2.
Proof.
  destruct (consecutive_product_even a x) as [ka Ha].
  destruct (consecutive_product_even b x) as [kb Hb].
  rewrite Ha, Hb, !(Z.mul_comm 2), !Z.div_mul by done.
  replace ((a + b + 1) * ((a + b) * x)) with ((kb + a * (b * x) + ka) * 2) by lia.
  by rewrite Z.div_mul.
Qed.

Lemma update_add (a b : Z) (p : Particle.t) :
  Particle.update a (Particle.update b p) = Particle.update (a + b) p.
Proof.
  destruct p as [i [p1 p2 p3] [v1 v2 v3] [a1 a2 a3]].
  unfold Particle.update, vadd, vscale, vhalf;
    cbn [Particle.id Particle.pos Particle.vel Particle.acc vx vy vz].
  rewrite !half_sum. f_equal; f_equal; lia.
Qed.

End Composition.

(** ** What [destroy_colliding] leaves *)

Section Destroyed.
Implicit Types (h : heap) (s : ParticleSystem.t) (sys : list loc).

Lemma quiet_no_collision h sys a b :
  quiet_from h 0 sys → a ∈ sys → b ∈ sys → ¬ ParticleSystem.collides h a b.
Proof.
  intros Hquiet Ha [j Hj]%list_elem_of_lookup Hcol.
  assert (a ∈ ParticleSystem.get_colliders h sys b) as Hin
    by by apply elem_of_get_colliders.
  rewrite (Hquiet j b) in Hin; [by apply elem_of_nil in Hin|lia|done].
Qed.

Lemma destroy_loop_quiet h sys :
  quiet_from h 0 sys → ParticleSystem.destroy_loop h sys = Ok (sys, 1).
Proof.
  intros Hquiet.
  destruct (destroy_loop_spec h sys) as (sys' & k & -> & Hrtc & _ & Hk & Hlen).
  pose proof (strikes_quiet h _ _ Hrtc Hquiet) as ->.
  do 2 f_equal. lia.
Qed.

(** X3. [destroy_colliding] returns on every state, without an exception.
    The particles that it leaves are a sublist of the collection, in their
    storage order; no two of them collide (equal position and different
    id); the snapshot and the time are as they were. *)
Theorem destroy_colliding_leaves_no_collision s h :
  ∃ s', ParticleSystem.destroy_colliding s h = Ok s'
    ∧ ParticleSystem.system s' `sublist_of` ParticleSystem.system s
    ∧ (∀ a b, a ∈ ParticleSystem.system s' → b ∈ ParticleSystem.system s' →
         pos_of h a = pos_of h b → id_of h a = id_of h b)
    ∧ ParticleSystem._initial s' = ParticleSystem._initial s
    ∧ ParticleSystem.time s' = ParticleSystem.time s.
Proof.
  destruct (destroy_loop_spec h (ParticleSystem.system s))
    as (sys' & k & Hloop & Hrtc & Hquiet & _).
  eexists. split; [exact (destroy_colliding_loop h s _ _ Hloop)|].
  cbn. split_and!; [by apply (strikes_sublist h)| |done|done].
  intros a b Ha Hb Hpos.
  destruct (decide (id_of h a = id_of h b)) as [|Hid]; [done|].
  destruct (quiet_no_collision h sys' a b Hquiet Ha Hb). by split.
Qed.

(** X4. [destroy_colliding] is idempotent: a second call right after the
    first finds nothing to remove and returns the state of the first, after
    a single run of the loop. *)
Theorem destroy_colliding_idempotent s h :
  (ParticleSystem.destroy_colliding s h ≫=
     (λ s', ParticleSystem.destroy_colliding s' h))
  = ParticleSystem.destroy_colliding s h
  ∧ ∃ sys' k, ParticleSystem.destroy_loop h (ParticleSystem.system s) = Ok (sys', k)
      ∧ ParticleSystem.destroy_loop h sys' = Ok (sys', 1).
Proof.
  destruct (destroy_loop_spec h (ParticleSystem.system s))
    as (sys' & k & Hloop & _ & Hquiet & _).
  pose proof (destroy_loop_quiet h sys' Hquiet) as Hagain.
  split; [|by exists sys', k].
  rewrite (destroy_colliding_loop h s _ _ Hloop).
  exact (destroy_colliding_loop h (ParticleSystem.mk sys' _ _) _ _ Hagain).
Qed.

(** X5. [get_colliders] returns particles of the collection in their storage
    order, never the particle itself nor one with its id; to collide is
    symmetric; and two colliders of one particle with different ids collide
    with each other. *)
Theorem get_colliders_symmetric h sys (a b : loc) :
  ParticleSystem.get_colliders h sys a `sublist_of` sys
  ∧ (a ∉ ParticleSystem.get_colliders h sys a)
  ∧ (b ∈ ParticleSystem.get_colliders h sys a → id_of h b ≠ id_of h a)
  ∧ (a ∈ sys → b ∈ sys →
       a ∈ ParticleSystem.get_colliders h sys b
       ↔ b ∈ ParticleSystem.get_colliders h sys a)
  ∧ (∀ c, b ∈ ParticleSystem.get_colliders h sys a →
          c ∈ ParticleSystem.get_colliders h sys a →
          id_of h b ≠ id_of h c →
          b ∈ ParticleSystem.get_colliders h sys c).
Proof.
  split_and!.
  - apply sublist_filter.
  - rewrite elem_of_get_colliders. intros [Hcol _]. by apply collides_irrefl in Hcol.
  - rewrite elem_of_get_colliders. by intros [[_ ?] _].
  - intros Ha Hb. rewrite !elem_of_get_colliders.
    unfold ParticleSystem.collides.
    split; intros [[Hp Hi] _];
      (split; [split; [by symmetry|intros Heq; apply Hi; by symmetry]|done]).
  - intros c. rewrite !elem_of_get_colliders. unfold ParticleSystem.collides, id_of.
    intros [[Hb _] ?] [[Hc _] _] Hid. split; [|done]. split; [congruence|done].
Qed.
End Destroyed.

(** A collection where two particles collide and one stands apart. *)
Lemma get_colliders_symmetric_witness :
  let at_ (i x : Z) := Particle.mk i (Vec3 x 0 0) (Vec3 0 0 0) (Vec3 0 0 0) in
  let h := [at_ 0 7; at_ 1 7; at_ 2 5]%Z in
  0 ∈ [0; 1; 2] ∧ 1 ∈ [0; 1; 2]
  ∧ (0 ∈ ParticleSystem.get_colliders h [0; 1; 2] 1
     ↔ 1 ∈ ParticleSystem.get_colliders h [0; 1; 2] 0).
Proof.
  intros at_ h.
  assert (0 ∈ [0; 1; 2]) as H0 by (refine (bool_decide_unpack _ _); vm_compute; exact I).
  assert (1 ∈ [0; 1; 2]) as H1 by (refine (bool_decide_unpack _ _); vm_compute; exact I).
  split; [exact H0|]. split; [exact H1|].
  exact (proj1 (proj2 (proj2 (proj2 (get_colliders_symmetric h [0; 1; 2] 0 1)))) H0 H1).
Defined.

(** ** What the operations keep *)

Section Frame.
Implicit Types (h : heap) (s : ParticleSystem.t) (sys : list loc).









Lemma collision_steps_add n m s h :
  ParticleSystem.collision_steps (n + m) s h
  = ParticleSystem.collision_steps n s h ≫=
      (λ '(h', s'), ParticleSystem.collision_steps m s' h').
Proof.
  revert s h. induction n as [|n IH]; intros s h; [done|].
  cbn [Nat.add ParticleSystem.collision_steps].
  destruct (ParticleSystem.destroy_colliding s _) as [s1| | |]; [|done..].
  apply IH.
Qed.

(** X7. Collision-aware updates compose: for non-negative [a] and [b],
    [update(a, collisions=True)] followed by [update(b, collisions=True)] is
    [update(a + b, collisions=True)].  A collision-aware update by a count
    that is not positive changes nothing: [range(t)] is empty. *)
Theorem collision_updates_compose (a b : Z) s h :
  (0 ≤ a)%Z → (0 ≤ b)%Z →
  (ParticleSystem.update a true s h ≫=
     (λ '(h', s'), ParticleSystem.update b true s' h'))
  = ParticleSystem.update (a + b) true s h
  ∧ ∀ t, (t ≤ 0)%Z → ParticleSystem.update t true s h = Ok (h, s).
Proof.
  intros Ha Hb. cbn [ParticleSystem.update negb].
  unfold ParticleSystem._update_with_collisions. split.
  - rewrite Z2Nat.inj_add by done. by rewrite collision_steps_add.
  - intros t Ht. by replace (Z.to_nat t) with 0 by lia.
Qed.
End Frame.

(** Two collision-aware updates of the system of scenario 1. *)
Lemma collision_updates_compose_witness :
  let '(h, s) := create_particle_system scenario_1 [] in
  (0 ≤ 2)%Z ∧ (0 ≤ 3)%Z
  ∧ (ParticleSystem.update 2 true s h ≫=
       (λ '(h', s'), ParticleSystem.update 3 true s' h'))
    = ParticleSystem.update (2 + 3) true s h.
Proof.
  destruct (create_particle_system scenario_1 []) as [h s].
  assert (0 ≤ 2)%Z as H2 by lia. assert (0 ≤ 3)%Z as H3 by lia.
  split; [exact H2|]. split; [exact H3|].
  exact (proj1 (collision_updates_compose 2 3 s h H2 H3)).
Defined.

(** ** Construction and [reset] *)

Section Construction.
Implicit Types (h : heap) (s : ParticleSystem.t) (conds : list condition).

Lemma deepcopy_from_grows memo (l : list loc) h :
  h `prefix_of` (deepcopy_from memo l h).1
  ∧ length (deepcopy_from memo l h).2 = length l.
Proof.
  revert memo h. induction l as [|x l IH]; intros memo h; [done|].
  cbn [deepcopy_from alloc]. destruct (memo_get memo x) as [y|].
  - destruct (IH memo h) as [Hpre Hlen].
    destruct (deepcopy_from memo l h) as [h' r]. cbn in *. by rewrite Hlen.
  - destruct (IH ((x, length h) :: memo) (h ++ [deref h x])) as [Hpre Hlen].
    destruct (deepcopy_from _ l _) as [h' r]. cbn in *. split; [|by rewrite Hlen].
    etrans; [|done]. by apply prefix_app_r.
Qed.

Lemma deref_prefix h h' l :
  h `prefix_of` h' → l < length h → deref h' l = deref h l.
Proof. intros [k ->]. apply deref_app_l. Qed.

(** X8. [reset] and the constructor only allocate: the heap that was there
    is a prefix of the heap that they leave, so that every object that
    existed keeps its attributes -- the particles that the caller passed to
    the constructor stay as the updates left them.  After [reset] the live
    collection has as many particles as the snapshot, and the snapshot list
    is the same list; the constructor takes the list it is given as the live
    collection. *)
Theorem reset_only_allocates s h (particles : list loc) :
  h `prefix_of` (ParticleSystem.reset s h).1
  ∧ (∀ l, l < length h → deref (ParticleSystem.reset s h).1 l = deref h l)
  ∧ ParticleSystem.__len__ (ParticleSystem.reset s h).2
    = length (ParticleSystem._initial s)
  ∧ ParticleSystem._initial (ParticleSystem.reset s h).2
    = ParticleSystem._initial s
  ∧ h `prefix_of` (ParticleSystem.__init__ particles h).1
  ∧ ParticleSystem.system (ParticleSystem.__init__ particles h).2 = particles
  ∧ length (ParticleSystem._initial (ParticleSystem.__init__ particles h).2)
    = length particles.
Proof.
  unfold ParticleSystem.reset, ParticleSystem.__init__, deepcopy.
  destruct (deepcopy_from_grows [] (ParticleSystem._initial s) h) as [Hpre Hlen].
  destruct (deepcopy_from_grows [] particles h) as [Hpre' Hlen'].
  destruct (deepcopy_from [] (ParticleSystem._initial s) h) as [h' r].
  destruct (deepcopy_from [] particles h) as [h'' r'].
  cbn in *. split_and!; [done| |done..].
  intros l. by apply deref_prefix.
Qed.

(** X9. [create_particle_system] gives the particles the ids 0, 1, 2, ...
    in the order of the initial conditions, with the vectors of the
    conditions; the system has one particle for each condition; the
    snapshot holds the same values in other objects; and the state is well
    formed, with ids that ascend along the storage order. *)
Theorem create_particle_system_numbers_particles conds h :
  ∃ h' s, create_particle_system conds h = (h', s)
    ∧ live s h'
      = imap (λ i (c : condition), Particle.mk (Z.of_nat i) c.1.1 c.1.2 c.2) conds
    ∧ snapshot s h' = live s h'
    ∧ ParticleSystem.__len__ s = length conds
    ∧ (∀ l, l ∈ ParticleSystem.system s → l ∉ ParticleSystem._initial s)
    ∧ well_formed h' s
    ∧ ascending_ids h' (ParticleSystem.system s).
Proof.
  destruct (create_particle_system_spec conds h)
    as (h' & s & Hc & Hwf & Hasc & Hlive & Hsnap).
  exists h', s. split_and!; [done|done|congruence| |apply Hwf|done|done].
  unfold ParticleSystem.__len__.
  rewrite <- (length_fmap (deref h') (ParticleSystem.system s)).
  fold (live s h'). by rewrite Hlive, length_imap.
Qed.

End Construction.

(** ** The strings of [lower_bits] *)

Section LowerBits.
Local Open Scope Z_scope.
Implicit Types (p q : positive) (s l : str) (n k : nat).

Lemma slice_from_2 (a b : ascii) l : slice_from 2 (a :: b :: l) = l.
Proof.
  unfold slice_from. rewrite decide_False by lia. cbn [length].
  rewrite Z.min_l by lia. done.
Qed.

Lemma slice_from_neg n l :
  (0 < n)%nat → slice_from (- Z.of_nat n) l = drop (length l - n) l.
Proof.
  intros Hn. unfold slice_from. rewrite decide_True by lia. f_equal. lia.
Qed.

Lemma lower_bits_pos p n :
  (0 < n)%nat → lower_bits (Zpos p) (Z.of_nat n) = reverse (take n (digits_lsb p)).
Proof.
  intros Hn. unfold lower_bits, bin. rewrite slice_from_2.
  cbv zeta. rewrite slice_from_neg by done.
  by rewrite reverse_take, length_reverse.
Qed.

Lemma digits_lsb_binary p : is_binary (digits_lsb p).
Proof.
  unfold is_binary. induction p; cbn; constructor; auto.
Qed.

Lemma digits_lsb_length p : (0 < length (digits_lsb p))%nat.
Proof. destruct p; cbn; lia. Qed.

Lemma pow2_succ k : 2 ^ Z.of_nat (S k) = 2 * 2 ^ Z.of_nat k.
Proof. rewrite Nat2Z.inj_succ. apply Z.pow_succ_r. lia. Qed.

Lemma pow2_pos k : 0 < 2 ^ Z.of_nat k.
Proof. apply Z.pow_pos_nonneg; lia. Qed.

(** The digits tell the size of the number. *)
Lemma digits_lsb_length_le p k :
  (length (digits_lsb p) ≤ k)%nat ↔ Zpos p < 2 ^ Z.of_nat k.
Proof.
  revert k. induction p as [p IH|p IH|]; intros [|k]; cbn [digits_lsb length];
    first [rewrite pow2_succ; try specialize (IH k); pose proof (pow2_pos k); lia
          |change (2 ^ Z.of_nat 0) with 1; lia].
Qed.

Lemma mod_double (x m : Z) (b : Z) :
  0 < m → 0 ≤ b < 2 → (b + 2 * x) mod (2 * m) = b + 2 * (x mod m).
Proof.
  intros Hm Hb. symmetry.
  apply (Z.mod_unique_pos _ _ (x / m)).
  - pose proof (Z.mod_pos_bound x m Hm). lia.
  - pose proof (Z.div_mod x m). lia.
Qed.

(** The first [n] digits are the number modulo [2^n]. *)
Lemma digits_value_take p n :
  digits_value (take n (digits_lsb p)) = Zpos p mod 2 ^ Z.of_nat n.
Proof.
  revert p. induction n as [|n IH]; intros p.
  - cbn. by rewrite Z.mod_1_r.
  - rewrite pow2_succ. pose proof (pow2_pos n) as Hpos.
    destruct p as [p|p|]; [| |cbn [digits_lsb take]; rewrite take_nil;
      change (digits_value ["1"%char]) with 1; symmetry; apply Z.mod_small; lia];
      cbn [digits_lsb take digits_value foldr].
    + fold (digits_value (take n (digits_lsb p))). rewrite IH.
      change (bit_of "1") with 1.
      rewrite <- (mod_double (Zpos p) _ 1) by lia. reflexivity.
    + fold (digits_value (take n (digits_lsb p))). rewrite IH.
      change (bit_of "0") with 0.
      rewrite <- (mod_double (Zpos p) _ 0) by lia. reflexivity.
Qed.

Lemma digits_value_inj l1 l2 :
  is_binary l1 → is_binary l2 → length l1 = length l2 →
  digits_value l1 = digits_value l2 → l1 = l2.
Proof.
  intros Hb1. revert l2. induction Hb1 as [|c1 l1 Hc1 _ IH]; intros l2 Hb2 Hlen Hval.
  - by destruct l2.
  - destruct Hb2 as [|c2 l2 Hc2 Hb2]; [done|].
    cbn [digits_value foldr] in Hval.
    fold (digits_value l1) in Hval. fold (digits_value l2) in Hval.
    assert (bit_of c1 = bit_of c2 ∧ digits_value l1 = digits_value l2) as [Hbit Hrest].
    { destruct Hc1 as [-> | ->], Hc2 as [-> | ->];
        change (bit_of "0") with 0 in *; change (bit_of "1") with 1 in *; lia. }
    f_equal.
    + destruct Hc1 as [-> | ->], Hc2 as [-> | ->]; done.
    + apply IH; [done|by injection Hlen|done].
Qed.

Lemma binary_value_reverse l : binary_value (reverse l) = digits_value l.
Proof.
  induction l as [|c l IH]; [done|].
  rewrite reverse_cons. unfold binary_value. rewrite foldl_snoc.
  fold (binary_value (reverse l)). rewrite IH.
  change (digits_value (c :: l)) with (bit_of c + 2 * digits_value l). lia.
Qed.

Lemma low16_mod (a : Z) : low16 a = a mod 2 ^ Z.of_nat 16.
Proof. unfold low16. change 65535 with (Z.ones 16). by rewrite Z.land_ones. Qed.

(** The strings of two positive numbers. *)
Lemma lower_bits_pos_eq p q :
  lower_bits (Zpos p) 16 = lower_bits (Zpos q) 16 ↔ strings_agree (Zpos p) (Zpos q).
Proof.
  change 16 with (Z.of_nat 16). rewrite !lower_bits_pos by lia.
  unfold strings_agree. rewrite !low16_mod, <- !digits_value_take.
  change 32768 with (2 ^ Z.of_nat 15). rewrite <- !digits_lsb_length_le.
  split.
  - intros Heq%(inj reverse). rewrite Heq. split; [done|].
    apply (f_equal length) in Heq. rewrite !length_take in Heq. lia.
  - intros [Hval Hside]. f_equal.
    apply digits_value_inj; [by apply Forall_take, digits_lsb_binary..| |done].
    rewrite !length_take.
    destruct (decide (length (digits_lsb p) ≤ 15)%nat) as [Hp|Hp].
    + pose proof (proj1 Hside Hp) as Hq.
      rewrite !take_ge in Hval by lia.
      assert (digits_value (take 16 (digits_lsb p))
              = digits_value (take 16 (digits_lsb q))) as Hval'
        by by rewrite !take_ge by lia.
      rewrite !digits_value_take in Hval'.
      apply digits_lsb_length_le in Hp, Hq.
      rewrite !Z.mod_small in Hval' by (change (2 ^ Z.of_nat 16) with 65536;
        change (2 ^ Z.of_nat 15) with 32768 in *; lia).
      by injection Hval' as ->.
    + assert (¬ (length (digits_lsb q) ≤ 15)%nat) by tauto. lia.
Qed.

Lemma lower_bits_zero_pos p : lower_bits 0 16 ≠ lower_bits (Zpos p) 16.
Proof.
  change 16 with (Z.of_nat 16). rewrite lower_bits_pos by lia.
  change (lower_bits 0 (Z.of_nat 16)) with (reverse ["0"%char]).
  intros Heq%(inj reverse). pose proof (digits_lsb_length p).
  destruct p as [p|p|]; cbn in Heq; try done.
  injection Heq as Heq. pose proof (digits_lsb_length p).
  destruct (digits_lsb p); [cbn in *; lia|done].
Qed.

Lemma strings_agree_zero_pos p : ¬ strings_agree 0 (Zpos p).
Proof.
  intros [Hlow Hside]. rewrite !low16_mod in Hlow.
  change (2 ^ Z.of_nat 16) with 65536 in Hlow.
  assert (Zpos p < 32768) as Hp by (apply Hside; lia).
  rewrite Z.mod_0_l, Z.mod_small in Hlow by lia. lia.
Qed.

Lemma lower_bits_agree (a b : Z) :
  0 ≤ a → 0 ≤ b →
  lower_bits a 16 = lower_bits b 16 ↔ strings_agree a b.
Proof.
  intros Ha Hb. destruct a as [|p|p], b as [|q|q]; try lia.
  - by split.
  - split; [by intros ?%lower_bits_zero_pos|by intros ?%strings_agree_zero_pos].
  - split.
    + intros Heq. symmetry in Heq. by apply lower_bits_zero_pos in Heq.
    + intros [Hlow Hside]. destruct (strings_agree_zero_pos p).
      split; [done|tauto].
  - apply lower_bits_pos_eq.
Qed.

(** X11. For two values that are not negative, [lower_bits] returns equal
    strings exactly when the lowest 16 bits of the values are equal and
    both values or neither are below [2^15]: a value below [2^15] keeps a
    string of fewer than 16 characters, which no longer value shares. *)
Theorem lower_bits_equal_iff (a b : Z) :
  0 ≤ a → 0 ≤ b →
  lower_bits a 16 = lower_bits b 16
  ↔ low16 a = low16 b ∧ (a < 32768 ↔ b < 32768).
Proof. apply lower_bits_agree. Qed.

Lemma lower_bits_equal_iff_witness :
  0 ≤ 245556042 ∧ 0 ≤ 1431495498
  ∧ (lower_bits 245556042 16 = lower_bits 1431495498 16
     ↔ low16 245556042 = low16 1431495498
       ∧ (245556042 < 32768 ↔ 1431495498 < 32768)).
Proof.
  assert (0 ≤ 245556042) as Ha by lia. assert (0 ≤ 1431495498) as Hb by lia.
  split; [exact Ha|]. split; [exact Hb|].
  exact (lower_bits_equal_iff 245556042 1431495498 Ha Hb).
Defined.

(** X12. For a value [n] that is not negative, [lower_bits] returns between
    1 and 16 binary digits that read back, as a binary numeral, as the
    lowest 16 bits of [n]; the string has 16 characters exactly when [n] is
    at least [2^15]. *)
Theorem lower_bits_digits (n : Z) :
  0 ≤ n →
  is_binary (lower_bits n 16)
  ∧ (1 ≤ length (lower_bits n 16) ≤ 16)%nat
  ∧ binary_value (lower_bits n 16) = low16 n
  ∧ (length (lower_bits n 16) = 16%nat ↔ 32768 ≤ n).
Proof.
  intros Hn. destruct n as [|p|p]; [|clear Hn|lia].
  - change (lower_bits 0 16) with ["0"%char].
    split_and!; [|cbn; lia|cbn; lia|reflexivity|cbn; lia].
    apply Forall_cons. split; [by left|by apply Forall_nil].
  - change 16 with (Z.of_nat 16) at 1 2 3 4 5. rewrite lower_bits_pos by lia.
    rewrite length_reverse, length_take, binary_value_reverse, digits_value_take,
      low16_mod.
    pose proof (digits_lsb_length p) as Hlen.
    pose proof (digits_lsb_length_le p 15) as H15.
    change (2 ^ Z.of_nat 15) with 32768 in H15.
    split_and!; [|lia|lia|done|lia].
    apply Forall_reverse, Forall_take, digits_lsb_binary.
Qed.

Lemma lower_bits_digits_witness :
  0 ≤ 65537 ∧ binary_value (lower_bits 65537 16) = low16 65537.
Proof.
  assert (0 ≤ 65537) as Hn by lia. split; [exact Hn|].
  exact (proj1 (proj2 (proj2 (lower_bits_digits 65537 Hn)))).
Defined.
End LowerBits.

(** ** The generators and [score] *)

Section Generators.
Local Open Scope Z_scope.
Implicit Types (g : Generator.t) (n m : nat).

Lemma generate_Ok g :
  Generator._divisor g ≠ 0 →
  Generator.generate g
  = Ok ((Generator._current g * Generator._factor g) mod Generator._divisor g,
        Generator.mk (Generator._start g)
          ((Generator._current g * Generator._factor g) mod Generator._divisor g)
          (Generator._factor g) (Generator._divisor g)).
Proof. intros Hd. unfold Generator.generate. by rewrite decide_False. Qed.

(** X13. [generate] returns a value between 0 and the divisor when the
    divisor is positive (between the divisor and 0 when it is negative),
    stores it as the current value and leaves the start, the factor and the
    divisor alone; with the divisor 0 it raises [ZeroDivisionError]. *)
Theorem generate_in_range g :
  (0 < Generator._divisor g →
   ∃ v g', Generator.generate g = Ok (v, g')
     ∧ 0 ≤ v < Generator._divisor g
     ∧ Generator._current g' = v
     ∧ Generator._start g' = Generator._start g
     ∧ Generator._factor g' = Generator._factor g
     ∧ Generator._divisor g' = Generator._divisor g)
  ∧ (Generator._divisor g < 0 →
     ∃ v g', Generator.generate g = Ok (v, g')
       ∧ Generator._divisor g < v ≤ 0)
  ∧ (Generator._divisor g = 0 → Generator.generate g = ZeroDivisionError).
Proof.
  split_and!.
  - intros Hd. eexists _, _. rewrite generate_Ok by lia.
    split_and!; try done; by apply Z.mod_pos_bound.
  - intros Hd. eexists _, _. rewrite generate_Ok by lia.
    split; [done|]. by apply Z.mod_neg_bound.
  - intros Hd. unfold Generator.generate. by rewrite decide_True.
Qed.

Lemma generate_in_range_witness :
  let g := Generator.__init__ 65 16807 2147483647 in
  0 < Generator._divisor g
  ∧ ∃ v g', Generator.generate g = Ok (v, g') ∧ 0 ≤ v < Generator._divisor g.
Proof.
  intros g. assert (0 < Generator._divisor g) as Hd by (vm_compute; reflexivity).
  split; [exact Hd|].
  destruct (proj1 (generate_in_range g) Hd) as (v & g' & Hgen & Hv & _).
  exists v, g'. split; [exact Hgen|exact Hv].
Defined.

Lemma generated_spec n g :
  Generator._divisor g ≠ 0 →
  ∃ g', generated n g
        = Ok ((λ i, (Generator._current g * Generator._factor g ^ Z.of_nat (S i))
                      mod Generator._divisor g) <$> seq 0 n, g')
    ∧ Generator._start g' = Generator._start g
    ∧ Generator._factor g' = Generator._factor g
    ∧ Generator._divisor g' = Generator._divisor g
    ∧ Generator._current g'
      = match n with
        | O => Generator._current g
        | S _ => (Generator._current g * Generator._factor g ^ Z.of_nat n)
                   mod Generator._divisor g
        end.
Proof.
  revert g. induction n as [|n IH]; intros g Hd; [by exists g|].
  cbn [generated]. rewrite generate_Ok by done.
  set (g1 := Generator.mk _ _ _ _).
  destruct (IH g1 Hd) as (g' & Hgen & Hs & Hf & Hdiv & Hc).
  change (Ok (?v, g1) ≫= ?f) with (f (v, g1)). cbn beta iota.
  rewrite Hgen. exists g'. split_and!; [|done..|].
  - cbn [mbind result_bind seq fmap list_fmap]. do 3 f_equal.
    + by rewrite Z.pow_1_r.
    + rewrite <- fmap_S_seq, <- list_fmap_compose. apply list_fmap_ext.
      intros _ i _. cbn [compose g1 Generator._current Generator._factor
                            Generator._divisor].
      rewrite Z.mul_mod_idemp_l by done. f_equal.
      rewrite (Nat2Z.inj_succ (S i)), Z.pow_succ_r by lia. lia.
  - rewrite Hc. destruct n as [|n]; cbn [g1 Generator._current Generator._factor
                                           Generator._divisor].
    + by rewrite Z.pow_1_r.
    + rewrite Z.mul_mod_idemp_l by done. f_equal.
      rewrite (Nat2Z.inj_succ (S n)), Z.pow_succ_r by lia. lia.
Qed.

(** X14. The values of a generator in closed form: with a divisor that is
    not 0, [n] calls of [generate] return, and the call number [i + 1]
    returns [current * factor^(i+1) mod divisor], which is also the current
    value that the last call leaves. *)
Theorem generate_closed_form n g :
  Generator._divisor g ≠ 0 →
  ∃ g', generated n g
        = Ok ((λ i, (Generator._current g * Generator._factor g ^ Z.of_nat (S i))
                      mod Generator._divisor g) <$> seq 0 n, g')
    ∧ ∀ k, n = S k →
        Generator._current g'
        = (Generator._current g * Generator._factor g ^ Z.of_nat n)
            mod Generator._divisor g.
Proof.
  intros Hd. destruct (generated_spec n g Hd) as (g' & Hgen & _ & _ & _ & Hc).
  exists g'. split; [done|]. intros k ->. done.
Qed.

Lemma generate_closed_form_witness :
  let g := Generator.__init__ 65 16807 2147483647 in
  Generator._divisor g ≠ 0
  ∧ ∃ g', generated 5 g
      = Ok ([1092455; 1181022009; 245556042; 1744312007; 1352636452], g').
Proof.
  intros g. assert (Generator._divisor g ≠ 0) as Hd by (vm_compute; discriminate).
  split; [exact Hd|].
  destruct (generate_closed_form 5 g Hd) as (g' & Hgen & _).
  exists g'. exact Hgen.
Defined.

(** X15. [reset] replays a generator: after any number of [generate] calls
    on a generator that the constructor built with a divisor that is not 0,
    [reset] gives back the constructed state, and the same calls after the
    reset return the same values again. *)
Theorem reset_replays_generator n (start factor divisor : Z) :
  divisor ≠ 0 →
  let g := Generator.__init__ start factor divisor in
  ∃ vs g', generated n g = Ok (vs, g')
    ∧ Generator.reset g' = g
    ∧ generated n (Generator.reset g') = Ok (vs, g').
Proof.
  intros Hd g.
  destruct (generated_spec n g Hd) as (g' & Hgen & Hs & Hf & Hdiv & _).
  eexists _, g'. split; [exact Hgen|].
  assert (Generator.reset g' = g) as Hreset.
  { unfold Generator.reset. rewrite Hs, Hf, Hdiv. done. }
  split; [done|]. by rewrite Hreset.
Qed.

Lemma reset_replays_generator_witness :
  (2147483647 ≠ 0)
  ∧ ∃ vs g', generated 3 (Generator.__init__ 8921 48271 2147483647) = Ok (vs, g')
      ∧ Generator.reset g' = Generator.__init__ 8921 48271 2147483647.
Proof.
  assert (2147483647 ≠ 0) as Hd by discriminate. split; [exact Hd|].
  destruct (reset_replays_generator 3 8921 48271 2147483647 Hd)
    as (vs & g' & Hgen & Hreset & _).
  exists vs, g'. split; [exact Hgen|exact Hreset].
Defined.
End Generators.

Section ScoreCount.
Local Open Scope Z_scope.
Implicit Types (g : Generator.t) (n m : nat).

Lemma filter_length_mono {A : Type} (P Q : A → Prop)
    `{!∀ x, Decision (P x), !∀ x, Decision (Q x)} (l : list A) :
  (∀ x, P x → Q x) → (length (filter P l) ≤ length (filter Q l))%nat.
Proof.
  intros HPQ. induction l as [|x l IH]; [done|].
  rewrite !filter_cons. destruct (decide (P x)) as [HP|HP].
  - rewrite decide_True by auto. cbn. lia.
  - destruct (decide (Q x)); cbn; lia.
Qed.

(** The loop of [score] against the values that the two generators give. *)
Lemma score_loop_spec n ga gb (acc : Z) :
  0 < Generator._divisor ga → 0 < Generator._divisor gb →
  ∃ va vb ga' gb',
    generated n ga = Ok (va, ga') ∧ generated n gb = Ok (vb, gb')
    ∧ length va = n ∧ length vb = n
    ∧ score_loop n ga gb acc
      = Ok (acc + Z.of_nat (length (filter (λ ab, strings_agree ab.1 ab.2)
                                           (zip va vb))), ga', gb')
    ∧ matching_rounds n ga gb
      = Ok (Z.of_nat (length (filter (λ ab, low16 ab.1 = low16 ab.2)
                                     (zip va vb)))).
Proof.
  revert ga gb acc. induction n as [|n IH]; intros ga gb acc Ha Hb.
  - exists [], [], ga, gb. cbn. rewrite Z.add_0_r. by split_and!.
  - cbn [generated score_loop matching_rounds].
    rewrite !generate_Ok by lia.
    set (a := (Generator._current ga * _) mod _).
    set (b := (Generator._current gb * _) mod _).
    set (ga1 := Generator.mk _ a _ _). set (gb1 := Generator.mk _ b _ _).
    assert (0 ≤ a) as Ha0 by (apply Z.mod_pos_bound; lia).
    assert (0 ≤ b) as Hb0 by (apply Z.mod_pos_bound; lia).
    change (Ok (a, ga1) ≫= ?f) with (f (a, ga1)).
    change (Ok (b, gb1) ≫= ?f) with (f (b, gb1)). cbn beta iota.
    change (Ok (b, gb1) ≫= ?f) with (f (b, gb1)). cbn beta iota.
    destruct (IH ga1 gb1 (if decide (strings_agree a b) then acc + 1 else acc) Ha Hb)
      as (va & vb & ga' & gb' & Hga & Hgb & Hla & Hlb & Hscore & Hmatch).
    rewrite Hga, Hgb, Hmatch.
    exists (a :: va), (b :: vb), ga', gb'.
    cbn [mbind result_bind zip zip_with length]. rewrite !filter_cons.
    cbn [fst snd]. split_and!; [done|done|by rewrite Hla|by rewrite Hlb| |].
    + destruct (decide (lower_bits a 16 = lower_bits b 16)) as [Heq|Hne].
      * apply (lower_bits_agree a b Ha0 Hb0) in Heq.
        rewrite decide_True in Hscore by done. rewrite decide_True by done.
        rewrite Hscore. cbn [length]. do 3 f_equal. lia.
      * assert (¬ strings_agree a b) as Hno
          by (intros Hag; by apply (lower_bits_agree a b Ha0 Hb0) in Hag).
        rewrite decide_False in Hscore by done. by rewrite decide_False by done.
    + destruct (decide (low16 a = low16 b)); [|done].
      cbn [length]. do 2 f_equal. lia.
Qed.

Lemma score_loop_acc n ga gb (acc : Z) :
  score_loop n ga gb acc
  = score_loop n ga gb 0 ≫= (λ '(s, ga', gb'), Ok (acc + s, ga', gb')).
Proof.
  revert ga gb acc. induction n as [|n IH]; intros ga gb acc.
  - cbn. by rewrite Z.add_0_r.
  - cbn [score_loop].
    destruct (Generator.generate ga) as [[a ga1]| | |]; [|done..].
    destruct (Generator.generate gb) as [[b gb1]| | |]; [|done..].
    cbn [mbind result_bind].
    destruct (decide (lower_bits a 16 = lower_bits b 16)); [|apply IH].
    rewrite (IH ga1 gb1 (acc + 1)), (IH ga1 gb1 (0 + 1)).
    destruct (score_loop n ga1 gb1 0) as [[[s ga'] gb']| | |]; [|done..].
    cbn. do 3 f_equal. lia.
Qed.

Lemma score_loop_add n m ga gb (acc : Z) :
  score_loop (n + m) ga gb acc
  = score_loop n ga gb acc ≫= (λ '(s, ga', gb'), score_loop m ga' gb' s).
Proof.
  revert ga gb acc. induction n as [|n IH]; intros ga gb acc; [done|].
  cbn [Nat.add score_loop].
  destruct (Generator.generate ga) as [[a ga1]| | |]; [|done..].
  destruct (Generator.generate gb) as [[b gb1]| | |]; [|done..].
  cbn [mbind result_bind].
  destruct (decide (lower_bits a 16 = lower_bits b 16)); apply IH.
Qed.

(** X17. [score] adds up over consecutive runs: for counts [a] and [b] that
    are not negative, [a + b] rounds give the score of [a] rounds plus the
    score of [b] more rounds on the generators as the first run left them,
    and leave the generators as the second run leaves them; an exception in
    either run is the exception of the whole. *)
Theorem score_additive ga gb (a b : Z) :
  0 ≤ a → 0 ≤ b →
  score ga gb (a + b)
  = score ga gb a ≫= (λ '(s1, ga1, gb1),
      score ga1 gb1 b ≫= (λ '(s2, ga2, gb2), Ok (s1 + s2, ga2, gb2))).
Proof.
  intros Ha Hb. unfold score. rewrite Z2Nat.inj_add by done.
  rewrite score_loop_add.
  destruct (score_loop (Z.to_nat a) ga gb 0) as [[[s1 ga1] gb1]| | |]; [|done..].
  cbn [mbind result_bind]. apply score_loop_acc.
Qed.

Lemma score_additive_witness :
  let '(ga, gb) := main_generators 65 8921 in
  0 ≤ 2 ∧ 0 ≤ 3
  ∧ score ga gb (2 + 3)
    = score ga gb 2 ≫= (λ '(s1, ga1, gb1),
        score ga1 gb1 3 ≫= (λ '(s2, ga2, gb2), Ok (s1 + s2, ga2, gb2))).
Proof.
  cbn [main_generators].
  assert (0 ≤ 2) as H2 by lia. assert (0 ≤ 3) as H3 by lia.
  split; [exact H2|]. split; [exact H3|].
  exact (score_additive _ _ 2 3 H2 H3).
Defined.

Lemma generate_zero g :
  Generator._divisor g = 0 → Generator.generate g = ZeroDivisionError.
Proof. intros Hd. unfold Generator.generate. by rewrite decide_True. Qed.

(** X18. The edges of [score]: with a count of rounds that is not positive
    it returns 0 and calls no generator, whatever the divisors are; with at
    least one round it raises [ZeroDivisionError] when the divisor of
    [gen_a] is 0, and also when the divisor of [gen_b] is 0 and that of
    [gen_a] is not. *)
Theorem score_edges ga gb (pairs : Z) :
  (pairs ≤ 0 → score ga gb pairs = Ok (0, ga, gb))
  ∧ (0 < pairs → Generator._divisor ga = 0 →
     score ga gb pairs = ZeroDivisionError)
  ∧ (0 < pairs → Generator._divisor ga ≠ 0 → Generator._divisor gb = 0 →
     score ga gb pairs = ZeroDivisionError).
Proof.
  unfold score. split_and!.
  - intros Hp. by replace (Z.to_nat pairs) with 0%nat by lia.
  - intros Hp Hd. destruct (Z.to_nat pairs) as [|n] eqn:Hn; [lia|].
    cbn [score_loop]. by rewrite (generate_zero ga).
  - intros Hp Hda Hdb. destruct (Z.to_nat pairs) as [|n] eqn:Hn; [lia|].
    cbn [score_loop]. rewrite (generate_Ok ga), (generate_zero gb) by done.
    reflexivity.
Qed.
End ScoreCount.

Lemma score_edges_witness :
  let ga := Generator.__init__ 65 16807 0 in
  let gb := Generator.__init__ 8921 48271 2147483647 in
  (0 < 40000000)%Z ∧ Generator._divisor ga = 0%Z
  ∧ score ga gb 40000000 = ZeroDivisionError.
Proof.
  intros ga gb.
  assert (0 < 40000000)%Z as Hp by lia.
  assert (Generator._divisor ga = 0%Z) as Hd by reflexivity.
  split; [exact Hp|]. split; [exact Hd|].
  exact (proj1 (proj2 (score_edges ga gb 40000000)) Hp Hd).
Defined.

(** ** The parser of the initial conditions *)

Section Parsing.
Local Open Scope char_scope.

Lemma str_find_None (c : ascii) (s : str) : str_find c s = None ↔ c ∉ s.
Proof.
  induction s as [|x s IH]; simpl.
  - split; [intros _; apply not_elem_of_nil | done].
  - destruct (decide (x = c)) as [->|Hne].
    + split; [done | intros []; left].
    + rewrite fmap_None, IH, not_elem_of_cons. split; [by split | by intros [_ ?]].
Qed.

Lemma str_find_app (c : ascii) (pre post : str) :
  c ∉ pre → str_find c (pre ++ c :: post) = Some (length pre).
Proof.
  induction pre as [|x pre IH]; simpl; intros Hpre.
  - by rewrite decide_True.
  - apply not_elem_of_cons in Hpre as [Hx Hpre].
    rewrite decide_False by done. by rewrite IH.
Qed.

Lemma str_find_Some (c : ascii) (s : str) (i : nat) :
  str_find c s = Some i → s !! i = Some c ∧ c ∉ take i s.
Proof.
  revert i. induction s as [|x s IH]; simpl; intros i Hi; [done|].
  destruct (decide (x = c)) as [->|Hne].
  - injection Hi as <-. split; [done | apply not_elem_of_nil].
  - apply fmap_Some in Hi as (k & Hk & ->).
    destruct (IH _ Hk) as [Hl Hn]. split; [done|].
    simpl. apply not_elem_of_cons. by split.
Qed.

Lemma slice_between (pre body suf : str) (c d : ascii) :
  slice (S (length pre)) (length (pre ++ c :: body))
        (pre ++ c :: body ++ d :: suf) = body.
Proof.
  unfold slice. rewrite length_app. simpl.
  replace (length pre + S (length body) - S (length pre)) with (length body)
    by lia.
  change (pre ++ c :: body ++ d :: suf) with (pre ++ [c] ++ body ++ d :: suf).
  rewrite app_assoc.
  replace (S (length pre)) with (length (pre ++ [c]))
    by (rewrite length_app; simpl; lia).
  rewrite drop_app_length. by rewrite take_app_length.
Qed.

Lemma slice_backwards (i j : nat) (s : str) : j ≤ i → slice i j s = [].
Proof.
  intros Hle. unfold slice. by replace (j - i) with 0 by lia.
Qed.

Lemma split_char_app (sep : ascii) (w rest : str) :
  sep ∉ w → split_char sep (w ++ sep :: rest) = w :: split_char sep rest.
Proof.
  induction w as [|c w IH]; simpl; intros Hw.
  - by rewrite decide_True.
  - apply not_elem_of_cons in Hw as [Hc Hw].
    rewrite decide_False by done. by rewrite IH.
Qed.

Lemma split_char_single (sep : ascii) (w : str) :
  sep ∉ w → split_char sep w = [w].
Proof.
  induction w as [|c w IH]; simpl; intros Hw; [done|].
  apply not_elem_of_cons in Hw as [Hc Hw].
  rewrite decide_False by done. by rewrite IH.
Qed.

Lemma split_char_join (sep : ascii) (ws : list str) :
  ws ≠ [] → Forall (λ w, sep ∉ w) ws →
  split_char sep (join_with [sep] ws) = ws.
Proof.
  intros Hne Hws. induction Hws as [|w ws Hw Hws IH]; [done|].
  destruct ws as [|w' ws].
  - simpl. by apply split_char_single.
  - change (join_with [sep] (w :: w' :: ws))
      with (w ++ sep :: join_with [sep] (w' :: ws)).
    rewrite split_char_app by done. by rewrite IH.
Qed.

Lemma push_char_nonempty (c : ascii) (pieces : list str) :
  push_char c pieces ≠ [].
Proof. by destruct pieces. Qed.

Lemma split_char_nonempty (sep : ascii) (s : str) : split_char sep s ≠ [].
Proof.
  destruct s as [|c s]; simpl; [done|].
  destruct (decide (c = sep)); [done | apply push_char_nonempty].
Qed.

Lemma split_comma_space_nonempty (s : str) : split_comma_space s ≠ [].
Proof.
  destruct s as [|c [|c' s]]; [done..|].
  change (split_comma_space (c :: c' :: s))
    with (if decide (c = "," ∧ c' = " ")
          then [] :: split_comma_space s
          else push_char c (split_comma_space (c' :: s))).
  destruct (decide _); [done | apply push_char_nonempty].
Qed.

Lemma split_comma_space_app (w rest : str) :
  comma_space_free w →
  split_comma_space (w ++ "," :: " " :: rest) = w :: split_comma_space rest.
Proof.
  induction w as [|c w IH]; intros Hw.
  - reflexivity.
  - destruct Hw as [Hc Hw]. specialize (IH Hw).
    destruct w as [|c' w].
    + change (split_comma_space ([c] ++ "," :: " " :: rest))
        with (if decide (c = "," ∧ "," = " ")
              then [] :: split_comma_space (" " :: rest)
              else push_char c (split_comma_space ([] ++ "," :: " " :: rest))).
      rewrite decide_False by (intros [_ ?]; done).
      by rewrite IH.
    + change (split_comma_space ((c :: c' :: w) ++ "," :: " " :: rest))
        with (if decide (c = "," ∧ c' = " ")
              then [] :: split_comma_space (w ++ "," :: " " :: rest)
              else push_char c
                     (split_comma_space ((c' :: w) ++ "," :: " " :: rest))).
      rewrite decide_False.
      * by rewrite IH.
      * intros [-> ->]. by apply Hc.
Qed.

Lemma split_comma_space_single (w : str) :
  comma_space_free w → split_comma_space w = [w].
Proof.
  induction w as [|c w IH]; intros Hw; [done|].
  destruct Hw as [Hc Hw]. specialize (IH Hw).
  destruct w as [|c' w]; [done|].
  change (split_comma_space (c :: c' :: w))
    with (if decide (c = "," ∧ c' = " ")
          then [] :: split_comma_space w
          else push_char c (split_comma_space (c' :: w))).
  rewrite decide_False.
  - by rewrite IH.
  - intros [-> ->]. by apply Hc.
Qed.

Lemma split_comma_space_join (ws : list str) :
  ws ≠ [] → Forall comma_space_free ws →
  split_comma_space (join_with [","; " "] ws) = ws.
Proof.
  intros Hne Hws. induction Hws as [|w ws Hw Hws IH]; [done|].
  destruct ws as [|w' ws].
  - simpl. by apply split_comma_space_single.
  - change (join_with [","; " "] (w :: w' :: ws))
      with (w ++ "," :: " " :: join_with [","; " "] (w' :: ws)).
    rewrite split_comma_space_app by done. by rewrite IH.
Qed.

Lemma map_result_Ok {A B : Type} (f : A → result B) (l : list A) (r : list B) :
  map_result f l = Ok r ↔ Forall2 (λ x y, f x = Ok y) l r.
Proof.
  revert r. induction l as [|x l IH]; simpl; intros r.
  - split.
    + intros [= <-]. constructor.
    + intros H. by inversion H.
  - split.
    + destruct (f x) as [y| | |] eqn:Hx; simpl; try done.
      destruct (map_result f l) as [ys| | |] eqn:Hl; simpl; try done.
      intros [= <-]. constructor; [done | by apply IH].
    + intros H. inversion H as [|? y ? ys Hx Hl]; subst.
      rewrite Hx. simpl. apply IH in Hl. by rewrite Hl.
Qed.

Lemma map_result_fmap {A B : Type} (f : A → result B) (g : A → B) (l : list A) :
  Forall (λ x, f x = Ok (g x)) l → map_result f l = Ok (g <$> l).
Proof.
  intros Hl. apply map_result_Ok. induction Hl; simpl; by constructor.
Qed.

Lemma map_result_app {A B : Type} (f : A → result B) (l1 l2 : list A) :
  map_result f (l1 ++ l2)
  = r1 ← map_result f l1; r2 ← map_result f l2; Ok (r1 ++ r2).
Proof.
  induction l1 as [|x l1 IH]; simpl.
  - by destruct (map_result f l2).
  - destruct (f x) as [y| | |]; simpl; try done.
    rewrite IH. destruct (map_result f l1) as [ys| | |]; simpl; try done.
    by destruct (map_result f l2).
Qed.

Lemma map_result_length {A B : Type} (f : A → result B) (l : list A) r :
  map_result f l = Ok r → length r = length l.
Proof.
  intros H. apply map_result_Ok in H. symmetry. by eapply Forall2_length.
Qed.

Context (int : str → result Z).

Lemma parse_vector_brackets (pre body suf : str) :
  "<" ∉ pre → ">" ∉ pre → ">" ∉ body →
  parse_vector int (pre ++ "<" :: body ++ ">" :: suf)
  = map_result int (split_char "," body).
Proof.
  intros Hlt Hgt Hbody. unfold parse_vector, str_index.
  rewrite str_find_app by done. simpl.
  change (pre ++ "<" :: body ++ ">" :: suf)
    with (pre ++ ("<" :: body) ++ ">" :: suf).
  rewrite (app_assoc pre ("<" :: body) (">" :: suf)).
  rewrite str_find_app.
  - simpl. rewrite <- app_assoc. simpl. by rewrite slice_between.
  - rewrite elem_of_app, elem_of_cons. by intros [?|[?|?]].
Qed.

Lemma parse_vector_Ok (cond : str) (v : list Z) :
  parse_vector int cond = Ok v →
  "<" ∈ cond ∧ ">" ∈ cond ∧ v ≠ [].
Proof.
  unfold parse_vector, str_index.
  destruct (str_find "<" cond) as [i|] eqn:Hi; simpl; [|done].
  destruct (str_find ">" cond) as [j|] eqn:Hj; simpl; [|done].
  intros Hv. split_and!.
  - destruct (decide ("<" ∈ cond)) as [|Hn]; [done|].
    apply str_find_None in Hn. congruence.
  - destruct (decide (">" ∈ cond)) as [|Hn]; [done|].
    apply str_find_None in Hn. congruence.
  - intros ->. apply map_result_length in Hv.
    pose proof (split_char_nonempty "," (slice (S i) j cond)) as Hne.
    by destruct (split_char "," (slice (S i) j cond)).
Qed.

Lemma parse_state_Ok (state : str) (vs : list (list Z)) :
  parse_state int state = Ok vs →
  vs ≠ []
  ∧ Forall (λ v, v ≠ []) vs
  ∧ Forall (λ cond, "<" ∈ cond ∧ ">" ∈ cond) (split_comma_space state).
Proof.
  unfold parse_state. intros Hvs.
  pose proof (split_comma_space_nonempty state) as Hne.
  apply map_result_Ok in Hvs. split_and!.
  - intros ->. inversion Hvs; subst. done.
  - clear Hne. induction Hvs as [|cond v conds vs Hv _ IH]; constructor; [|done].
    by apply parse_vector_Ok in Hv as (_ & _ & ?).
  - clear Hne. induction Hvs as [|cond v conds vs Hv _ IH]; constructor; [|done].
    by apply parse_vector_Ok in Hv as (? & ? & _).
Qed.

Lemma parse_rendered_vector (value : str → Z) (v : str * list str) :
  "<" ∉ v.1 → ">" ∉ v.1 →
  v.2 ≠ [] →
  Forall (λ text, ("," ∉ text) ∧ (">" ∉ text) ∧ int text = Ok (value text))
         v.2 →
  parse_vector int (render_vector v) = Ok (value <$> v.2).
Proof.
  destruct v as [label texts]. simpl. intros Hlt Hgt Hne Htexts.
  unfold render_vector. simpl.
  change (label ++ "<" :: join_with [","] texts ++ [">"])
    with (label ++ "<" :: join_with [","] texts ++ ">" :: []).
  rewrite parse_vector_brackets; [|done..|].
  - rewrite split_char_join.
    + apply map_result_fmap. eapply Forall_impl; [exact Htexts|].
      by intros text (_ & _ & ?).
    + done.
    + eapply Forall_impl; [exact Htexts|]. by intros text (? & _).
  - clear Hne. induction Htexts as [|text texts (_ & Htext & _) Htexts IH].
    + apply not_elem_of_nil.
    + destruct texts as [|text' texts]; [done|].
      change (join_with [","] (text :: text' :: texts))
        with (text ++ "," :: join_with [","] (text' :: texts)).
      rewrite elem_of_app, elem_of_cons. intros [?|[?|?]]; [done..|].
      by apply IH.
Qed.

Lemma parse_vector_no_bracket (cond : str) :
  "<" ∉ cond ∨ ">" ∉ cond → parse_vector int cond = ValueError.
Proof.
  unfold parse_vector, str_index. intros [Hn|Hn]; apply str_find_None in Hn.
  - by rewrite Hn.
  - rewrite Hn. by destruct (str_find "<" cond).
Qed.

Lemma parse_vector_closing_first (pre body suf : str) :
  "<" ∉ pre → ">" ∉ pre → "<" ∉ body →
  parse_vector int (pre ++ ">" :: body ++ "<" :: suf)
  = y ← int []; Ok [y].
Proof.
  intros Hlt Hgt Hbody. unfold parse_vector, str_index.
  rewrite (str_find_app ">") by done.
  change (pre ++ ">" :: body ++ "<" :: suf)
    with (pre ++ (">" :: body) ++ "<" :: suf).
  rewrite (app_assoc pre (">" :: body) ("<" :: suf)).
  rewrite (str_find_app "<").
  - simpl. rewrite slice_backwards by (rewrite length_app; lia).
    simpl. by destruct (int []).
  - rewrite elem_of_app, elem_of_cons. by intros [?|[?|?]].
Qed.

Lemma parse_rendered_state (value : str → Z) (vs : list (str * list str)) :
  vs ≠ [] →
  Forall (λ v : str * list str, ("<" ∉ v.1) ∧ (">" ∉ v.1) ∧ v.2 ≠ []
               ∧ comma_space_free (render_vector v)
               ∧ Forall (λ text, ("," ∉ text) ∧ (">" ∉ text)
                                 ∧ int text = Ok (value text)) v.2) vs →
  parse_state int (render_state vs)
  = Ok ((λ v : str * list str, value <$> v.2) <$> vs).
Proof.
  intros Hne Hvs. unfold parse_state, render_state.
  rewrite split_comma_space_join.
  - apply map_result_Ok. clear Hne.
    induction Hvs as [|v vs (Hlt & Hgt & Hv & _ & Htexts) _ IH]; simpl;
      constructor; [|done].
    by apply parse_rendered_vector.
  - by destruct vs.
  - clear Hne. induction Hvs as [|v vs (_ & _ & _ & Hfree & _) _ IH]; simpl;
      by constructor.
Qed.

(** X21. In a part of a line the parser reads what stands between the first
    ['<'] and the first ['>'] after it, cut at the commas, whatever stands
    before and behind: a ['<'] inside the brackets belongs to the first
    number.  A part without ['<'] or without ['>'] raises [ValueError],
    whatever [int] does.  When the first ['>'] stands before the first ['<']
    the slice is empty and [int] is called once, on the empty string. *)
Theorem parse_vector_reads_between_brackets (pre body suf cond : str) :
  (("<" ∉ pre) → (">" ∉ pre) → (">" ∉ body) →
   parse_vector int (pre ++ "<" :: body ++ ">" :: suf)
   = map_result int (split_char "," body))
  ∧ (("<" ∉ cond) ∨ (">" ∉ cond) → parse_vector int cond = ValueError)
  ∧ (("<" ∉ pre) → (">" ∉ pre) → ("<" ∉ body) →
     parse_vector int (pre ++ ">" :: body ++ "<" :: suf)
     = y ← int []; Ok [y]).
Proof.
  split_and!.
  - apply parse_vector_brackets.
  - apply parse_vector_no_bracket.
  - apply parse_vector_closing_first.
Qed.

(** X22. The parser reads back a text in its format: when every line is a
    list of vectors [label<t1,...,tn>] joined by [", "], with at least one
    vector in a line and one text in a vector, no ['<'] or ['>'] in a label,
    no comma or ['>'] in a text, no comma followed by a space in a vector,
    and [int] reads every text, then [parse_initial_conditions] returns the
    numbers of the texts, line by line and vector by vector. *)
Theorem parse_initial_conditions_reads_rendered
    (value : str → Z) (lines : list (list (str * list str))) :
  Forall (λ vs : list (str * list str), vs ≠ []
    ∧ Forall (λ v : str * list str, ("<" ∉ v.1) ∧ (">" ∉ v.1) ∧ v.2 ≠ []
                   ∧ comma_space_free (render_vector v)
                   ∧ Forall (λ text, ("," ∉ text) ∧ (">" ∉ text)
                                     ∧ int text = Ok (value text)) v.2) vs)
    lines →
  parse_initial_conditions int (render_state <$> lines)
  = Ok ((λ vs : list (str * list str),
           (λ v : str * list str, value <$> v.2) <$> vs) <$> lines).
Proof.
  intros Hlines. unfold parse_initial_conditions.
  apply map_result_Ok.
  induction Hlines as [|vs lines [Hne Hvs] _ IH]; simpl; constructor; [|done].
  by apply parse_rendered_state.
Qed.

(** X23. When [parse_initial_conditions] returns, it returns one entry for
    each line, every entry has at least one vector and every vector at
    least one number; no line was empty, and every part of every line had a
    ['<'] and a ['>']. *)
Theorem parse_initial_conditions_shape
    (states : list str) (r : list (list (list Z))) :
  parse_initial_conditions int states = Ok r →
  length r = length states
  ∧ Forall (λ vs, vs ≠ [] ∧ Forall (λ v, v ≠ []) vs) r
  ∧ Forall (λ state, state ≠ []
              ∧ Forall (λ cond, "<" ∈ cond ∧ ">" ∈ cond)
                       (split_comma_space state)) states.
Proof.
  unfold parse_initial_conditions. intros Hr. split_and!.
  - by eapply map_result_length.
  - apply map_result_Ok in Hr.
    induction Hr as [|state vs states r Hvs _ IH]; constructor; [|done].
    by apply parse_state_Ok in Hvs as (? & ? & _).
  - apply map_result_Ok in Hr.
    induction Hr as [|state vs states r Hvs _ IH]; constructor; [|done].
    apply parse_state_Ok in Hvs as (_ & _ & Hparts). split; [|done].
    intros ->. simpl in Hparts. apply Forall_cons in Hparts as [[Hlt _] _].
    by apply elem_of_nil in Hlt.
Qed.

(** X24. The lines are parsed one after the other and on their own: the
    result for two inputs in a row is the two results in a row, and the
    first exception is the exception of the whole.  An empty line raises
    [ValueError] once the lines before it are parsed, whatever follows. *)
Theorem parse_initial_conditions_by_line
    (states1 states2 : list str) (r1 : list (list (list Z))) :
  parse_initial_conditions int (states1 ++ states2)
  = (r1 ← parse_initial_conditions int states1;
     r2 ← parse_initial_conditions int states2;
     Ok (r1 ++ r2))
  ∧ (parse_initial_conditions int states1 = Ok r1 →
     parse_initial_conditions int (states1 ++ [] :: states2) = ValueError)
  ∧ (∀ e, parse_initial_conditions int states1 = e → ¬ is_ok e →
          parse_initial_conditions int (states1 ++ states2) = e).
Proof.
  unfold parse_initial_conditions. split_and!.
  - apply map_result_app.
  - intros Hr1. rewrite map_result_app, Hr1. reflexivity.
  - intros e <- He. rewrite map_result_app.
    by destruct (map_result (parse_state int) states1).
Qed.

End Parsing.

Lemma parse_vector_reads_between_brackets_witness :
  let s := String.list_ascii_of_string in
  parse_vector read_decimal (s "p=<3,0,0>") = Ok [3; 0; 0]%Z
  ∧ parse_vector read_decimal (s "p=3,0,0>") = ValueError
  ∧ parse_vector read_decimal (s "p>3,0,0<") = ValueError.
Proof.
  intros s.
  pose proof (parse_vector_reads_between_brackets read_decimal) as H.
  split_and!.
  - refine (proj1 (H (s "p=") (s "3,0,0") [] []) _ _ _);
      refine (bool_decide_unpack _ _); vm_compute; exact I.
  - refine (proj1 (proj2 (H [] [] [] (s "p=3,0,0>"))) _).
    left. refine (bool_decide_unpack _ _); vm_compute; exact I.
  - refine (proj2 (proj2 (H (s "p") (s "3,0,0") [] [])) _ _ _);
      refine (bool_decide_unpack _ _); vm_compute; exact I.
Defined.

Lemma parse_initial_conditions_reads_rendered_witness :
  let s := String.list_ascii_of_string in
  parse_initial_conditions read_decimal
    [ s "p=<3,0,0>, v=<2,0,0>, a=<-1,0,0>";
      s "p=<4,0,0>, v=<0,0,0>, a=<-2,0,0>" ]
  = Ok [ [[3; 0; 0]; [2; 0; 0]; [-1; 0; 0]];
         [[4; 0; 0]; [0; 0; 0]; [-2; 0; 0]] ]%Z.
Proof.
  refine (parse_initial_conditions_reads_rendered read_decimal decimal_value
            scenario_1_text _).
  unfold scenario_1_text.
  repeat first [apply Forall_nil_2 | apply Forall_cons_2 | apply conj];
    try done; try reflexivity;
    refine (bool_decide_unpack _ _); vm_compute; exact I.
Defined.

Lemma parse_initial_conditions_shape_witness :
  let s := String.list_ascii_of_string in
  ∃ r, parse_initial_conditions read_decimal [s "p=<3,0,0>, v=<2,0,0>"] = Ok r
    ∧ length r = 1.
Proof.
  intros s. eexists. split; [reflexivity|].
  refine (proj1 (parse_initial_conditions_shape read_decimal
                   [s "p=<3,0,0>, v=<2,0,0>"] _ _)).
  reflexivity.
Defined.

Lemma parse_initial_conditions_by_line_witness :
  let s := String.list_ascii_of_string in
  parse_initial_conditions read_decimal [s "p=<3,0,0>"; []; s "p=<4,0,0>"]
  = ValueError.
Proof.
  intros s.
  refine (proj1 (proj2 (parse_initial_conditions_by_line read_decimal
                          [s "p=<3,0,0>"] [s "p=<4,0,0>"] [[[3; 0; 0]]]%Z)) _).
  reflexivity.
Defined.

(** ** The arithmetic of numpy, where it is exact *)

Section NumpyExact.
Local Open Scope Z_scope.

(** The operations on [Np.f64] against the binary64 operations of the
    Standard Library, where sums and conversions round: at a tie to the
    even neighbour, upwards and downwards, for both signs, and with a half
    in the sum. *)
Example float64_is_binary64 :
  let binary64_of_int := λ z, SpecFloat.binary_normalize 53 1024 z 0 false in
  let binary64_add := SpecFloat.SFadd 53 1024 in
  let binary64_div := SpecFloat.SFdiv 53 1024 in
  Forall (λ z, Np.to_spec (Np.of_int z) = binary64_of_int z)
    [0; 1; -1; 2 ^ 53; 2 ^ 53 + 1; 2 ^ 53 + 3; - (2 ^ 53 + 1); 2 ^ 62 + 512;
     2 ^ 62 + 513; 2 ^ 63 - 1; - 2 ^ 63]
  ∧ Forall (λ ab : Z * Z,
              Np.to_spec (Np.add (Np.Fin ab.1) (Np.Fin ab.2))
              = binary64_add (Np.to_spec (Np.Fin ab.1)) (Np.to_spec (Np.Fin ab.2)))
      [(2 ^ 54, 2); (2 ^ 54, 6); (2 ^ 54, 1); (2 ^ 54, 3); (2 ^ 55, 5);
       (- (2 ^ 54 + 2), 1); (- 2 ^ 54, 2 ^ 54); (3, 4); (2 ^ 60 + 1, 2 ^ 60 - 1);
       (2 ^ 64, - 3)]
  ∧ Forall (λ z, Np.to_spec (Np.int_half z)
                 = binary64_div (binary64_of_int z) (binary64_of_int 2))
      [0; 1; 7; -7; 2 ^ 53 + 5; - 2 ^ 63; 2 ^ 62 + 513]
  ∧ Forall (λ ab : Z * Z,
              Np.ltb (Np.Fin ab.1) (Np.Fin ab.2)
              = SpecFloat.SFltb (Np.to_spec (Np.Fin ab.1)) (Np.to_spec (Np.Fin ab.2))
              ∧ Np.eqb (Np.Fin ab.1) (Np.Fin ab.2)
                = SpecFloat.SFeqb (Np.to_spec (Np.Fin ab.1))
                    (Np.to_spec (Np.Fin ab.2)))
      [(3, 4); (4, 3); (3, 3); (0, 0); (-1, 0); (2 ^ 54, 2 ^ 54 + 4)].
Proof.
  intros binary64_of_int binary64_add binary64_div.
  split_and!;
    repeat first [apply Forall_nil_2 | apply Forall_cons_2 | apply conj];
    vm_compute; reflexivity.
Qed.

Lemma wrap_exact (z : Z) : Np.int64 z → Np.wrap z = z.
Proof.
  unfold Np.int64, Np.wrap. intros Hz.
  rewrite Z.mod_small; lia.
Qed.

Lemma wrap_int64 (z : Z) : Np.int64 (Np.wrap z).
Proof.
  unfold Np.int64, Np.wrap.
  pose proof (Z.mod_pos_bound (z + 2 ^ 63) (2 ^ 64)). lia.
Qed.

Lemma pow2_53_1025 : 2 ^ 53 < 2 ^ 1025.
Proof. apply Z.pow_lt_mono_r; lia. Qed.

Lemma round_magnitude_exact (n : Z) :
  0 ≤ n < 2 ^ 53 → Np.round_magnitude n = n.
Proof.
  intros Hn. unfold Np.round_magnitude.
  rewrite decide_True; [done|].
  destruct (decide (n = 0)) as [->|Hne]; [by vm_compute|].
  assert (Z.log2 n < 53); [|lia].
  apply Z.log2_lt_pow2; lia.
Qed.

(** A number of at most 53 bits is a [float64]: it is not rounded. *)
Lemma round_exact (n : Z) : Z.abs n < 2 ^ 53 → Np.round n = Np.Fin n.
Proof.
  intros Hn. unfold Np.round.
  rewrite round_magnitude_exact by lia.
  pose proof pow2_53_1025 as Hmax. revert Hmax.
  generalize (2 ^ 1025). intros top Hmax.
  rewrite decide_False by lia.
  f_equal. lia.
Qed.

Lemma of_int_exact (z : Z) : Z.abs z < 2 ^ 52 → Np.of_int z = Np.Fin (2 * z).
Proof. intros Hz. unfold Np.of_int. apply round_exact. lia. Qed.

Lemma int_half_exact (z : Z) : Z.abs z < 2 ^ 52 → Np.int_half z = Np.Fin z.
Proof.
  intros Hz. unfold Np.int_half. rewrite of_int_exact by done.
  by rewrite Z.mul_comm, Z.div_mul.
Qed.

Lemma add_exact (m n : Z) :
  Z.abs (m + n) < 2 ^ 53 → Np.add (Np.Fin m) (Np.Fin n) = Np.Fin (m + n).
Proof. intros H. unfold Np.add. by apply round_exact. Qed.

Lemma magnitude_products (T T1 X V A B : Z) :
  0 ≤ T → 0 ≤ T1 ≤ T + 1 → 0 ≤ X → 0 ≤ V → 0 ≤ A →
  X + (T + 1) * V + (T + 1) * (T + 1) * A ≤ B →
  0 ≤ T * V ∧ 0 ≤ T * A ∧ 0 ≤ T1 * (T * A)
  ∧ V + T * A ≤ B
  ∧ X + T * V + T1 * (T * A) ≤ B.
Proof.
  intros HT HT1 HX HV HA HB.
  assert (0 ≤ T * V) by (apply Z.mul_nonneg_nonneg; lia).
  assert (0 ≤ T * A) by (apply Z.mul_nonneg_nonneg; lia).
  assert (0 ≤ T1 * (T * A)) by (apply Z.mul_nonneg_nonneg; lia).
  assert (T * A ≤ (T + 1) * A) by (apply Z.mul_le_mono_nonneg_r; lia).
  assert (T1 * (T * A) ≤ (T + 1) * ((T + 1) * A)).
  { apply Z.mul_le_mono_nonneg; lia. }
  assert (0 ≤ (T + 1) * A) by (apply Z.mul_nonneg_nonneg; lia).
  assert ((T + 1) * A ≤ (T + 1) * ((T + 1) * A)).
  { rewrite <- (Z.mul_1_l ((T + 1) * A)) at 1.
    apply Z.mul_le_mono_nonneg_r; lia. }
  assert (0 ≤ (T + 1) * V) by (apply Z.mul_nonneg_nonneg; lia).
  assert (T * V ≤ (T + 1) * V) by (apply Z.mul_le_mono_nonneg_r; lia).
  assert (V ≤ (T + 1) * V).
  { rewrite <- (Z.mul_1_l V) at 1. apply Z.mul_le_mono_nonneg_r; lia. }
  rewrite <- Z.mul_assoc in HB.
  split_and!; lia.
Qed.

(** One component of [Particle.update]: the position [x], the velocity [v]
    and the acceleration [a], in the range of the exact arithmetic. *)
Lemma magnitude_bounds (t x v a : Z) :
  Np.magnitude t x v a ≤ 2 ^ 51 →
  Z.abs (t * v) ≤ 2 ^ 51
  ∧ Z.abs (t * a) ≤ 2 ^ 51
  ∧ Z.abs ((t + 1) * (t * a)) ≤ 2 ^ 51
  ∧ Z.abs (x + t * v) ≤ 2 ^ 51
  ∧ Z.abs (v + t * a) ≤ 2 ^ 51
  ∧ Z.abs (x + t * v) + Z.abs ((t + 1) * (t * a)) ≤ 2 ^ 51.
Proof.
  unfold Np.magnitude. intros H.
  pose proof (Z.abs_triangle x (t * v)) as Hxv.
  pose proof (Z.abs_triangle v (t * a)) as Hva.
  revert Hxv Hva. rewrite !Z.abs_mul.
  assert (Z.abs (t + 1) ≤ Z.abs t + 1) as Ht1 by lia.
  pose proof (Z.abs_nonneg (t + 1)) as Ht0.
  revert H Ht1 Ht0.
  generalize (Z.abs_nonneg x) (Z.abs_nonneg v) (Z.abs_nonneg a) (Z.abs_nonneg t).
  generalize (Z.abs (x + t * v)) (Z.abs (v + t * a)) (Z.abs (t + 1)).
  generalize (Z.abs x) (Z.abs v) (Z.abs a) (Z.abs t).
  generalize (2 ^ 51).
  intros B X V A T XV VA T1 HX HV HA HT H Ht1 Ht0 Hxv Hva.
  destruct (magnitude_products T T1 X V A B) as (? & ? & ? & ? & ?);
    [lia..|].
  split_and!; lia.
Qed.

Lemma component_exact (t x v a : Z) :
  Np.magnitude t x v a ≤ 2 ^ 51 →
  let w := (t + 1) * (t * a) in
  Np.wrap (t * v) = t * v
  ∧ Np.wrap (t * a) = t * a
  ∧ Np.wrap w = w
  ∧ Np.int_half w = Np.Fin w
  ∧ Np.wrap (x + t * v) = x + t * v
  ∧ Np.add (Np.of_int (x + t * v)) (Np.Fin w)
    = Np.Fin (2 * (x + t * v + w / 2))
  ∧ Np.add (Np.add (Np.Fin (2 * x)) (Np.of_int (t * v))) (Np.Fin w)
    = Np.Fin (2 * (x + t * v + w / 2))
  ∧ Np.wrap (v + t * a) = v + t * a.
Proof.
  intros H w. pose proof (half_exact t a) as Hw. fold w in Hw.
  destruct (magnitude_bounds t x v a H) as (Htv & Hta & Htw & Hxv & Hva & Hsum).
  fold w in Htw, Hsum.
  assert (Z.abs x ≤ 2 ^ 51) as Hx.
  { unfold Np.magnitude in H.
    pose proof (Z.abs_nonneg t). pose proof (Z.abs_nonneg v).
    pose proof (Z.abs_nonneg a).
    assert (0 ≤ (Z.abs t + 1) * Z.abs v) as Hv0
      by (apply Z.mul_nonneg_nonneg; lia).
    assert (0 ≤ (Z.abs t + 1) * (Z.abs t + 1) * Z.abs a) as Ha0
      by (repeat apply Z.mul_nonneg_nonneg; lia).
    revert H Hv0 Ha0.
    generalize ((Z.abs t + 1) * (Z.abs t + 1) * Z.abs a)
      ((Z.abs t + 1) * Z.abs v) (2 ^ 51).
    intros; lia. }
  change (2 ^ 51) with 2251799813685248 in *.
  split_and!.
  - apply wrap_exact. unfold Np.int64. change (2 ^ 63) with 9223372036854775808. lia.
  - apply wrap_exact. unfold Np.int64. change (2 ^ 63) with 9223372036854775808. lia.
  - apply wrap_exact. unfold Np.int64. change (2 ^ 63) with 9223372036854775808. lia.
  - apply int_half_exact. change (2 ^ 52) with 4503599627370496. lia.
  - apply wrap_exact. unfold Np.int64. change (2 ^ 63) with 9223372036854775808. lia.
  - rewrite of_int_exact by (change (2 ^ 52) with 4503599627370496; lia).
    rewrite add_exact by (change (2 ^ 53) with 9007199254740992; lia).
    f_equal. lia.
  - rewrite of_int_exact by (change (2 ^ 52) with 4503599627370496; lia).
    rewrite add_exact by (change (2 ^ 53) with 9007199254740992; lia).
    rewrite add_exact by (change (2 ^ 53) with 9007199254740992; lia).
    f_equal. lia.
  - apply wrap_exact. unfold Np.int64. change (2 ^ 63) with 9223372036854775808. lia.
Qed.

(** In its range the update of the program computes the closed form in
    exact integers, and leaves the position as a [float64] array. *)
Lemma update_exact (t : Z) (p : Np.particle) (P : Particle.t) :
  Np.exact p P → Np.in_range t P →
  Np.update t p = Some (Np.floated (Particle.update t P)).
Proof.
  intros (Hid & Hpos & Hvel & Hacc) (Ht & Hx & Hy & Hz).
  destruct p as [i a v c]. destruct P as [I [x1 x2 x3] [v1 v2 v3] [a1 a2 a3]].
  cbn in Hid, Hpos, Hvel, Hacc, Hx, Hy, Hz. subst i v c.
  destruct (component_exact t x1 v1 a1 Hx)
    as (X1 & X2 & X3 & X4 & X5 & X6 & X7 & X8).
  destruct (component_exact t x2 v2 a2 Hy)
    as (Y1 & Y2 & Y3 & Y4 & Y5 & Y6 & Y7 & Y8).
  destruct (component_exact t x3 v3 a3 Hz)
    as (Z1 & Z2 & Z3 & Z4 & Z5 & Z6 & Z7 & Z8).
  unfold Np.update. rewrite decide_True.
  2:{ unfold Np.int64. change (2 ^ 51) with 2251799813685248 in Ht.
      change (2 ^ 63) with 9223372036854775808. lia. }
  f_equal. unfold Np.floated, Particle.update, Np.float_array.
  cbn [Np.id Np.pos Np.vel Np.acc Particle.id Particle.pos Particle.vel
       Particle.acc].
  unfold Np.int_mul, Np.wrap3, Np.true_divide_2, vscale, vadd, vhalf.
  cbn [vx vy vz].
  rewrite X2, Y2, Z2, X3, Y3, Z3, X4, Y4, Z4, X1, Y1, Z1, X8, Y8, Z8.
  f_equal.
  destruct Hpos as [->| ->]; unfold Np.array_add, Np.float_array, Np.to_float,
    Np.wrap3, vadd; cbn [vx vy vz Np.fx Np.fy Np.fz].
  - by rewrite X5, Y5, Z5, X6, Y6, Z6.
  - by rewrite X7, Y7, Z7.
Qed.

Lemma magnitude_step_products (n k X V A Y : Z) :
  0 ≤ k < n → 0 ≤ X → 0 ≤ V → 0 ≤ A → 0 ≤ Y ≤ (k + 1) * (k * A) →
  X + k * V + Y + 2 * (V + k * A) + 4 * A
  ≤ X + (n + 1) * V + (n + 1) * (n + 1) * A.
Proof.
  intros Hk HX HV HA HY.
  assert (0 ≤ k * A) as H0 by (apply Z.mul_nonneg_nonneg; lia).
  assert ((k + 2) * V ≤ (n + 1) * V) as H1
    by (apply Z.mul_le_mono_nonneg_r; lia).
  assert ((k + 2) * ((k + 2) * A) ≤ (n + 1) * ((n + 1) * A)) as H2.
  { apply Z.mul_le_mono_nonneg; [lia..| |].
    - apply Z.mul_nonneg_nonneg; lia.
    - apply Z.mul_le_mono_nonneg_r; lia. }
  replace ((k + 2) * V) with (k * V + 2 * V) in H1 by ring.
  replace ((k + 2) * ((k + 2) * A))
    with ((k + 1) * (k * A) + 3 * (k * A) + 4 * A) in H2 by ring.
  rewrite <- (Z.mul_assoc (n + 1) (n + 1) A).
  revert HY H0 H1 H2.
  generalize ((k + 1) * (k * A)) (k * A) (k * V) ((n + 1) * V)
    ((n + 1) * ((n + 1) * A)).
  intros; lia.
Qed.

Lemma magnitude_step (n k x v a : Z) :
  0 ≤ k < n →
  Np.magnitude 1 (x + k * v + (k + 1) * (k * a) / 2) (v + k * a) a
  ≤ Np.magnitude n x v a.
Proof.
  intros Hk. unfold Np.magnitude.
  pose proof (half_exact k a) as Hh.
  change (Z.abs 1 + 1) with 2. rewrite (Z.abs_eq n) by lia.
  set (h := (k + 1) * (k * a) / 2) in *.
  assert (Z.abs h ≤ (k + 1) * (k * Z.abs a)) as Hhalf.
  { assert (Z.abs ((k + 1) * (k * a)) = (k + 1) * (k * Z.abs a)) as Heq.
    { rewrite !Z.abs_mul, (Z.abs_eq (k + 1)), (Z.abs_eq k) by lia. done. }
    rewrite <- Heq, <- Hh. rewrite Z.abs_mul. change (Z.abs 2) with 2.
    pose proof (Z.abs_nonneg h). lia. }
  pose proof (Z.abs_triangle (x + k * v) h) as T1.
  pose proof (Z.abs_triangle x (k * v)) as T2.
  pose proof (Z.abs_triangle v (k * a)) as T3.
  rewrite Z.abs_mul, (Z.abs_eq k) in T2, T3 by lia.
  pose proof (magnitude_step_products n k (Z.abs x) (Z.abs v) (Z.abs a)
                (Z.abs h) Hk (Z.abs_nonneg x) (Z.abs_nonneg v)
                (Z.abs_nonneg a) (conj (Z.abs_nonneg h) Hhalf)) as Hle.
  revert T1 T2 T3 Hle.
  generalize (Z.abs (x + k * v + h)) (Z.abs (x + k * v)) (Z.abs (v + k * a))
    (Z.abs h) (k * Z.abs v) (k * Z.abs a) ((n + 1) * Z.abs v)
    ((n + 1) * (n + 1) * Z.abs a) (Z.abs x) (Z.abs v) (Z.abs a).
  intros; lia.
Qed.

Lemma in_range_step (n k : nat) (P : Particle.t) :
  (k < n)%nat → Np.in_range (Z.of_nat n) P →
  Np.in_range 1 (Particle.update (Z.of_nat k) P).
Proof.
  intros Hk (Ht & Hx & Hy & Hz).
  destruct P as [I [x1 x2 x3] [v1 v2 v3] [a1 a2 a3]].
  unfold Np.in_range, Particle.update, vadd, vscale, vhalf in *.
  cbn [Particle.id Particle.pos Particle.vel Particle.acc vx vy vz] in *.
  split_and!.
  - by vm_compute.
  - etrans; [apply (magnitude_step (Z.of_nat n)); lia | done].
  - etrans; [apply (magnitude_step (Z.of_nat n)); lia | done].
  - etrans; [apply (magnitude_step (Z.of_nat n)); lia | done].
Qed.

Lemma in_range_0 (n : nat) (P : Particle.t) :
  Np.in_range (Z.of_nat n) P → Np.in_range 0 P.
Proof.
  intros (Ht & Hx & Hy & Hz).
  assert (∀ x v a, Np.magnitude (Z.of_nat n) x v a ≤ 2 ^ 51 →
                   Np.magnitude 0 x v a ≤ 2 ^ 51) as Hm.
  { intros x v a. unfold Np.magnitude. change (Z.abs 0 + 1) with 1.
    rewrite (Z.abs_eq (Z.of_nat n)) by lia. rewrite !Z.mul_1_l.
    pose proof (Z.abs_nonneg v). pose proof (Z.abs_nonneg a).
    assert (Z.abs v ≤ (Z.of_nat n + 1) * Z.abs v).
    { rewrite <- (Z.mul_1_l (Z.abs v)) at 1.
      apply Z.mul_le_mono_nonneg_r; lia. }
    assert (Z.abs a ≤ (Z.of_nat n + 1) * ((Z.of_nat n + 1) * Z.abs a)).
    { rewrite <- (Z.mul_1_l (Z.abs a)) at 1.
      rewrite <- (Z.mul_1_l (1 * Z.abs a)).
      apply Z.mul_le_mono_nonneg; [lia..| |].
      - lia.
      - apply Z.mul_le_mono_nonneg_r; lia. }
    rewrite <- (Z.mul_assoc (Z.of_nat n + 1)).
    revert H1 H2.
    generalize ((Z.of_nat n + 1) * Z.abs v)
      ((Z.of_nat n + 1) * ((Z.of_nat n + 1) * Z.abs a)) (2 ^ 51).
    intros; lia. }
  split_and!; [by vm_compute|auto..].
Qed.

Lemma updates_exact (n k : nat) (p : Np.particle) (P : Particle.t) :
  Np.exact p P → Np.in_range (Z.of_nat n) P → (k ≤ n)%nat →
  ∃ q, Np.updates k p = Some q
    ∧ Np.exact q (Particle.update (Z.of_nat k) P)
    ∧ (k ≠ 0%nat → q = Np.floated (Particle.update (Z.of_nat k) P)).
Proof.
  intros Hp Hn. induction k as [|k IH]; intros Hk.
  - exists p. rewrite updated_0. by split_and!.
  - destruct IH as (q & Hq & Hexact & _); [lia|].
    exists (Np.floated (Particle.update (Z.of_nat (S k)) P)).
    cbn [Np.updates]. rewrite Hq. cbn.
    rewrite (update_exact 1 q (Particle.update (Z.of_nat k) P) Hexact)
      by (apply (in_range_step n); [lia|done]).
    rewrite Nat2Z.inj_succ, <- Z.add_1_r, <- updated_succ.
    split_and!; [done| |done].
    unfold Np.exact, Np.floated, Np.exact_array; cbn. split_and!; auto.
Qed.

Lemma floated_equal (p : Np.particle) (P : Particle.t) :
  Np.exact p P → Np.in_range 0 P → Np.equal (Np.floated P) p = true.
Proof.
  intros (Hid & Hpos & Hvel & Hacc) (_ & Hx & Hy & Hz).
  destruct p as [i a v c]. destruct P as [I [x1 x2 x3] [v1 v2 v3] [a1 a2 a3]].
  cbn in Hid, Hpos, Hvel, Hacc, Hx, Hy, Hz. subst i v c.
  unfold Np.equal, Np.floated.
  cbn [Np.id Np.pos Np.vel Np.acc Particle.id Particle.pos Particle.vel
       Particle.acc].
  rewrite !bool_decide_eq_true_2 by done. rewrite !andb_true_r. cbn [andb].
  assert (∀ x y z, Np.magnitude 0 x y z ≤ 2 ^ 51 → Z.abs x < 2 ^ 52) as Hm.
  { intros x v0 a0. unfold Np.magnitude. change (Z.abs 0 + 1) with 1.
    rewrite !Z.mul_1_l. pose proof (Z.abs_nonneg v0).
    pose proof (Z.abs_nonneg a0).
    change (2 ^ 51) with 2251799813685248.
    change (2 ^ 52) with 4503599627370496. lia. }
  destruct Hpos as [->| ->]; unfold Np.array_equal, Np.float_array, Np.to_float;
    cbn [vx vy vz Np.fx Np.fy Np.fz].
  - rewrite !of_int_exact by eauto. unfold Np.eqb. by rewrite !Z.eqb_refl.
  - unfold Np.eqb. by rewrite !Z.eqb_refl.
Qed.
(** C1 as the specification states it fails: on the particle at position
    [2^53] with the acceleration 1, [update(2)] leaves the position
    [2^53 + 4] and two calls [update(1)] leave [2^53]; the sums of the
    [float64] positions are rounded. *)
Lemma update_differs_from_unit_steps_at_2_53 :
  let p := Np.mk 0 (Np.Int64 (Vec3 (2 ^ 53) 0 0)) (Vec3 0 0 0) (Vec3 1 0 0) in
  Np.update 2 p
  = Some (Np.mk 0 (Np.float_array (Vec3 (2 ^ 53 + 4) 0 0)) (Vec3 2 0 0)
                (Vec3 1 0 0))
  ∧ Np.updates 2 p
    = Some (Np.mk 0 (Np.float_array (Vec3 (2 ^ 53) 0 0)) (Vec3 2 0 0)
                  (Vec3 1 0 0))
  ∧ ¬ (∃ p' q', Np.update 2 p = Some p' ∧ Np.updates 2 p = Some q'
                ∧ Np.equal p' q' = true).
Proof.
  intros p.
  assert (Np.update 2 p
          = Some (Np.mk 0 (Np.float_array (Vec3 (2 ^ 53 + 4) 0 0)) (Vec3 2 0 0)
                        (Vec3 1 0 0))) as H1 by (vm_compute; reflexivity).
  assert (Np.updates 2 p
          = Some (Np.mk 0 (Np.float_array (Vec3 (2 ^ 53) 0 0)) (Vec3 2 0 0)
                        (Vec3 1 0 0))) as H2 by (vm_compute; reflexivity).
  split_and!; [done..|].
  intros (p' & q' & Hp & Hq & Heq).
  rewrite H1 in Hp. rewrite H2 in Hq.
  injection Hp as <-. injection Hq as <-.
  revert Heq. vm_compute. discriminate.
Qed.

(** C1, amended.  In the range of the exact arithmetic one call [update(t)]
    leaves a particle with the position and the velocity that [t] calls
    [update(1)] in sequence leave, for every natural number [t]: the
    vectors compare equal, and from one call on they are the same arrays.
    Both are the values of the iterated unit step of the specification,
    [velocity += acceleration; position += velocity], in exact integers.
    The range: [t ≤ 2^51], and in every component
    [|pos| + (t + 1) * |vel| + (t + 1)^2 * |acc| ≤ 2^51]. *)
Theorem update_is_iterated_unit_step_in_range
    (p : Np.particle) (P : Particle.t) (n : nat) :
  Np.exact p P → Np.in_range (Z.of_nat n) P →
  ∃ p' q',
    Np.update (Z.of_nat n) p = Some p'
    ∧ Np.updates n p = Some q'
    ∧ Np.equal p' q' = true
    ∧ (n ≠ 0%nat → p' = q')
    ∧ Np.exact p' (Nat.iter n unit_step P)
    ∧ Np.exact q' (Nat.iter n unit_step P).
Proof.
  intros Hp Hn.
  destruct (updates_exact n n p P Hp Hn) as (q & Hq & Hexact & Hfloat); [done|].
  assert (Particle.update (Z.of_nat n) P = Nat.iter n unit_step P) as Hiter.
  { rewrite updated_iter. apply iter_ext, updated_1. }
  exists (Np.floated (Particle.update (Z.of_nat n) P)), q.
  rewrite <- Hiter. split_and!; [by apply update_exact|done| | |  |done].
  - destruct n as [|n].
    + cbn in Hq. injection Hq as <-. cbn [Z.of_nat]. rewrite updated_0.
      by apply floated_equal.
    + rewrite Hfloat by done. unfold Np.equal, Np.array_equal, Np.floated,
        Np.float_array, Np.to_float, Np.eqb.
      cbn [Np.id Np.pos Np.vel Np.acc Np.fx Np.fy Np.fz].
      by rewrite !bool_decide_eq_true_2, !Z.eqb_refl.
  - intros Hne. by rewrite Hfloat.
  - unfold Np.exact, Np.floated, Np.exact_array; cbn. split_and!; auto.
Qed.

Lemma update_is_iterated_unit_step_in_range_witness :
  let p := Np.mk 0 (Np.Int64 (Vec3 3 0 0)) (Vec3 2 0 0) (Vec3 (-1) 0 0) in
  let P := Particle.mk 0 (Vec3 3 0 0) (Vec3 2 0 0) (Vec3 (-1) 0 0) in
  Np.exact p P ∧ Np.in_range 1000 P
  ∧ ∃ p' q', Np.update 1000 p = Some p' ∧ Np.updates 1000 p = Some q'
      ∧ p' = q'.
Proof.
  intros p P.
  assert (Np.exact p P) as Hp by (split_and!; [done|by left|done|done]).
  assert (Np.in_range (Z.of_nat 1000) P) as Hn.
  { unfold Np.in_range, Np.magnitude. vm_compute. split_and!; discriminate. }
  split; [exact Hp|]. split; [exact Hn|].
  destruct (update_is_iterated_unit_step_in_range p P 1000 Hp Hn)
    as (p' & q' & H1 & H2 & _ & Heq & _).
  exists p', q'. split; [exact H1|]. split; [exact H2|]. by apply Heq.
Defined.
End NumpyExact.

(** ** [find_closest_to_origin] on the numbers of numpy *)

Section NumpyClosest.
Local Open Scope Z_scope.

Lemma round_magnitude_bound (n : Z) : 0 ≤ n → Np.round_magnitude n ≤ 2 * n.
Proof.
  intros Hn. unfold Np.round_magnitude.
  destruct (decide (Z.log2 n + 1 - 53 ≤ 0)) as [|Hk]; [lia|].
  assert (0 < n) as Hpos.
  { destruct (decide (n = 0)) as [->|]; [|lia].
    exfalso. apply Hk. vm_compute. discriminate. }
  set (k := Z.log2 n + 1 - 53) in *.
  assert (2 ^ k ≤ n) as Hpow.
  { etrans; [|apply (Z.log2_spec n Hpos)].
    apply Z.pow_le_mono_r; [lia|]. unfold k. lia. }
  assert (0 < 2 ^ k) as Hk0 by (apply Z.pow_pos_nonneg; lia).
  pose proof (Z.div_mod n (2 ^ k) ltac:(lia)) as Hdiv.
  pose proof (Z.mod_pos_bound n (2 ^ k) Hk0) as Hmod.
  unfold Np.nearest_even.
  revert Hdiv Hmod Hpow Hk0.
  generalize (2 ^ k). intros m. generalize (n / m) (n mod m).
  intros q r Hdiv Hmod Hpow Hk0.
  assert ((q + 1) * m = q * m + m) as Hq by ring.
  rewrite (Z.mul_comm m q) in Hdiv.
  repeat case_decide; try destruct (Z.even q); rewrite ?Hq; lia.
Qed.

(** An [int64] converts to a finite [float64]. *)
Lemma of_int_finite (z : Z) : Z.abs z ≤ 2 ^ 63 → ∃ n, Np.of_int z = Np.Fin n.
Proof.
  intros Hz. unfold Np.of_int, Np.round.
  pose proof (round_magnitude_bound (Z.abs (2 * z)) (Z.abs_nonneg _)) as Hle.
  assert (2 ^ 66 < 2 ^ 1025) as Hmax by (apply Z.pow_lt_mono_r; lia).
  revert Hmax Hle. generalize (2 ^ 1025) (Np.round_magnitude (Z.abs (2 * z))).
  intros top m Hmax Hle.
  change (2 ^ 66) with 73786976294838206464 in Hmax.
  change (2 ^ 63) with 9223372036854775808 in Hz.
  rewrite decide_False by lia. eauto.
Qed.

(** On a tame position the distance that the program computes is the
    Manhattan distance. *)
Lemma manhattan_dist_tame (ints : bool) (p : Np.particle) :
  Np.tame ints (Np.pos p) →
  0 ≤ Np.twice_distance (Np.pos p)
  ∧ if ints
    then ∃ d, Np.manhattan_dist p = Np.Int d
              ∧ Np.twice_distance (Np.pos p) = 2 * d ∧ 0 ≤ d < 2 ^ 63
    else Np.manhattan_dist p = Np.Float (Np.Fin (Np.twice_distance (Np.pos p))).
Proof.
  unfold Np.manhattan_dist, Np.tame, Np.twice_distance.
  destruct (Np.pos p) as [[x y z]|[[x| |] [y| |] [z| |]]]; try done.
  - cbn [vx vy vz]. intros [-> Hsum].
    pose proof (Z.abs_nonneg x). pose proof (Z.abs_nonneg y).
    pose proof (Z.abs_nonneg z).
    split; [lia|]. exists (Z.abs x + Z.abs y + Z.abs z).
    change (2 ^ 63) with 9223372036854775808 in *.
    rewrite !(wrap_exact (Z.abs _))
      by (unfold Np.int64; change (2 ^ 63) with 9223372036854775808; lia).
    rewrite wrap_exact
      by (unfold Np.int64; change (2 ^ 63) with 9223372036854775808; lia).
    split_and!; [done|done|lia|lia].
  - cbn [Np.fx Np.fy Np.fz]. intros [-> Hsum].
    pose proof (Z.abs_nonneg x). pose proof (Z.abs_nonneg y).
    pose proof (Z.abs_nonneg z).
    split; [lia|]. unfold Np.abs.
    change (2 ^ 53) with 9007199254740992 in *.
    rewrite add_exact by (change (2 ^ 53) with 9007199254740992; lia).
    rewrite add_exact by (change (2 ^ 53) with 9007199254740992; lia).
    done.
Qed.

(** [particle_dist < dist] between two tame positions of one kind, and
    against the [float('inf')] of the start. *)
Lemma less_tame (ints : bool) (p q : Np.particle) :
  Np.tame ints (Np.pos p) → Np.tame ints (Np.pos q) →
  Np.less (Np.manhattan_dist p) (Np.manhattan_dist q)
  = (Np.twice_distance (Np.pos p) <? Np.twice_distance (Np.pos q)).
Proof.
  intros Hp Hq.
  destruct (manhattan_dist_tame ints p Hp) as [_ Hdp].
  destruct (manhattan_dist_tame ints q Hq) as [_ Hdq].
  destruct ints.
  - destruct Hdp as (d & -> & -> & _). destruct Hdq as (d' & -> & -> & _).
    cbn. destruct (Z.ltb_spec d d'), (Z.ltb_spec (2 * d) (2 * d')); lia || done.
  - by rewrite Hdp, Hdq.
Qed.

Lemma less_infinity (ints : bool) (p : Np.particle) :
  Np.tame ints (Np.pos p) →
  Np.less (Np.manhattan_dist p) (Np.Float (Np.Inf false)) = true.
Proof.
  intros Hp. destruct (manhattan_dist_tame ints p Hp) as [_ Hd].
  destruct ints.
  - destruct Hd as (d & -> & _ & Hd). cbn.
    destruct (of_int_finite d) as [n ->]; [lia|done].
  - by rewrite Hd.
Qed.

Lemma np_closest_from_running (ints : bool) (h : list Np.particle)
    (sys : list loc) (best : loc) :
  let dist := λ l, Np.twice_distance (Np.pos (Np.deref h l)) in
  Np.tame ints (Np.pos (Np.deref h best)) →
  Forall (λ l, Np.tame ints (Np.pos (Np.deref h l))) sys →
  ∃ l, Np.closest_from h sys (Some best) (Np.manhattan_dist (Np.deref h best))
       = Some l
    ∧ (l = best ∨ l ∈ sys)
    ∧ dist l ≤ dist best
    ∧ (∀ l', l' ∈ sys → dist l ≤ dist l')
    ∧ (l = best
       ∨ dist l < dist best
         ∧ ∃ i, sys !! i = Some l
            ∧ ∀ j l', (j < i)%nat → sys !! j = Some l' → dist l < dist l').
Proof.
  intros dist Hbest Hsys. revert best Hbest.
  induction Hsys as [|x sys Hx Hsys IH]; intros best Hbest.
  - exists best. cbn. split_and!; auto; [lia|]. by intros l' ?%elem_of_nil.
  - cbn [Np.closest_from]. rewrite (less_tame ints) by done.
    fold (dist x) (dist best).
    destruct (Z.ltb_spec (dist x) (dist best)) as [Hlt|Hge].
    + destruct (IH x Hx) as (l & -> & Hin & Hle & Hmin & Hfirst).
      exists l. split_and!; [done| |lia| |].
      * right. destruct Hin as [->|?]; [left|right]; done.
      * intros l' [->|?]%elem_of_cons; auto.
      * right. split; [lia|].
        destruct Hfirst as [->|(? & i & Hi & Hbefore)].
        -- exists 0%nat. split; [done|]. intros j l' ?; lia.
        -- exists (S i). split; [done|].
           intros [|j] l' ? Hj; [cbn in Hj; simplify_eq; lia|].
           apply (Hbefore j); [lia|done].
    + destruct (IH best Hbest) as (l & -> & Hin & Hle & Hmin & Hfirst).
      exists l. split_and!; [done| |done| |].
      * destruct Hin as [->|?]; [by left|right; by right].
      * intros l' [->|?]%elem_of_cons; [lia|auto].
      * destruct Hfirst as [->|(? & i & Hi & Hbefore)]; [by left|right].
        split; [done|]. exists (S i). split; [done|].
        intros [|j] l' ? Hj; [cbn in Hj; simplify_eq; lia|].
        apply (Hbefore j); [lia|done].
Qed.

Lemma np_closest_first_minimum (ints : bool) (h : list Np.particle)
    (sys : list loc) (x : loc) :
  let dist := λ l, Np.twice_distance (Np.pos (Np.deref h l)) in
  Forall (λ l, Np.tame ints (Np.pos (Np.deref h l))) (x :: sys) →
  ∃ l i, Np.find_closest_to_origin (x :: sys) h = Some l
    ∧ (x :: sys) !! i = Some l
    ∧ (∀ l', l' ∈ x :: sys → dist l ≤ dist l')
    ∧ (∀ j l', (j < i)%nat → (x :: sys) !! j = Some l' → dist l < dist l').
Proof.
  intros dist [Hx Hsys]%Forall_cons.
  unfold Np.find_closest_to_origin. cbn [Np.closest_from].
  rewrite (less_infinity ints) by done.
  destruct (np_closest_from_running ints h sys x Hx Hsys)
    as (l & -> & Hin & Hle & Hmin & Hfirst).
  unfold dist.
  destruct Hfirst as [->|(Hlt & i & Hi & Hbefore)].
  - exists x, 0%nat. split_and!; [done|done| |intros; lia].
    intros l' [->|?]%elem_of_cons; [lia|by apply Hmin].
  - exists l, (S i). split_and!; [done|done| |].
    + intros l' [->|?]%elem_of_cons; [lia|by apply Hmin].
    + intros [|j] l' ? Hj; [cbn in Hj; simplify_eq; lia|].
      apply (Hbefore j); [lia|done].
Qed.
(** C7 as the specification states it fails: the sum of the absolute values
    of an [int64] array wraps around.  For the positions [(2^62, 2^62, 0)]
    and [(1, 0, 0)] the program computes the distances [-2^63] and 1, and
    returns the first particle, whose Manhattan distance [2^63] is not
    minimal. *)
Lemma find_closest_not_minimal_at_2_62 :
  let h := [Np.mk 0 (Np.Int64 (Vec3 (2 ^ 62) (2 ^ 62) 0)) (Vec3 0 0 0) (Vec3 0 0 0);
            Np.mk 1 (Np.Int64 (Vec3 1 0 0)) (Vec3 0 0 0) (Vec3 0 0 0)] in
  Np.manhattan_dist (Np.deref h 0) = Np.Int (- 2 ^ 63)
  ∧ Np.find_closest_to_origin [0; 1]%nat h = Some 0%nat
  ∧ ¬ (∀ l', l' ∈ [0; 1]%nat →
         Np.twice_distance (Np.pos (Np.deref h 0))
         ≤ Np.twice_distance (Np.pos (Np.deref h l'))).
Proof.
  intros h. split_and!; [by vm_compute..|].
  intros Hmin. specialize (Hmin 1%nat).
  revert Hmin. vm_compute. intros Hmin. apply Hmin; [|done].
  apply elem_of_cons. right. apply elem_of_cons. by left.
Qed.

(** C7, amended.  On a collection that is not empty and whose positions are
    tame ([int64] arrays of a distance below [2^63], or finite [float64]
    arrays of a distance below [2^53]), [find_closest_to_origin] returns a
    particle of the collection whose Manhattan distance is minimal; among
    the particles of minimal distance it is the first in storage order,
    which is the one of least id when the ids ascend along the storage
    order.  The query reads the state and changes nothing. *)
Theorem find_closest_first_of_minimal_distance_in_range
    (ints : bool) (system : list loc) (h : list Np.particle) :
  let dist := λ l, Np.twice_distance (Np.pos (Np.deref h l)) in
  system ≠ [] →
  Forall (λ l, Np.tame ints (Np.pos (Np.deref h l))) system →
  ∃ l i,
    Np.find_closest_to_origin system h = Some l
    ∧ system !! i = Some l
    ∧ (∀ l', l' ∈ system → dist l ≤ dist l')
    ∧ (∀ j l', (j < i)%nat → system !! j = Some l' → dist l < dist l')
    ∧ (StronglySorted Z.lt ((λ l, Np.id (Np.deref h l)) <$> system) →
       ∀ l', l' ∈ system → dist l' = dist l →
         Np.id (Np.deref h l) ≤ Np.id (Np.deref h l')).
Proof.
  intros dist Hne Htame. destruct system as [|x sys]; [done|].
  destruct (np_closest_first_minimum ints h sys x Htame)
    as (l & i & Hres & Hi & Hmin & Hfirst).
  exists l, i. split_and!; [done..|].
  intros Hasc l' [j Hj]%list_elem_of_lookup Heq.
  destruct (Nat.lt_trichotomy j i) as [Hlt|[->|Hgt]].
  - specialize (Hfirst j l' Hlt Hj). unfold dist in Heq. lia.
  - rewrite Hi in Hj. by simplify_eq.
  - assert (Np.id (Np.deref h l) < Np.id (Np.deref h l')); [|lia].
    apply (StronglySorted_lookup_lt _ _ i j _ _ Hasc Hgt);
      rewrite list_lookup_fmap; [by rewrite Hi|by rewrite Hj].
Qed.

(** The witness: two particles at distance 2 after an update, the one
    stored first wins. *)
Lemma find_closest_first_of_minimal_distance_in_range_witness :
  let h := [Np.mk 0 (Np.float_array (Vec3 1 1 0)) (Vec3 0 0 0) (Vec3 0 0 0);
            Np.mk 1 (Np.float_array (Vec3 0 0 (-2))) (Vec3 0 0 0) (Vec3 0 0 0)] in
  [0; 1]%nat ≠ []
  ∧ Forall (λ l, Np.tame false (Np.pos (Np.deref h l))) [0; 1]%nat
  ∧ ∃ l i, Np.find_closest_to_origin [0; 1]%nat h = Some l
      ∧ [0; 1]%nat !! i = Some l.
Proof.
  intros h.
  assert ([0; 1]%nat ≠ []) as Hne by done.
  assert (Forall (λ l, Np.tame false (Np.pos (Np.deref h l))) [0; 1]%nat)
    as Htame.
  { repeat first [apply Forall_nil_2 | apply Forall_cons_2];
      refine (bool_decide_unpack _ _); vm_compute; exact I. }
  split; [exact Hne|]. split; [exact Htame|].
  destruct (find_closest_first_of_minimal_distance_in_range false [0; 1]%nat h
              Hne Htame) as (l & i & H1 & H2 & _).
  exists l, i. split; [exact H1|exact H2].
Defined.

(** X19. On a tame position the distance that [manhattan_dist] computes is
    the Manhattan distance: it is not negative, it is the [int64] or the
    [float64] of that value, and it is 0 exactly when the position compares
    equal to the origin. *)
Theorem manhattan_dist_exact_in_range (ints : bool) (p : Np.particle) :
  Np.tame ints (Np.pos p) →
  0 ≤ Np.twice_distance (Np.pos p)
  ∧ (if ints
     then ∃ d, Np.manhattan_dist p = Np.Int d
               ∧ Np.twice_distance (Np.pos p) = 2 * d ∧ 0 ≤ d < 2 ^ 63
     else Np.manhattan_dist p
          = Np.Float (Np.Fin (Np.twice_distance (Np.pos p))))
  ∧ (Np.twice_distance (Np.pos p) = 0
     ↔ Np.array_equal (Np.pos p) (Np.Int64 (Vec3 0 0 0)) = true).
Proof.
  intros Htame. destruct (manhattan_dist_tame ints p Htame) as [H0 Hd].
  split_and!; [done..|].
  unfold Np.tame in Htame. unfold Np.twice_distance, Np.array_equal.
  destruct (Np.pos p) as [[x y z]|[[x| |] [y| |] [z| |]]]; try done.
  - cbn [vx vy vz]. rewrite bool_decide_eq_true. split.
    + intros Hsum. f_equal; lia.
    + intros [= -> -> ->]. done.
  - cbn [Np.to_float Np.fx Np.fy Np.fz vx vy vz].
    change (Np.of_int 0) with (Np.Fin 0). unfold Np.eqb.
    rewrite !andb_true_iff, !Z.eqb_eq. lia.
Qed.

Lemma manhattan_dist_exact_in_range_witness :
  let p := Np.mk 0 (Np.Int64 (Vec3 3 (-4) 0)) (Vec3 0 0 0) (Vec3 0 0 0) in
  Np.tame true (Np.pos p) ∧ Np.manhattan_dist p = Np.Int 7.
Proof.
  intros p.
  assert (Np.tame true (Np.pos p)) as Htame
    by (refine (bool_decide_unpack _ _); vm_compute; exact I).
  split; [exact Htame|].
  destruct (manhattan_dist_exact_in_range true p Htame)
    as (_ & (d & Hd & Htwice & _) & _).
  rewrite Hd. f_equal.
  change (Np.twice_distance (Np.pos p)) with 14 in Htwice. lia.
Defined.
End NumpyClosest.

(** ** Updates in the range of the exact arithmetic *)

Section NumpyUpdates.
Local Open Scope Z_scope.

Lemma exact_floated (P : Particle.t) : Np.exact (Np.floated P) P.
Proof. unfold Np.exact, Np.floated, Np.exact_array; cbn. split_and!; auto. Qed.

(** X1. In its range [Particle.update] computes the closed form in exact
    integers, [pos + t * vel + acc * t * (t + 1) / 2] and [vel + acc * t],
    and leaves the position as a [float64] array; and calls compose
    additively: [update(b)] followed by [update(a)] is [update(a + b)], for
    integers [a] and [b] of either sign, when the three updates are in
    range. *)
Theorem update_additive_in_range (a b : Z) (p : Np.particle) (P : Particle.t) :
  Np.exact p P →
  Np.in_range b P → Np.in_range a (Particle.update b P) →
  Np.in_range (a + b) P →
  Np.update b p = Some (Np.floated (Particle.update b P))
  ∧ (Np.update b p ≫= Np.update a) = Np.update (a + b) p
  ∧ Np.update (a + b) p
    = Some (Np.floated (Particle.update a (Particle.update b P))).
Proof.
  intros Hp Hb Ha Hab.
  rewrite (update_exact b p P Hp Hb). cbn.
  rewrite (update_exact a _ _ (exact_floated _) Ha).
  rewrite (update_exact (a + b) p P Hp Hab).
  by rewrite update_add.
Qed.

Lemma update_additive_in_range_witness :
  let p := Np.mk 0 (Np.Int64 (Vec3 3 0 0)) (Vec3 2 0 0) (Vec3 (-1) 0 0) in
  let P := Particle.mk 0 (Vec3 3 0 0) (Vec3 2 0 0) (Vec3 (-1) 0 0) in
  Np.exact p P ∧ Np.in_range 5 P ∧ Np.in_range (-2) (Particle.update 5 P)
  ∧ Np.in_range (-2 + 5) P
  ∧ (Np.update 5 p ≫= Np.update (-2)) = Np.update 3 p.
Proof.
  intros p P.
  assert (Np.exact p P) as Hp by (split_and!; [done|by left|done|done]).
  assert (Np.in_range 5 P) as H5
    by (unfold Np.in_range, Np.magnitude; vm_compute; split_and!; discriminate).
  assert (Np.in_range (-2) (Particle.update 5 P)) as H2
    by (unfold Np.in_range, Np.magnitude; vm_compute; split_and!; discriminate).
  assert (Np.in_range (-2 + 5) P) as H3
    by (unfold Np.in_range, Np.magnitude; vm_compute; split_and!; discriminate).
  split_and!; [exact Hp|exact H5|exact H2|exact H3|].
  exact (proj1 (proj2 (update_additive_in_range (-2) 5 p P Hp H5 H2 H3))).
Defined.
End NumpyUpdates.

(** ** Scenario 1 on the numbers of numpy *)

Section NumpyScenario.
Local Open Scope Z_scope.

(** C3, amended.  In scenario 1 the query reports id 0 as closest after the
    1,000,000 steps without collisions of the reference run: in the exact
    integers, and as the program computes with [int64] and [float64]
    arrays. *)
Theorem scenario_1_reports_id_0 :
  closest_after 1000000 scenario_1 = Ok (Some 0)
  ∧ Np.closest_after 1000000 scenario_1 = Some (Some 0).
Proof. split; vm_compute; reflexivity. Qed.

(** The amended claim stops at the reference run: after [2^32] steps the
    products of the [int64] arrays have wrapped around, and the program
    reports id 1. *)
Lemma scenario_1_wraps_at_2_32 :
  Np.closest_after (2 ^ 32) scenario_1 = Some (Some 1).
Proof. vm_compute. reflexivity. Qed.
End NumpyScenario.

(** ** [score] on generator objects *)

Section ScoreObjects.
Local Open Scope Z_scope.

Lemma generate_at_lookup (self : loc) (store : list Generator.t) g :
  store !! self = Some g →
  generate_at self store
  = '(v, g') ← Generator.generate g; Ok (v, <[self := g']> store).
Proof. intros Hg. unfold generate_at. by rewrite Hg. Qed.

(** On two distinct objects the loop of [score] is the loop on their
    values, and leaves the two objects as the calls left them. *)
Lemma score_loop_at_distinct (n : nat) (gen_a gen_b : loc)
    (store : list Generator.t) ga gb (acc : Z) :
  gen_a ≠ gen_b →
  store !! gen_a = Some ga → store !! gen_b = Some gb →
  score_loop_at n gen_a gen_b store acc
  = '(s, ga', gb') ← score_loop n ga gb acc;
    Ok (s, <[gen_b := gb']> (<[gen_a := ga']> store)).
Proof.
  intros Hne. revert store ga gb acc.
  induction n as [|n IH]; intros store ga gb acc Ha Hb.
  - cbn. by rewrite (list_insert_id _ gen_a ga), (list_insert_id _ gen_b gb).
  - cbn [score_loop_at score_loop].
    rewrite (generate_at_lookup gen_a store ga Ha).
    destruct (Generator.generate ga) as [[a ga1]| | |]; [|done..].
    cbn [mbind result_bind].
    assert (<[gen_a := ga1]> store !! gen_b = Some gb) as Hb1
      by (by rewrite list_lookup_insert_ne).
    rewrite (generate_at_lookup gen_b _ gb Hb1).
    destruct (Generator.generate gb) as [[b gb1]| | |]; [|done..].
    cbn [mbind result_bind].
    set (store2 := <[gen_b := gb1]> (<[gen_a := ga1]> store)).
    assert (store2 !! gen_a = Some ga1) as Ha2.
    { unfold store2. rewrite list_lookup_insert_ne by done.
      apply list_lookup_insert_eq. by eapply lookup_lt_Some. }
    assert (store2 !! gen_b = Some gb1) as Hb2.
    { unfold store2. apply list_lookup_insert_eq.
      rewrite length_insert. by eapply lookup_lt_Some. }
    assert (∀ ga' gb', <[gen_b := gb']> (<[gen_a := ga']> store2)
                       = <[gen_b := gb']> (<[gen_a := ga']> store)) as Hstore.
    { intros ga' gb'. unfold store2.
      rewrite (list_insert_insert_ne _ gen_a gen_b ga' gb1) by done.
      by rewrite !list_insert_insert_eq. }
    destruct (decide (lower_bits a 16 = lower_bits b 16)).
    + rewrite (IH store2 ga1 gb1 (acc + 1) Ha2 Hb2).
      destruct (score_loop n ga1 gb1 (acc + 1)) as [[[s ga'] gb']| | |];
        [|done..].
      cbn. by rewrite Hstore.
    + rewrite (IH store2 ga1 gb1 acc Ha2 Hb2).
      destruct (score_loop n ga1 gb1 acc) as [[[s ga'] gb']| | |]; [|done..].
      cbn. by rewrite Hstore.
Qed.
(** X16. What [score] counts, for two distinct generator objects with
    positive divisors: the rounds in which the lowest 16 bits of the two
    values are equal and both values or neither are below [2^15].  So
    [score] returns, never counts a round in which the lowest 16 bits
    differ, and its count is at most the number of rounds with equal lowest
    16 bits, which is at most the number of rounds.  The two objects are
    left as the calls of [generate] left them, and no other object is
    changed. *)
Theorem score_counts_agreeing_rounds
    (store : list Generator.t) (gen_a gen_b : loc) ga gb (pairs : Z) :
  gen_a ≠ gen_b →
  store !! gen_a = Some ga → store !! gen_b = Some gb →
  0 < Generator._divisor ga → 0 < Generator._divisor gb →
  ∃ va vb ga' gb' (matches : Z),
    generated (Z.to_nat pairs) ga = Ok (va, ga')
    ∧ generated (Z.to_nat pairs) gb = Ok (vb, gb')
    ∧ score_at gen_a gen_b pairs store
      = Ok (Z.of_nat (length (filter (λ ab, low16 ab.1 = low16 ab.2
                                            ∧ (ab.1 < 32768 ↔ ab.2 < 32768))
                                     (zip va vb))),
            <[gen_b := gb']> (<[gen_a := ga']> store))
    ∧ matching_rounds (Z.to_nat pairs) ga gb = Ok matches
    ∧ Z.of_nat (length (filter (λ ab, low16 ab.1 = low16 ab.2
                                       ∧ (ab.1 < 32768 ↔ ab.2 < 32768))
                                (zip va vb))) ≤ matches
    ∧ matches ≤ Z.max 0 pairs.
Proof.
  intros Hne Hga Hgb Ha Hb.
  destruct (score_loop_spec (Z.to_nat pairs) ga gb 0 Ha Hb)
    as (va & vb & ga' & gb' & Hva & Hvb & Hla & Hlb & Hscore & Hmatch).
  eexists va, vb, ga', gb', _.
  split_and!; [done|done| |exact Hmatch| |].
  - unfold score_at.
    rewrite (score_loop_at_distinct _ _ _ _ ga gb 0 Hne Hga Hgb), Hscore.
    reflexivity.
  - apply inj_le. apply filter_length_mono. by intros ab [? _].
  - pose proof (length_filter (λ ab : Z * Z, low16 ab.1 = low16 ab.2) (zip va vb)).
    rewrite length_zip in *. lia.
Qed.

Lemma score_counts_agreeing_rounds_witness :
  let '(ga, gb) := main_generators 65 8921 in
  (0 ≠ 1)%nat ∧ [ga; gb] !! 0%nat = Some ga ∧ [ga; gb] !! 1%nat = Some gb
  ∧ 0 < Generator._divisor ga ∧ 0 < Generator._divisor gb
  ∧ ∃ (count : Z) store', score_at 0 1 5 [ga; gb] = Ok (count, store').
Proof.
  cbn [main_generators].
  set (ga := Generator.__init__ 65 _ _). set (gb := Generator.__init__ 8921 _ _).
  assert ((0 ≠ 1)%nat) as Hne by done.
  assert ([ga; gb] !! 0%nat = Some ga) as Hga by done.
  assert ([ga; gb] !! 1%nat = Some gb) as Hgb by done.
  assert (0 < Generator._divisor ga) as Ha by (vm_compute; reflexivity).
  assert (0 < Generator._divisor gb) as Hb by (vm_compute; reflexivity).
  split_and!; [exact Hne|exact Hga|exact Hgb|exact Ha|exact Hb|].
  destruct (score_counts_agreeing_rounds [ga; gb] 0 1 ga gb 5 Hne Hga Hgb Ha Hb)
    as (va & vb & ga' & gb' & m & _ & _ & Hscore & _).
  eexists _, _. exact Hscore.
Defined.

(** One object passed twice: the two values of a round are consecutive
    values of the one generator, where two generators with the same
    attributes give the same value twice. *)
Lemma score_at_same_object :
  let g := Generator.__init__ 65 16807 2147483647 in
  (∃ store', score_at 0 0 2 [g] = Ok (0, store'))
  ∧ ∃ store', score_at 0 1 2 [g; g] = Ok (2, store').
Proof. intros g. split; eexists; vm_compute; reflexivity. Qed.
End ScoreObjects.
